(** * mini-jotai: the store engine of [src/mini-jotai/store.ts]

    A shallow embedding of [createStore] (read path, write path, flush,
    mount / unmount) and of the [atom] factory, followed by the properties
    of the specification that were checked against it.

    Modelling conventions.
    - An atom config object is identified by its reference [AtomRef]; the
      immutable configs live in a table [atoms : AtomRef -> AtomConfig].
    - A read function [(get) => value] is the tree of its [get] calls
      ([Read]); a write function [(get, set, ...args) => result] likewise
      ([Write]).  Listener callbacks are referenced by [ListenerRef]; their
      bodies ([listeners]) are sequences of [store.get] / [store.set] calls.
    - [atomStateMap] and [mountedMap] are WeakMaps (no iteration): [gmap].
      [pendingMap], the dependency maps [d] and the sets [l], [t] are
      iterated in insertion order: lists with the JS [Map.set] / [Set.add]
      discipline.
    - The closures of [createStore] share three mutable maps: every function
      takes and returns the [Store].  An exception carries the store as it
      was when thrown.  Recursion through user code is bounded by [fuel]
      (call depth / loop rounds); [OutOfFuel] stands for "did not return".
    - [trace] is ghost state: it records each invocation of a read function,
      of a listener, and each entry into [recomputeDependents]. *)

From Stdlib Require Import ZArith List Lia Bool String.
From stdpp Require Import base option list gmap.

Set Warnings "-register-all".

(** ** Values *)

Definition AtomRef := nat.
Definition ListenerRef := nat.

(** JS values as far as the store looks at them: [Object.is] compares
    primitives by value and objects / functions by reference. *)
Inductive Value :=
| VUndefined
| VNum (n : Z)
| VObj (ref : nat)
| VFun (ref : nat).

#[global] Instance Value_eq_dec : EqDecision Value.
Proof. solve_decision. Defined.

Definition Object_is (a b : Value) : bool := bool_decide (a = b).

(** ** atom.ts *)

(** [Read<Value> = (get: Getter) => Value] *)
Inductive Read :=
| RRet (value : Value)
| RGet (a : AtomRef) (k : Value -> Read).

(** [Write<Args, Result> = (get, set, ...args) => Result] *)
Inductive Write :=
| WRet (result : Value)
| WGet (a : AtomRef) (k : Value -> Write)
| WSet (a : AtomRef) (args : list Value) (k : Value -> Write).

Record AtomConfig := mkAtomConfig {
  debugLabel : string;
  init : option Value;                       (* ["init" in atom] *)
  read : Read;
  write : option (list Value -> Write)
}.

(** [args[0]] of a JS argument list *)
Definition arg0 (args : list Value) : Value := List.hd VUndefined args.

(** The default [write] that [atom(initialValue)] installs:
    [(get, set, arg) => set(config, typeof arg === "function" ? arg(get(config)) : arg)].
    [fns] gives the body of each function value. *)
Definition defaultWrite (fns : nat -> Value -> Value) (config : AtomRef)
    (args : list Value) : Write :=
  match arg0 args with
  | VFun f => WGet config (fun prev => WSet config [fns f prev] WRet)
  | arg => WSet config [arg] WRet
  end.

(** [config.write = write], the last step of [atom(read, write?)] *)
Definition withWrite (config : AtomConfig) (w : list Value -> Write) : AtomConfig :=
  mkAtomConfig (debugLabel config) (init config) (read config) (Some w).

(** [atom(read, write?)]: [read] is either a non-function value ([inl]) or a
    read function ([inr]); [config] is the reference of the object built. *)
Definition atom (fns : nat -> Value -> Value) (config : AtomRef)
    (read : Value + Read) (write : option (list Value -> Write)) : AtomConfig :=
  let base :=
    match read with
    | inr f => mkAtomConfig EmptyString None f None
    | inl value =>
        mkAtomConfig EmptyString (Some value) (RGet config RRet)
          (Some (defaultWrite fns config))
    end in
  from_option (withWrite base) base write.

(** ** store.ts: types *)

(** [type AtomState = { d: Dependencies; v: Value }] where
    [NextDependencies = Map<AnyReadableAtom, AtomState | undefined>] *)
Inductive AtomState := mkAtomState {
  d : list (AtomRef * option AtomState);
  v : Value
}.

(** [type Mounted = { l: Listeners; t: Dependents }] *)
Record Mounted := mkMounted {
  l : list ListenerRef;
  t : list AtomRef
}.

Inductive Event :=
| EvRead (a : AtomRef)
| EvRecompute (a : AtomRef)
| EvListener (a : AtomRef) (f : ListenerRef).

#[global] Instance Event_eq_dec : EqDecision Event.
Proof. unfold AtomRef, ListenerRef. solve_decision. Defined.

Record Store := mkStore {
  atomStateMap : gmap AtomRef AtomState;
  mountedMap : gmap AtomRef Mounted;
  pendingMap : list (AtomRef * option AtomState);
  trace : list Event
}.

Inductive Error :=
| NoAtomInit        (* [throw new Error("no atom init")] *)
| NotWritable.      (* [atom.write] is undefined *)

Inductive Res (A : Type) :=
| Ok (a : A) (s : Store)
| Throw (e : Error) (s : Store)
| OutOfFuel.
Arguments Ok {A} a s.
Arguments Throw {A} e s.
Arguments OutOfFuel {A}.

Definition bind {A B} (m : Res A) (f : A -> Store -> Res B) : Res B :=
  match m with
  | Ok a s => f a s
  | Throw e s => Throw e s
  | OutOfFuel => OutOfFuel
  end.

Notation "'let!' x ':=' m 'in' k" := (bind m (fun x => k))
  (at level 10, x name, m at level 200, k at level 200).

(** [xs.forEach(f)] for an effectful [f] *)
Fixpoint forEach {A} (f : A -> Store -> Res unit) (xs : list A) (s : Store)
    : Res unit :=
  match xs with
  | [] => Ok tt s
  | x :: xs' => bind (f x s) (fun _ s' => forEach f xs' s')
  end.

(** ** JS [Map] / [Set] in insertion order *)

Definition map_keys {V} (m : list (AtomRef * V)) : list AtomRef := m.*1.

Definition map_has {V} (m : list (AtomRef * V)) (k : AtomRef) : bool :=
  bool_decide (k ∈ map_keys m).

Fixpoint map_set {V} (m : list (AtomRef * V)) (k : AtomRef) (x : V)
    : list (AtomRef * V) :=
  match m with
  | [] => [(k, x)]
  | (k', x') :: m' =>
      if decide (k' = k) then (k, x) :: m' else (k', x') :: map_set m' k x
  end.

Definition set_add (xs : list nat) (x : nat) : list nat :=
  if decide (x ∈ xs) then xs else xs ++ [x].

Definition set_delete (xs : list nat) (x : nat) : list nat :=
  filter (fun y => y ≠ x) xs.

(** ** store.ts: [createStore] *)

Definition isEqualAtomValue (a b : AtomState) : bool := Object_is (v a) (v b).

Definition hasInitialValue (config : AtomConfig) : bool :=
  match init config with Some _ => true | None => false end.

Definition returnAtomValue (atomState : AtomState) : Value := v atomState.

Definition createStore : Store := mkStore ∅ ∅ [] [].

Definition log (e : Event) (s : Store) : Store :=
  mkStore (atomStateMap s) (mountedMap s) (pendingMap s) (trace s ++ [e]).

Definition getAtomState (atom : AtomRef) (s : Store) : option AtomState :=
  atomStateMap s !! atom.

Definition setAtomState (atom : AtomRef) (atomState : AtomState) (s : Store)
    : Store :=
  let prevAtomState := atomStateMap s !! atom in
  mkStore (<[atom := atomState]> (atomStateMap s)) (mountedMap s)
    (if map_has (pendingMap s) atom then pendingMap s
     else pendingMap s ++ [(atom, prevAtomState)])
    (trace s).

Definition setAtomValue (atom : AtomRef) (value : Value)
    (nextDependencies : option (list (AtomRef * option AtomState)))
    (s : Store) : AtomState * Store :=
  let prevAtomState := getAtomState atom s in
  let nextAtomState := mkAtomState (default [] nextDependencies) value in
  match prevAtomState with
  | Some prev =>
      if isEqualAtomValue prev nextAtomState then (prev, s)
      else (nextAtomState, setAtomState atom nextAtomState s)
  | None => (nextAtomState, setAtomState atom nextAtomState s)
  end.

Section Store.

Variable atoms : AtomRef -> AtomConfig.

(** The body of [atom.read(getter)] inside [readAtomState(atom)]: [rec] is
    [readAtomState] itself, as called by the getter on another atom. *)
Fixpoint evalRead (rec : AtomRef -> Store -> Res AtomState) (atom : AtomRef)
    (body : Read) (nextDependencies : list (AtomRef * option AtomState))
    (s : Store) : Res AtomState :=
  match body with
  | RRet value =>
      let '(atomState, s') := setAtomValue atom value (Some nextDependencies) s in
      Ok atomState s'
  | RGet a k =>
      if decide (a = atom) then
        match getAtomState a s with
        | Some aState =>
            evalRead rec atom (k (returnAtomValue aState))
              (map_set nextDependencies a (Some aState)) s
        | None =>
            match init (atoms a) with
            | Some i => evalRead rec atom (k i) (map_set nextDependencies a None) s
            | None => Throw NoAtomInit s
            end
        end
      else
        let! aState := rec a s in
        evalRead rec atom (k (returnAtomValue aState))
          (map_set nextDependencies a (Some aState))
  end.

Fixpoint readAtomState (fuel : nat) (atom : AtomRef) (force : bool)
    (s : Store) : Res AtomState :=
  match fuel with
  | 0 => OutOfFuel
  | S fuel' =>
      match getAtomState atom s, force with
      | Some atomState, false => Ok atomState s
      | _, _ =>
          evalRead (fun a => readAtomState fuel' a false) atom
            (read (atoms atom)) [] (log (EvRead atom) s)
      end
  end.

Definition readAtom (fuel : nat) (atom : AtomRef) (s : Store) : Res Value :=
  let! atomState := readAtomState fuel atom false s in
  Ok (returnAtomValue atomState).

(** The callback of [dependents.forEach] in [recomputeDependents(atom)]. *)
Definition recomputeOne (fuel : nat) (rec : AtomRef -> Store -> Res unit)
    (atom dependent : AtomRef) (s : Store) : Res unit :=
  let! _ := (if decide (dependent = atom) then Ok tt s
             else let! _ := readAtomState fuel dependent true s in Ok tt) in
  rec dependent.

Fixpoint recomputeDependents (fuel : nat) (atom : AtomRef) (s : Store)
    : Res unit :=
  match fuel with
  | 0 => OutOfFuel
  | S fuel' =>
      let s := log (EvRecompute atom) s in
      let dependents :=
        match mountedMap s !! atom with Some m => t m | None => [] end in
      forEach (recomputeOne fuel' (recomputeDependents fuel') atom) dependents s
  end.

(** The [setter] branch [a === atom] of [writeAtomState]. *)
Definition setSelf (fuel : nat) (a : AtomRef) (args : list Value) (s : Store)
    : Res unit :=
  let prevAtomState := getAtomState a s in
  let '(nextAtomState, s1) := setAtomValue a (arg0 args) None s in
  match prevAtomState with
  | Some prev =>
      if isEqualAtomValue prev nextAtomState then Ok tt s1
      else recomputeDependents fuel a s1
  | None => recomputeDependents fuel a s1
  end.

(** The body of [atom.write(getter, setter, ...args)] inside
    [writeAtomState(atom, ...)]: [rec] is the nested [writeAtomState]. *)
Fixpoint evalWrite (fuel : nat)
    (rec : AtomRef -> list Value -> Store -> Res Value) (atom : AtomRef)
    (body : Write) (s : Store) : Res Value :=
  match body with
  | WRet result => Ok result s
  | WGet a k =>
      let! aState := readAtomState fuel a false s in
      evalWrite fuel rec atom (k (returnAtomValue aState))
  | WSet a args k =>
      if decide (a = atom) then
        let! _ := setSelf fuel a args s in
        evalWrite fuel rec atom (k VUndefined)
      else
        let! r := rec a args s in
        evalWrite fuel rec atom (k r)
  end.

Fixpoint writeAtomState (fuel : nat) (atom : AtomRef) (args : list Value)
    (s : Store) : Res Value :=
  match fuel with
  | 0 => OutOfFuel
  | S fuel' =>
      match write (atoms atom) with
      | Some w => evalWrite fuel' (writeAtomState fuel') atom (w args) s
      | None => Throw NotWritable s
      end
  end.

(** What a listener body may do here: call [store.get] or [store.set].
    [store.ts] calls any [() => void]; a listener that calls [store.sub] or
    an unsubscribe function while [flushPending] runs is not covered, and the
    properties of [set] below are about listeners of this kind. *)
Inductive Call :=
| CallGet (a : AtomRef)
| CallSet (a : AtomRef) (args : list Value).

Variable listeners : ListenerRef -> list Call.

Definition clearPending (s : Store) : Store :=
  mkStore (atomStateMap s) (mountedMap s) [] (trace s).

(** [listener()] for the listener [f] found in the mount record of [atom];
    [set] is [writeAtom]. *)
Definition runListener (fuel : nat)
    (set : AtomRef -> list Value -> Store -> Res Value)
    (atom : AtomRef) (f : ListenerRef) (s : Store) : Res unit :=
  forEach (fun c s =>
             match c with
             | CallGet a => let! _ := readAtomState fuel a false s in Ok tt
             | CallSet a args => let! _ := set a args s in Ok tt
             end)
    (listeners f) (log (EvListener atom f) s).

(** The test of [flushPending] on one pending entry. *)
Definition shouldNotify (prevAtomState : option AtomState)
    (mounted : option Mounted) (atomState : option AtomState) : bool :=
  match mounted, atomState with
  | Some _, Some cur =>
      negb (match prevAtomState with
            | Some prev => isEqualAtomValue prev cur
            | None => false
            end)
  | _, _ => false
  end.

(** The callback of [pending.forEach] in [flushPending]. *)
Definition flushEntry (listener : AtomRef -> ListenerRef -> Store -> Res unit)
    (entry : AtomRef * option AtomState) (s : Store) : Res unit :=
  let atomState := getAtomState entry.1 s in
  let mounted := mountedMap s !! entry.1 in
  if shouldNotify entry.2 mounted atomState
  then forEach (listener entry.1) (from_option l [] mounted) s
  else Ok tt s.

(** The body of [writeAtom]; [flush] is [flushPending]. *)
Definition writeThenFlush (fuel : nat) (flush : Store -> Res unit)
    (atom : AtomRef) (args : list Value) (s : Store) : Res Value :=
  let! result := writeAtomState fuel atom args s in
  fun s => let! _ := flush s in Ok result.

(** One round of the [while] loop of [flushPending], after
    [pendingMap.clear()]. *)
Definition flushRound (fuel : nat) (flush : Store -> Res unit)
    (pending : list (AtomRef * option AtomState)) (s : Store) : Res unit :=
  forEach (flushEntry (runListener fuel (writeThenFlush fuel flush))) pending s.

Fixpoint flushPending (fuel : nat) (s : Store) : Res unit :=
  match fuel with
  | 0 => OutOfFuel
  | S fuel' =>
      match pendingMap s with
      | [] => Ok tt s
      | pending =>
          let! _ := flushRound fuel' (flushPending fuel') pending (clearPending s) in
          flushPending fuel'
      end
  end.

Definition writeAtom (fuel : nat) (atom : AtomRef) (args : list Value)
    (s : Store) : Res Value :=
  writeThenFlush fuel (flushPending fuel) atom args s.

Definition updMounted (atom : AtomRef) (f : Mounted -> Mounted) (s : Store)
    : Store :=
  mkStore (atomStateMap s) (alter f atom (mountedMap s)) (pendingMap s) (trace s).

Definition setMounted (atom : AtomRef) (mounted : Mounted) (s : Store) : Store :=
  mkStore (atomStateMap s) (<[atom := mounted]> (mountedMap s))
    (pendingMap s) (trace s).

(** The callback of [d.forEach] in [mountAtom(atom)]. *)
Definition mountDep (rec : AtomRef -> option AtomRef -> Store -> Res unit)
    (atom a : AtomRef) (s : Store) : Res unit :=
  match mountedMap s !! a with
  | Some _ => Ok tt (updMounted a (fun m => mkMounted (l m) (set_add (t m) atom)) s)
  | None => if decide (a = atom) then Ok tt s else rec a (Some atom) s
  end.

Fixpoint mountAtom (fuel : nat) (atom : AtomRef)
    (initialDependent : option AtomRef) (s : Store) : Res unit :=
  match fuel with
  | 0 => OutOfFuel
  | S fuel' =>
      let! _ := forEach (mountDep (mountAtom fuel') atom)
                (from_option (fun atomState => map_keys (d atomState)) []
                   (getAtomState atom s)) s in
      fun s =>
        Ok tt (setMounted atom
                 (mkMounted [] (from_option (fun i => [i]) [] initialDependent)) s)
  end.

Definition addAtom (fuel : nat) (atom : AtomRef) (s : Store) : Res unit :=
  match mountedMap s !! atom with
  | Some _ => Ok tt s
  | None => mountAtom fuel atom None s
  end.

Definition unmountAtom (atom : AtomRef) (s : Store) : Store :=
  let s1 := mkStore (atomStateMap s) (delete atom (mountedMap s))
              (pendingMap s) (trace s) in
  match getAtomState atom s1 with
  | Some atomState =>
      fold_left (fun s a =>
                   if decide (a = atom) then s
                   else updMounted a (fun m => mkMounted (l m) (set_delete (t m) atom)) s)
        (map_keys (d atomState)) s1
  | None => s1
  end.

(** [sub(atom, listener)]; the closure it returns is [unsubscribe atom]. *)
Definition subscribeAtom (fuel : nat) (atom : AtomRef) (listener : ListenerRef)
    (s : Store) : Res unit :=
  let! _ := addAtom fuel atom s in
  fun s => Ok tt (updMounted atom (fun m => mkMounted (set_add (l m) listener) (t m)) s).

Definition unsubscribe (atom : AtomRef) (s : Store) : Store := unmountAtom atom s.

End Store.

(** ** hooks.ts

    The hooks as far as the store sees them; React's own state and effect
    machinery is not modelled.  [useSetAtom(atom)] returns
    [(...args) => store.set(atom, ...args)], which is [writeAtom]. *)
Section Hooks.

Variable atoms : AtomRef -> AtomConfig.

(** The reducer [useAtomValue(atom)] hands to [useReducer]:
    [(prev) => { const nextValue = store.get(atom);
                 if (Object.is(prev, nextValue)) { return prev; } }];
    a function that ends without [return] yields [undefined]. *)
Definition useAtomValue_reducer (fuel : nat) (atom : AtomRef) (prev : Value)
    (s : Store) : Res Value :=
  let! nextValue := readAtom atoms fuel atom s in
  fun s => Ok (if Object_is prev nextValue then prev else VUndefined) s.

(** [useAtomValue(atom)] on the first render: the initial state
    [store.get(atom)], then the effect [store.sub(atom, rerender)]. *)
Definition useAtomValue (fuel : nat) (atom : AtomRef) (rerender : ListenerRef)
    (s : Store) : Res Value :=
  let! value := readAtom atoms fuel atom s in
  fun s => let! _ := subscribeAtom fuel atom rerender s in Ok value.

End Hooks.

(** ** devtools *)

(** [xs.reduce(f, acc)] for an effectful [f] *)
Fixpoint reduce {A B} (f : B -> A -> Store -> Res B) (xs : list A) (acc : B)
    (s : Store) : Res B :=
  match xs with
  | [] => Ok acc s
  | x :: xs' => let! acc' := f acc x s in reduce f xs' acc'
  end.

Section Devtools.

Variable atoms : AtomRef -> AtomConfig.

(** [stateToPrintable([state, atoms])]: the reducer fills [res], a record
    from debug labels to [{ value: state.get(atom) }] (here the value
    itself); the arrow function has a block body without [return]. *)
Definition stateToPrintable (fuel : nat) (atoms_ : list AtomRef) (s : Store)
    : Res Value :=
  let! _ := reduce (fun (res : string -> option Value) atom s =>
                      let! atomState := readAtom atoms fuel atom s in
                      Ok (fun label =>
                            if String.eqb label (debugLabel (atoms atom))
                            then Some atomState else res label))
              atoms_ (fun _ => None) s in
  Ok VUndefined.

End Devtools.

(** * A small application

    The atoms and listeners used for the concrete runs below. *)
Module App.

Definition count : AtomRef := 0.
Definition double : AtomRef := 1.
Definition flag : AtomRef := 2.
Definition left : AtomRef := 3.
Definition right : AtomRef := 4.
Definition pick : AtomRef := 5.
Definition bad : AtomRef := 6.
Definition viaBad : AtomRef := 7.
Definition other : AtomRef := 8.
(** [echo = atom(0, (get, set, ...args) => set(echo, ...args))] *)
Definition echo : AtomRef := 9.

(** Function values: [fns 0] is [(prev) => prev + 1]. *)
Definition fns (f : nat) (x : Value) : Value :=
  match f, x with
  | 0, VNum n => VNum (n + 1)
  | _, _ => x
  end.

Definition times2 (x : Value) : Value :=
  match x with VNum n => VNum (n * 2) | _ => VUndefined end.

(** [atom((get) => get(count) * 2)] *)
Definition doubleRead : Read := RGet count (fun x => RRet (times2 x)).

(** [atom((get) => get(flag) === 0 ? get(left) : get(right))] *)
Definition pickRead : Read :=
  RGet flag (fun x =>
    if Object_is x (VNum 0) then RGet left RRet else RGet right RRet).

Definition atoms (a : AtomRef) : AtomConfig :=
  match a with
  | 0 => atom fns 0 (inl (VNum 0)) None
  | 1 => atom fns 1 (inr doubleRead) None
  | 2 => atom fns 2 (inl (VNum 0)) None
  | 3 => atom fns 3 (inl (VNum 10)) None
  | 4 => atom fns 4 (inl (VNum 20)) None
  | 5 => atom fns 5 (inr pickRead) None
  | 6 => atom fns 6 (inr (RGet 6 RRet)) None
  | 7 => atom fns 7 (inr (RGet 6 RRet)) None
  | 9 => atom fns 9 (inl (VNum 0)) (Some (fun args => WSet 9 args WRet))
  | _ => atom fns a (inl (VNum 0)) None
  end.

(** Listener 20 calls [store.get(flag)]; every other listener only records
    that it ran (as the re-render dispatch of [useAtomValue] does). *)
Definition listeners (f : ListenerRef) : list Call :=
  match f with
  | 20 => [CallGet flag]
  | _ => []
  end.

(** The store a call left behind. *)
Definition after {A} (r : Res A) : Store :=
  match r with
  | Ok _ s => s
  | Throw _ s => s
  | OutOfFuel => createStore
  end.

Definition get (a : AtomRef) (s : Store) : Res Value := readAtom atoms 8 a s.
Definition set (a : AtomRef) (arg : Value) (s : Store) : Res Value :=
  writeAtom atoms listeners 8 a [arg] s.
Definition sub (a : AtomRef) (f : ListenerRef) (s : Store) : Res unit :=
  subscribeAtom 8 a f s.

(** [pick] read and subscribed while [flag] is 0, so that the mount table
    records [pick] as a dependent of [flag] and [left]; then the state of
    [flag] replaced by 1, as the setter does before it recomputes. *)
Definition pickMounted : Store := after (sub pick 7 (after (get pick createStore))).
Definition pickFlagged : Store := (setAtomValue flag (VNum 1) None pickMounted).2.

(** [double] subscribed before its first read, then read, then [count]
    written: the cached state of [double] is still the one computed from 0. *)
Definition doubleStale : Store :=
  after (set count (VNum 5)
           (after (get double (after (sub double 7 createStore))))).

(** [count] read once, then subscribed by listener 7. *)
Definition countWatched : Store := after (sub count 7 (after (get count createStore))).

(** [double] read once: its cached state is the one for the current [count]. *)
Definition doubleFresh : Store := after (get double createStore).

(** The state object a call returned. *)
Definition after' (r : Res AtomState) : option AtomState * Store :=
  match r with
  | Ok st s => (Some st, s)
  | Throw _ s => (None, s)
  | OutOfFuel => (None, createStore)
  end.

(** [count] read once, then subscribed by listener 20, which reads [flag]. *)
Definition countWatchedBy20 : Store :=
  after (sub count 20 (after (get count createStore))).

(** The scenario "subscribe to [double], then [set(count, n)]", on a new
    store and after a first [get(double)]. *)
Definition subscribedThenSet (n : Z) : Store :=
  after (set count (VNum n) (after (sub double 7 createStore))).
Definition readSubscribedThenSet (n : Z) : Store :=
  after (set count (VNum n)
           (after (sub double 7 (after (get double createStore))))).

(** [double] read, subscribed, and unsubscribed again. *)
Definition doubleUnsubscribed : Store :=
  unsubscribe double (after (sub double 7 (after (get double createStore)))).

(** [double] subscribed on a new store, then read. *)
Definition doubleSubscribedThenRead : Store :=
  after (get double (after (sub double 7 createStore))).

(** The application of [count] and [double] alone, with the rank of each
    cell in its dependency graph, and the store after [get(double)] and
    [sub(double, 7)]. *)
Definition counterAtoms (a : AtomRef) : AtomConfig :=
  match a with
  | 1 => atom fns 1 (inr doubleRead) None
  | _ => atom fns a (inl (VNum 0)) None
  end.

Definition counterRank (a : AtomRef) : nat :=
  match a with 1 => 1 | _ => 0 end.

Definition counterMounted : Store :=
  after (subscribeAtom 8 double 7 (after (readAtom counterAtoms 8 double createStore))).

(** How often listener [f] of atom [a] ran. *)
Definition fired (a : AtomRef) (f : ListenerRef) (s : Store) : nat :=
  length (filter (fun e => e = EvListener a f) (trace s)).

End App.

(** * Further runs

    Stores and atoms for the concrete runs of the further properties. *)
Module Cases.

(** [double] read, then an unrelated [set] that flushes the pending map:
    nothing is mounted, nothing is pending, [double] is cached as 0. *)
Definition doubleSettled : Store :=
  App.after (App.set App.other (VNum 1) App.doubleFresh).

(** [double] read and subscribed by listener 7. *)
Definition doubleWatched : Store :=
  App.after (App.sub App.double 7 (App.after (App.get App.double createStore))).

(** [count] subscribed by listeners 7 and 8, [double] read. *)
Definition countShared : Store :=
  App.after (App.get App.double
    (App.after (App.sub App.count 8 App.countWatched))).

Definition source : AtomRef := 0.
Definition broken : AtomRef := 1.
Definition fragile : AtomRef := 2.
Definition ping : AtomRef := 3.
Definition pong : AtomRef := 4.

(** [atom((get) => get(source) === 1 ? get(broken) : get(source))] *)
Definition fragileRead : Read :=
  RGet source (fun x =>
    if Object_is x (VNum 1) then RGet broken RRet else RGet source RRet).

(** [broken] reads itself and has no initial value; [ping] and [pong] read
    each other. *)
Definition atoms (a : AtomRef) : AtomConfig :=
  match a with
  | 1 => atom App.fns 1 (inr (RGet 1 RRet)) None
  | 2 => atom App.fns 2 (inr fragileRead) None
  | 3 => atom App.fns 3 (inr (RGet 4 RRet)) None
  | 4 => atom App.fns 4 (inr (RGet 3 RRet)) None
  | _ => atom App.fns a (inl (VNum 0)) None
  end.

(** [echo] with a derived cell that reads it:
    [mirror = atom((get) => get(echo))]. *)
Definition mirror : AtomRef := 10.

Definition echoAtoms (a : AtomRef) : AtomConfig :=
  match a with
  | 10 => atom App.fns 10 (inr (RGet App.echo RRet)) None
  | _ => App.atoms a
  end.

(** [mirror] read and subscribed: [echo] is mounted with [mirror] as its
    dependent. *)
Definition echoMounted : Store :=
  App.after (subscribeAtom 8 mirror 7
               (App.after (readAtom echoAtoms 8 mirror createStore))).

(** [count], [double] and [sum = atom((get) => get(double) + get(count))],
    with the rank of each cell in the dependency graph. *)
Definition sum : AtomRef := 2.

Definition plus (x y : Value) : Value :=
  match x, y with
  | VNum a, VNum b => VNum (a + b)
  | _, _ => VUndefined
  end.

Definition sumRead : Read :=
  RGet App.double (fun x => RGet App.count (fun y => RRet (plus x y))).

Definition sumAtoms (a : AtomRef) : AtomConfig :=
  match a with
  | 1 => atom App.fns 1 (inr App.doubleRead) None
  | 2 => atom App.fns 2 (inr sumRead) None
  | _ => atom App.fns a (inl (VNum 0)) None
  end.

Definition sumRank (a : AtomRef) : nat :=
  match a with 1 => 1 | 2 => 2 | _ => 0 end.

(** [sum] read and subscribed: [count] is mounted with the dependents
    [double] and [sum], [double] with the dependent [sum]. *)
Definition sumMounted : Store :=
  App.after (subscribeAtom 8 sum 7 (App.after (readAtom sumAtoms 8 sum createStore))).

(** [double] subscribed and unsubscribed again after that: [double] has no
    mount record any more and is no dependent of [count]; then
    [set(count, 5)]. *)
Definition sumStale : Store :=
  unsubscribe App.double (App.after (subscribeAtom 8 App.double 8 sumMounted)).

Definition sumStaleWritten : Store :=
  App.after (writeAtomState sumAtoms 8 App.count [VNum 5] sumStale).

(** [fragile] read and subscribed while [source] is 0. *)
Definition fragileWatched : Store :=
  App.after (subscribeAtom 8 fragile 7
               (App.after (readAtom atoms 8 fragile createStore))).

End Cases.

(** * Vocabulary of the properties *)

(** The store in which a call ended, when it ended (returned or threw). *)
Definition final {A} (r : Res A) : option Store :=
  match r with
  | Ok _ s => Some s
  | Throw _ s => Some s
  | OutOfFuel => None
  end.

(** [s'] differs from [s] in the mount table at most. *)
Definition sameButMount (s s' : Store) : Prop :=
  atomStateMap s' = atomStateMap s /\
  pendingMap s' = pendingMap s /\
  trace s' = trace s.

(** What a plain (not forced) read that started in [s0] leaves behind: the
    mount table is the same, the cells cached in [s0] keep their state
    object, the read functions run belong to cells with no state in [s0],
    [pendingMap] grew at its end by such cells, and every cell whose state
    differs from the one in [s0] is pending. *)
Definition readFrame (s0 s : Store) : Prop :=
  mountedMap s = mountedMap s0 /\
  (forall b, is_Some (getAtomState b s0) -> getAtomState b s = getAtomState b s0) /\
  (exists evs, trace s = trace s0 ++ evs /\
     Forall (fun e => exists b, e = EvRead b /\ getAtomState b s0 = None) evs) /\
  (exists extra, pendingMap s = pendingMap s0 ++ extra /\
     Forall (fun e => getAtomState e.1 s0 = None) extra) /\
  (forall b, getAtomState b s <> getAtomState b s0 -> b ∈ map_keys (pendingMap s)).

(** The read function [body] can call the getter on [atom]. *)
Inductive selfReads (atom : AtomRef) : Read -> Prop :=
| selfReads_here k : selfReads atom (RGet atom k)
| selfReads_later a k x : selfReads atom (k x) -> selfReads atom (RGet a k).

(** In store [s] the read function of some cell [X] has been started, it can
    read [X] itself, and [X] has neither a cached state nor an [init]. *)
Definition selfReadWithoutValue (atoms : AtomRef -> AtomConfig) (s : Store) : Prop :=
  exists X,
    selfReads X (read (atoms X)) /\
    getAtomState X s = None /\
    init (atoms X) = None /\
    EvRead X ∈ trace s.

(** The errors of the write path: a missing [write], or the one of a read. *)
Definition writeError (atoms : AtomRef -> AtomConfig) (e : Error) (s' : Store)
    : Prop :=
  e = NotWritable \/ (e = NoAtomInit /\ selfReadWithoutValue atoms s').

(** The trace of [s] extends [T]. *)
Definition traceFrom (T : list Event) (s : Store) : Prop :=
  exists evs, trace s = T ++ evs.

(** The state object of the primitive cell [W] survives every recomputation
    of other cells, and the forced recomputation of [W] itself. *)
Definition keepsState (W : AtomRef) (M : gmap AtomRef Mounted) (st : AtomState)
    (s : Store) : Prop :=
  mountedMap s = M /\ getAtomState W s = Some st.

(** What [pendingMap] records during a write, relative to the store [s0] in
    which the write started: entries of [s0] stay in place, a new entry is
    for a cell that was not pending in [s0] and holds the state that cell had
    in [s0], and a cell that is not pending still has the state it had in [s0]. *)
Definition recordsFrom (s0 s : Store) : Prop :=
  (exists extra,
     pendingMap s = pendingMap s0 ++ extra /\
     Forall (fun e => (e.1 ∉ map_keys (pendingMap s0)) /\ e.2 = getAtomState e.1 s0)
       extra) /\
  (forall a, a ∉ map_keys (pendingMap s) -> getAtomState a s = getAtomState a s0).

(** The listener events of one round over [pending], for listeners that do
    not call the store. *)
Definition notifications (s : Store) (pending : list (AtomRef * option AtomState))
    : list Event :=
  flat_map (fun entry =>
              if shouldNotify entry.2 (mountedMap s !! entry.1) (getAtomState entry.1 s)
              then EvListener entry.1 <$> from_option l [] (mountedMap s !! entry.1)
              else [])
    pending.

(** [s] with [evs] appended to its trace. *)
Definition withTrace (s : Store) (evs : list Event) : Store :=
  mkStore (atomStateMap s) (mountedMap s) (pendingMap s) (trace s ++ evs).

(** Every mounted cell's recorded dependencies are mounted. *)
Definition depClosed (s : Store) : Prop :=
  forall a st b,
    is_Some (mountedMap s !! a) -> getAtomState a s = Some st ->
    b ∈ map_keys (d st) -> is_Some (mountedMap s !! b).

(** Mount records present in [s] are still there in [s'], with the same
    listeners and at least the same dependents. *)
Definition mountGrows (s s' : Store) : Prop :=
  forall b m, mountedMap s !! b = Some m ->
    exists m', mountedMap s' !! b = Some m' /\ l m' = l m /\ t m ⊆ t m'.

(** The dependencies recorded in the cached state of [atom]. *)
Definition recordedDeps (atom : AtomRef) (s : Store) : list AtomRef :=
  from_option (fun st => map_keys (d st)) [] (getAtomState atom s).

(** The cells a read function may call the getter on. *)
Inductive mayRead : Read -> AtomRef -> Prop :=
| mayRead_here a k : mayRead (RGet a k) a
| mayRead_later a k x b : mayRead (k x) b -> mayRead (RGet a k) b.

(** The value a read function returns when every [get] answers with the
    value cached in [states]. *)
Fixpoint evalCached (states : gmap AtomRef AtomState) (body : Read)
    : option Value :=
  match body with
  | RRet value => Some value
  | RGet a k =>
      match states !! a with
      | Some st => evalCached states (k (v st))
      | None => None
      end
  end.

(** The cached value of [X] is what its read function returns on the values
    now cached: [X] is up to date. *)
Definition upToDate (atoms : AtomRef -> AtomConfig) (s : Store) (X : AtomRef) : Prop :=
  exists st,
    getAtomState X s = Some st /\
    evalCached (atomStateMap s) (read (atoms X)) = Some (v st).

(** [b] can be reached from [a] through the dependents sets of the mount
    table [M]. *)
Inductive reach (M : gmap AtomRef Mounted) : AtomRef -> AtomRef -> Prop :=
| reach_one a m b : M !! a = Some m -> b ∈ t m -> reach M a b
| reach_more a m c b : M !! a = Some m -> c ∈ t m -> reach M c b -> reach M a b.

(** [b] is [a], or a cell that the read function of [a] may call the getter
    on, directly or through the read functions of the cells it reads: a
    [get] of [a] asks for the value of [b]. *)
Inductive readsThrough (atoms : AtomRef -> AtomConfig) : AtomRef -> AtomRef -> Prop :=
| readsThrough_self a : readsThrough atoms a a
| readsThrough_step a c b :
    mayRead (read (atoms a)) c -> readsThrough atoms c b -> readsThrough atoms a b.

(** The cells a write function may call the getter on. *)
Inductive mayGet : Write -> AtomRef -> Prop :=
| mayGet_here a k : mayGet (WGet a k) a
| mayGet_after_get a k x b : mayGet (k x) b -> mayGet (WGet a k) b
| mayGet_after_set a args k x b : mayGet (k x) b -> mayGet (WSet a args k) b.

(** The cells a write function may call the setter on. *)
Inductive maySet : Write -> AtomRef -> Prop :=
| maySet_here a args k : maySet (WSet a args k) a
| maySet_after_get a k x b : maySet (k x) b -> maySet (WGet a k) b
| maySet_after_set a args k x b : maySet (k x) b -> maySet (WSet a args k) b.

(** The cells whose write function a [set(W, ...)] may call: [W], the cells
    a called write function may call the setter on, and the cells a listener
    registered in the mount table [M] may call [store.set] on. *)
Inductive mayWrite (atoms : AtomRef -> AtomConfig) (listeners : ListenerRef -> list Call)
    (M : gmap AtomRef Mounted) (W : AtomRef) : AtomRef -> Prop :=
| mayWrite_top : mayWrite atoms listeners M W W
| mayWrite_nested a w args b :
    mayWrite atoms listeners M W a -> write (atoms a) = Some w ->
    maySet (w args) b -> mayWrite atoms listeners M W b
| mayWrite_listener a m f b args :
    M !! a = Some m -> f ∈ l m -> CallSet b args ∈ listeners f ->
    mayWrite atoms listeners M W b.

(** The cells whose value a [set(W, ...)] asks for: the cells a called write
    function may call the getter on, the cells that the dependents sets make
    reachable from a cell whose write function may call the setter on its
    own cell (they are recomputed), the cells a registered listener may call
    [store.get] on, and the cells the read function of such a cell may read. *)
Inductive mayRun (atoms : AtomRef -> AtomConfig) (listeners : ListenerRef -> list Call)
    (M : gmap AtomRef Mounted) (W : AtomRef) : AtomRef -> Prop :=
| mayRun_get a w args b :
    mayWrite atoms listeners M W a -> write (atoms a) = Some w ->
    mayGet (w args) b -> mayRun atoms listeners M W b
| mayRun_dependent a w args b :
    mayWrite atoms listeners M W a -> write (atoms a) = Some w ->
    maySet (w args) a -> reach M a b -> mayRun atoms listeners M W b
| mayRun_listener a m f b :
    M !! a = Some m -> f ∈ l m -> CallGet b ∈ listeners f ->
    mayRun atoms listeners M W b
| mayRun_read a b :
    mayRun atoms listeners M W a -> mayRead (read (atoms a)) b ->
    mayRun atoms listeners M W b.

(** Since the trace was [T], the read functions run are those of cells in [P]. *)
Definition runsOnly (P : AtomRef -> Prop) (T : list Event) (s : Store) : Prop :=
  exists evs, trace s = T ++ evs /\ forall b, EvRead b ∈ evs -> P b.

(** The same, on the mount table [M]. *)
Definition runsOnlyOn (M : gmap AtomRef Mounted) (P : AtomRef -> Prop)
    (T : list Event) (s : Store) : Prop :=
  mountedMap s = M /\ runsOnly P T s.

(** [x] is a value of the cell [a] that accounts for the value the written
    cell [W] holds in [s]: the cached value of [a] when [a] is [W] or does
    not read through to [W]; else (and for any cell but [W]) what the read
    function of [a] returns when every cell it reads answers with such a
    value. *)
Inductive postWrite (atoms : AtomRef -> AtomConfig) (W : AtomRef) (s : Store)
    : AtomRef -> Value -> Prop :=
| postWrite_cached a st :
    a = W \/ ~ readsThrough atoms a W ->
    getAtomState a s = Some st -> postWrite atoms W s a (v st)
| postWrite_computed a x :
    a <> W -> postWriteRead atoms W s (read (atoms a)) x -> postWrite atoms W s a x
with postWriteRead (atoms : AtomRef -> AtomConfig) (W : AtomRef) (s : Store)
    : Read -> Value -> Prop :=
| postWriteRead_ret x : postWriteRead atoms W s (RRet x) x
| postWriteRead_get a k x y :
    postWrite atoms W s a x -> postWriteRead atoms W s (k x) y ->
    postWriteRead atoms W s (RGet a k) y.

(** Cells cached in [s] hold the same state object in [s']. *)
Definition cachedStable (s s' : Store) : Prop :=
  forall b st, getAtomState b s = Some st -> getAtomState b s' = Some st.

(** Every [get] of the read function is on a cell of rank below [r]. *)
Inductive readsBelow (rank : AtomRef -> nat) (r : nat) : Read -> Prop :=
| readsBelow_ret value : readsBelow rank r (RRet value)
| readsBelow_get a k :
    rank a < r -> (forall x, readsBelow rank r (k x)) -> readsBelow rank r (RGet a k).

(** A cell is either primitive (it reads itself and has an [init]) or reads
    cells of lower rank only: the dependency graph has no cycle. *)
Definition wellRanked (atoms : AtomRef -> AtomConfig) (rank : AtomRef -> nat)
    (X : AtomRef) : Prop :=
  (read (atoms X) = RGet X RRet /\ is_Some (init (atoms X))) \/
  readsBelow rank (rank X) (read (atoms X)).

(** The mount table of [s] is [M]. *)
Definition mountTableIs (M : gmap AtomRef Mounted) (s : Store) : Prop :=
  mountedMap s = M.

(** Since the trace was [T], the mount table is [M] and every listener
    called is one [M] registers for the atom it was called for. *)
Definition callsRegistered (M : gmap AtomRef Mounted) (T : list Event) (s : Store)
    : Prop :=
  mountedMap s = M /\
  exists evs, trace s = T ++ evs /\
    forall a f, EvListener a f ∈ evs -> exists m, M !! a = Some m /\ f ∈ l m.

(** Since the trace was [T] no listener was called. *)
Definition noListenerSince (T : list Event) (s : Store) : Prop :=
  exists evs, trace s = T ++ evs /\ forall a f, EvListener a f ∉ evs.

(** [s'] differs from [s] in the state of [W], in pending entries for
    [W], and in the trace, by runs of the read function of [W] and entries
    into [recomputeDependents(W)]. *)
Definition touchesOnly (W : AtomRef) (s s' : Store) : Prop :=
  (forall b, b <> W -> getAtomState b s' = getAtomState b s) /\
  mountedMap s' = mountedMap s /\
  (exists extra, pendingMap s' = pendingMap s ++ extra /\
     forall e, e ∈ extra -> e.1 = W) /\
  (exists evs, trace s' = trace s ++ evs /\
     forall e, e ∈ evs -> e = EvRead W \/ e = EvRecompute W).

(** The value of [cur] differs from the one of the recorded state [prev];
    no recorded state counts as a difference. *)
Definition changedFrom (prev : option AtomState) (cur : AtomState) : Prop :=
  forall p, prev = Some p -> v p <> v cur.

(** What listener calls that only read the store leave behind: the mount
    table, every cached state object, and what [pendingMap] records relative
    to any earlier store. *)
Definition quiet (s s' : Store) : Prop :=
  mountedMap s' = mountedMap s /\
  cachedStable s s' /\
  (forall s0, recordsFrom s0 s -> recordsFrom s0 s').

(** Every listener body consists of [store.get] calls. *)
Definition getOnly (listeners : ListenerRef -> list Call) : Prop :=
  forall f c, c ∈ listeners f -> exists a, c = CallGet a.

(** Every atom of [pendingMap] has a cached state. *)
Definition pendingCached (s : Store) : Prop :=
  forall a, a ∈ map_keys (pendingMap s) -> is_Some (getAtomState a s).

(** The listener calls among the events, in order. *)
Definition listenerCalls (evs : list Event) : list (AtomRef * ListenerRef) :=
  flat_map (fun e => match e with EvListener a f => [(a, f)] | _ => [] end) evs.

(** Every listener set of the mount table holds each listener once. *)
Definition listenersOnce (s : Store) : Prop :=
  forall a m, mountedMap s !! a = Some m -> NoDup (l m).

(** The JS [Map] and [Set]s of the store hold each key once, and every
    pending atom has a state. *)
Definition wellFormed (s : Store) : Prop :=
  pendingCached s /\
  NoDup (map_keys (pendingMap s)) /\
  (forall a m, mountedMap s !! a = Some m -> NoDup (l m)).

(** [time] orders the mount records: a dependent that is mounted is later
    than the atom whose record lists it. *)
Definition ordered (M : gmap AtomRef Mounted) (time : AtomRef -> nat) : Prop :=
  forall a m b, M !! a = Some m -> b ∈ t m -> is_Some (M !! b) -> time a < time b.

(** The dependents sets of the mounted atoms have no cycle. *)
Definition acyclicMount (s : Store) : Prop :=
  exists time, ordered (mountedMap s) time.

(** The dependencies recorded in the cached states have no cycle. *)
Definition rankedDeps (rank : AtomRef -> nat) (s : Store) : Prop :=
  forall a b, b ∈ recordedDeps a s -> b <> a -> rank b < rank a.

(** The atoms a read function calls the getter on, in order, when every
    [get] answers with the value cached in [states]. *)
Fixpoint readsCached (states : gmap AtomRef AtomState) (body : Read)
    : list AtomRef :=
  match body with
  | RRet _ => []
  | RGet a k =>
      a :: match states !! a with
           | Some st => readsCached states (k (v st))
           | None => []
           end
  end.

(** * Reasoning about runs *)

Lemma final_bind {A B} (m : Res A) (f : A -> Store -> Res B) s' :
  final (bind m f) = Some s' ->
  (exists a s1, m = Ok a s1 /\ final (f a s1) = Some s') \/
  (exists e, m = Throw e s').
Proof.
  destruct m as [a s1|e s1|]; simpl; intros H.
  - left; eauto.
  - right; exists e; congruence.
  - discriminate.
Qed.

Lemma bind_Ok {A B} (m : Res A) (f : A -> Store -> Res B) b s' :
  bind m f = Ok b s' -> exists a s1, m = Ok a s1 /\ f a s1 = Ok b s'.
Proof. destruct m; simpl; intros; try discriminate; eauto. Qed.

Lemma bind_Throw {A B} (m : Res A) (f : A -> Store -> Res B) e s' :
  bind m f = Throw e s' ->
  m = Throw e s' \/ exists a s1, m = Ok a s1 /\ f a s1 = Throw e s'.
Proof.
  destruct m; simpl; intros; try discriminate; eauto.
  left; congruence.
Qed.

Lemma forEach_final {A} (I : Store -> Prop) (f : A -> Store -> Res unit) xs :
  (forall x s s', x ∈ xs -> I s -> final (f x s) = Some s' -> I s') ->
  forall s s', I s -> final (forEach f xs s) = Some s' -> I s'.
Proof.
  induction xs as [|x xs IH]; simpl; intros Hf s s' Hs Hfin.
  - congruence.
  - apply final_bind in Hfin as [(u & s1 & Hx & Hrest)|(e & Hx)].
    + apply (IH (fun y s0 s2 Hy => Hf y s0 s2 (list_elem_of_further _ _ _ Hy)) s1 s');
        [|exact Hrest].
      apply (Hf x s s1); [left|exact Hs|now rewrite Hx].
    + apply (Hf x s s'); [left|exact Hs|now rewrite Hx].
Qed.

Lemma forEach_Ok_inv {A} (I : Store -> Prop) (f : A -> Store -> Res unit) xs :
  (forall x s s', x ∈ xs -> I s -> f x s = Ok tt s' -> I s') ->
  forall s s', I s -> forEach f xs s = Ok tt s' -> I s'.
Proof.
  induction xs as [|x xs IH]; simpl; intros Hf s s' Hs Hrun.
  - congruence.
  - apply bind_Ok in Hrun as ([] & s1 & Hx & Hrest).
    apply (IH (fun y s0 s2 Hy => Hf y s0 s2 (list_elem_of_further _ _ _ Hy)) s1 s');
      [|exact Hrest].
    apply (Hf x s s1); [left|exact Hs|exact Hx].
Qed.

(** ** Invariants of the read path

    [I] is kept by every step of the store ([log], [setAtomValue] on an atom
    in [U]); atoms outside [U] are cached wherever [I] holds, so that their
    read function is never run by a plain read. *)
Section ReadInvariant.

Variable atoms : AtomRef -> AtomConfig.
Variable I : Store -> Prop.
Variable U : AtomRef -> Prop.

Hypothesis I_log : forall a s, U a -> I s -> I (log (EvRead a) s).
Hypothesis I_set : forall a value deps s,
  U a -> I s -> I (setAtomValue a value deps s).2.
Hypothesis I_uncached : forall a s, I s -> getAtomState a s = None -> U a.

(** A run of a read function that returns ends in [setAtomValue], in a
    store reached by the getter's nested reads only. *)
Lemma evalRead_pre rec atom :
  (forall a s s', I s -> final (rec a s) = Some s' -> I s') ->
  forall body deps s,
    I s ->
    match evalRead atoms rec atom body deps s with
    | Ok st s' =>
        exists value deps' s1,
          I s1 /\ setAtomValue atom value (Some deps') s1 = (st, s')
    | Throw _ s' => I s'
    | OutOfFuel => True
    end.
Proof.
  intros Hrec. induction body as [value|a k IH]; simpl; intros deps s Hs.
  - destruct (setAtomValue atom value (Some deps) s) as [st s1] eqn:E.
    exists value, deps, s. now split.
  - destruct (decide (a = atom)) as [->|Hne].
    + destruct (getAtomState atom s) as [aState|]; [now apply IH|].
      destruct (init (atoms atom)) as [i|]; [now apply IH|exact Hs].
    + destruct (rec a s) as [aState s1|e s1|] eqn:Hr; simpl; [|..|exact Logic.I].
      * apply IH. apply (Hrec a s s1 Hs). now rewrite Hr.
      * apply (Hrec a s s1 Hs). now rewrite Hr.
Qed.

Lemma evalRead_inv rec atom :
  (forall a s s', I s -> final (rec a s) = Some s' -> I s') ->
  U atom ->
  forall body deps s s',
    I s -> final (evalRead atoms rec atom body deps s) = Some s' -> I s'.
Proof.
  intros Hrec HU body deps s s' Hs Hfin.
  pose proof (evalRead_pre rec atom Hrec body deps s Hs) as Hpre.
  destruct (evalRead atoms rec atom body deps s) as [st s2|e s2|];
    simpl in Hfin; [| |discriminate]; injection Hfin as ->.
  - destruct Hpre as (value & deps' & s1 & Hs1 & Hset).
    pose proof (I_set atom value (Some deps') s1 HU Hs1) as H.
    now rewrite Hset in H.
  - exact Hpre.
Qed.

Lemma readAtomState_inv fuel : forall atom force s s',
  I s -> (force = true -> U atom) ->
  final (readAtomState atoms fuel atom force s) = Some s' -> I s'.
Proof.
  induction fuel as [|fuel IH]; simpl; intros atom force s s' Hs HU Hfin;
    [discriminate|].
  assert (Hrun : U atom ->
    final (evalRead atoms (fun a => readAtomState atoms fuel a false) atom
             (read (atoms atom)) [] (log (EvRead atom) s)) = Some s' -> I s').
  { intros HU' Hev.
    eapply evalRead_inv; [|exact HU'|apply I_log; [exact HU'|exact Hs]|exact Hev].
    intros a s0 s1 Hs0 Hr. eapply IH; [exact Hs0| |exact Hr]. discriminate. }
  destruct (getAtomState atom s) as [atomState|] eqn:Hget.
  - destruct force; [apply Hrun; auto|simpl in Hfin; congruence].
  - apply Hrun; [|exact Hfin]. eapply I_uncached; eauto.
Qed.

Lemma readAtom_inv fuel atom s s' :
  I s -> final (readAtom atoms fuel atom s) = Some s' -> I s'.
Proof.
  unfold readAtom. intros Hs Hfin.
  apply final_bind in Hfin as [(st & s1 & Hr & Hrest)|(e & Hr)].
  - assert (s1 = s') as -> by (cbv in Hrest; congruence).
    eapply (readAtomState_inv fuel atom false); [exact Hs|discriminate|now rewrite Hr].
  - eapply (readAtomState_inv fuel atom false); [exact Hs|discriminate|now rewrite Hr].
Qed.

End ReadInvariant.

(** ** Invariants of dependent recomputation

    [I] is kept by [recomputeDependents(atom)] when it is kept by the forced
    reads of the cells [P] that the mount table makes reachable from [atom]. *)
Section RecomputeInvariant.

Variable atoms : AtomRef -> AtomConfig.
Variable I : Store -> Prop.
Variable P : AtomRef -> Prop.

Hypothesis I_log : forall a s, I s -> I (log (EvRecompute a) s).
Hypothesis P_step : forall a b m s,
  I s -> P a -> mountedMap s !! a = Some m -> b ∈ t m -> P b.
Hypothesis I_forced : forall fuel a b s s',
  I s -> P a -> P b -> b <> a ->
  final (readAtomState atoms fuel b true s) = Some s' -> I s'.
Hypothesis I_mounted : forall s s', I s -> I s' -> mountedMap s' = mountedMap s.

Lemma recomputeDependents_inv_gen fuel : forall atom s s',
  I s -> P atom -> final (recomputeDependents atoms fuel atom s) = Some s' -> I s'.
Proof.
  induction fuel as [|fuel IH]; simpl; intros atom s s' Hs HP Hfin; [discriminate|].
  assert (Hs0 : I (log (EvRecompute atom) s)) by now apply I_log.
  destruct (mountedMap s !! atom) as [m|] eqn:Hm; [|simpl in Hfin; congruence].
  revert Hfin. apply forEach_final; [|exact Hs0].
  intros dependent s1 s2 Hin Hs1 Hone.
  assert (HPd : P dependent).
  { apply (P_step atom dependent m s1 Hs1 HP); [|exact Hin].
    rewrite (I_mounted _ _ Hs Hs1). exact Hm. }
  unfold recomputeOne in Hone.
  apply final_bind in Hone as [([] & s3 & Hrd & Hrec)|(e & Hrd)].
  - eapply IH; [|exact HPd|exact Hrec].
    destruct (decide (dependent = atom)); [congruence|].
    apply bind_Ok in Hrd as (st & s4 & Hr & Hok).
    assert (s4 = s3) as -> by congruence.
    eapply (I_forced fuel atom dependent); eauto. now rewrite Hr.
  - destruct (decide (dependent = atom)); [discriminate|].
    apply bind_Throw in Hrd as [Hr|(st & s4 & _ & Hok)]; [|discriminate].
    eapply (I_forced fuel atom dependent); eauto. now rewrite Hr.
Qed.

End RecomputeInvariant.

(** ** Invariants of the write path: [I] is kept by every step. *)
Section WriteInvariant.

Variable atoms : AtomRef -> AtomConfig.
Variable listeners : ListenerRef -> list Call.
Variable I : Store -> Prop.

Hypothesis I_log : forall e s, I s -> I (log e s).
Hypothesis I_set : forall a value deps s, I s -> I (setAtomValue a value deps s).2.

Lemma readAtomState_inv' fuel atom force s s' :
  I s -> final (readAtomState atoms fuel atom force s) = Some s' -> I s'.
Proof.
  intros Hs Hfin.
  eapply (readAtomState_inv atoms I (fun _ => True)); eauto.
Qed.

Lemma recomputeDependents_inv fuel : forall atom s s',
  I s -> final (recomputeDependents atoms fuel atom s) = Some s' -> I s'.
Proof.
  induction fuel as [|fuel IH]; simpl; intros atom s s' Hs Hfin; [discriminate|].
  revert Hfin. apply forEach_final; [|apply I_log, Hs].
  intros dependent s0 s1 _ Hs0 Hone. unfold recomputeOne in Hone.
  apply final_bind in Hone as [([] & s2 & Hrd & Hrec)|(e & Hrd)].
  - eapply IH; [|exact Hrec].
    destruct (decide (dependent = atom)); [congruence|].
    apply bind_Ok in Hrd as (st & s3 & Hr & Hok).
    assert (s3 = s2) as -> by congruence.
    eapply readAtomState_inv'; [exact Hs0|now rewrite Hr].
  - destruct (decide (dependent = atom)); [discriminate|].
    apply bind_Throw in Hrd as [Hr|(st & s3 & _ & Hok)]; [|discriminate].
    eapply readAtomState_inv'; [exact Hs0|now rewrite Hr].
Qed.

Lemma setSelf_inv fuel a args s s' :
  I s -> final (setSelf atoms fuel a args s) = Some s' -> I s'.
Proof.
  unfold setSelf. intros Hs.
  pose proof (I_set a (arg0 args) None s Hs) as Hset.
  destruct (setAtomValue a (arg0 args) None s) as [next s1]; simpl in Hset.
  destruct (getAtomState a s) as [prev|].
  - destruct (isEqualAtomValue prev next); simpl.
    + congruence.
    + now apply recomputeDependents_inv.
  - now apply recomputeDependents_inv.
Qed.

Lemma evalWrite_inv fuel rec atom :
  (forall a args s s', I s -> final (rec a args s) = Some s' -> I s') ->
  forall body s s',
    I s -> final (evalWrite atoms fuel rec atom body s) = Some s' -> I s'.
Proof.
  intros Hrec. induction body as [result|a k IH|a args k IH]; simpl;
    intros s s' Hs Hfin.
  - congruence.
  - apply final_bind in Hfin as [(st & s1 & Hr & Hrest)|(e & Hr)].
    + eapply IH; [|exact Hrest]. eapply readAtomState_inv'; [exact Hs|now rewrite Hr].
    + eapply readAtomState_inv'; [exact Hs|now rewrite Hr].
  - destruct (decide (a = atom)) as [->|Hne].
    + apply final_bind in Hfin as [([] & s1 & Hr & Hrest)|(e & Hr)].
      * eapply IH; [|exact Hrest]. eapply setSelf_inv; [exact Hs|now rewrite Hr].
      * eapply setSelf_inv; [exact Hs|now rewrite Hr].
    + apply final_bind in Hfin as [(r & s1 & Hr & Hrest)|(e & Hr)].
      * eapply IH; [|exact Hrest]. eapply Hrec; [exact Hs|now rewrite Hr].
      * eapply Hrec; [exact Hs|now rewrite Hr].
Qed.

Lemma writeAtomState_inv fuel : forall atom args s s',
  I s -> final (writeAtomState atoms fuel atom args s) = Some s' -> I s'.
Proof.
  induction fuel as [|fuel IH]; simpl; intros atom args s s' Hs Hfin;
    [discriminate|].
  destruct (write (atoms atom)) as [w|]; [|simpl in Hfin; congruence].
  eapply evalWrite_inv; [|exact Hs|exact Hfin]. intros; eapply IH; eauto.
Qed.

Hypothesis I_clear : forall s, I s -> I (clearPending s).

Lemma runListener_inv fuel set atom f :
  (forall a args s s', I s -> final (set a args s) = Some s' -> I s') ->
  forall s s', I s ->
    final (runListener atoms listeners fuel set atom f s) = Some s' -> I s'.
Proof.
  intros Hset s s' Hs. unfold runListener.
  apply forEach_final; [|apply I_log, Hs].
  intros [a|a args] s0 s1 _ Hs0 Hc.
  - apply final_bind in Hc as [(st & s2 & Hr & Hrest)|(e & Hr)].
    + assert (s2 = s1) as -> by (simpl in Hrest; congruence).
      eapply readAtomState_inv'; [exact Hs0|now rewrite Hr].
    + eapply readAtomState_inv'; [exact Hs0|now rewrite Hr].
  - apply final_bind in Hc as [(st & s2 & Hr & Hrest)|(e & Hr)].
    + assert (s2 = s1) as -> by (simpl in Hrest; congruence).
      eapply Hset; [exact Hs0|now rewrite Hr].
    + eapply Hset; [exact Hs0|now rewrite Hr].
Qed.

Lemma flushEntry_inv run entry :
  (forall atom f s s', I s -> final (run atom f s) = Some s' -> I s') ->
  forall s s', I s -> final (flushEntry run entry s) = Some s' -> I s'.
Proof.
  intros Hrun s s' Hs. unfold flushEntry.
  destruct (shouldNotify _ _ _); [|simpl; congruence].
  apply forEach_final; [|exact Hs]. intros f s0 s1 _. apply Hrun.
Qed.

Lemma writeThenFlush_inv fuel flush atom args s s' :
  (forall s s', I s -> final (flush s) = Some s' -> I s') ->
  I s -> final (writeThenFlush atoms fuel flush atom args s) = Some s' -> I s'.
Proof.
  unfold writeThenFlush. intros Hflush Hs Hfin.
  apply final_bind in Hfin as [(r & s1 & Hr & Hrest)|(e & Hr)].
  - assert (I s1) as Hs1 by (eapply writeAtomState_inv; [exact Hs|now rewrite Hr]).
    apply final_bind in Hrest as [([] & s2 & Hf & Hok)|(e & Hf)].
    + assert (s2 = s') as -> by (simpl in Hok; congruence).
      eapply Hflush; [exact Hs1|now rewrite Hf].
    + eapply Hflush; [exact Hs1|now rewrite Hf].
  - eapply writeAtomState_inv; [exact Hs|now rewrite Hr].
Qed.

Lemma flushRound_inv fuel flush pending s s' :
  (forall s s', I s -> final (flush s) = Some s' -> I s') ->
  I s -> final (flushRound atoms listeners fuel flush pending s) = Some s' -> I s'.
Proof.
  intros Hflush Hs. unfold flushRound. apply forEach_final; [|exact Hs].
  intros e s2 s3 _. apply flushEntry_inv. intros atom f. apply runListener_inv.
  intros a args s4 s5. now apply writeThenFlush_inv.
Qed.

Lemma flushPending_inv fuel : forall s s',
  I s -> final (flushPending atoms listeners fuel s) = Some s' -> I s'.
Proof.
  induction fuel as [|fuel IH]; intros s s' Hs Hfin; [discriminate|].
  cbn [flushPending] in Hfin.
  destruct (pendingMap s) as [|entry pending] eqn:Hp; [simpl in Hfin; congruence|].
  apply final_bind in Hfin as [([] & s1 & Hr & Hrest)|(e & Hr)].
  - eapply IH; [|exact Hrest].
    eapply flushRound_inv; [exact IH|apply I_clear, Hs|now rewrite Hr].
  - eapply flushRound_inv; [exact IH|apply I_clear, Hs|now rewrite Hr].
Qed.

Lemma writeAtom_inv fuel atom args s s' :
  I s -> final (writeAtom atoms listeners fuel atom args s) = Some s' -> I s'.
Proof. apply writeThenFlush_inv, flushPending_inv. Qed.

End WriteInvariant.

(** ** What the elementary steps touch *)

Lemma setAtomValue_mountedMap a value deps s :
  mountedMap (setAtomValue a value deps s).2 = mountedMap s.
Proof.
  unfold setAtomValue. destruct (getAtomState a s) as [prev|]; [|reflexivity].
  now destruct (isEqualAtomValue _ _).
Qed.

Lemma setAtomValue_trace a value deps s :
  trace (setAtomValue a value deps s).2 = trace s.
Proof.
  unfold setAtomValue. destruct (getAtomState a s) as [prev|]; [|reflexivity].
  now destruct (isEqualAtomValue _ _).
Qed.

Lemma setAtomValue_other a value deps s b :
  b <> a -> getAtomState b (setAtomValue a value deps s).2 = getAtomState b s.
Proof.
  intros Hne. unfold setAtomValue, getAtomState.
  destruct (atomStateMap s !! a) as [prev|]; simpl.
  - destruct (isEqualAtomValue _ _); simpl; [reflexivity|].
    now apply lookup_insert_ne.
  - now apply lookup_insert_ne.
Qed.

(** After [setAtomValue] the state table holds the value; the state object
    returned is the one the table holds. *)
Lemma setAtomValue_installed a value deps s :
  getAtomState a (setAtomValue a value deps s).2 = Some (setAtomValue a value deps s).1 /\
  v (setAtomValue a value deps s).1 = value.
Proof.
  unfold setAtomValue, getAtomState.
  destruct (atomStateMap s !! a) as [prev|] eqn:Hprev; simpl.
  - unfold isEqualAtomValue, Object_is; simpl. case_bool_decide as Heq; simpl.
    + now rewrite Hprev.
    + now rewrite lookup_insert_eq.
  - now rewrite lookup_insert_eq.
Qed.

Lemma setAtomValue_cached a value deps s b :
  is_Some (getAtomState b s) -> is_Some (getAtomState b (setAtomValue a value deps s).2).
Proof.
  intros Hb. destruct (decide (b = a)) as [->|Hne].
  - rewrite (proj1 (setAtomValue_installed a value deps s)). eauto.
  - now rewrite setAtomValue_other.
Qed.

(** [pendingMap] only grows, at the end, by entries for atoms not yet in it. *)
Lemma setAtomValue_pending a value deps s :
  (pendingMap (setAtomValue a value deps s).2 = pendingMap s /\
   (getAtomState a (setAtomValue a value deps s).2 = getAtomState a s \/
    a ∈ map_keys (pendingMap s))) \/
  ((a ∉ map_keys (pendingMap s)) /\
   getAtomState a (setAtomValue a value deps s).2 <> getAtomState a s /\
   pendingMap (setAtomValue a value deps s).2 = pendingMap s ++ [(a, getAtomState a s)]).
Proof.
  assert (Hst : forall next, v next = value ->
    (forall prev, getAtomState a s = Some prev -> v prev <> value) ->
    (pendingMap (setAtomState a next s) = pendingMap s /\
     (getAtomState a (setAtomState a next s) = getAtomState a s \/
      a ∈ map_keys (pendingMap s))) \/
    ((a ∉ map_keys (pendingMap s)) /\
     getAtomState a (setAtomState a next s) <> getAtomState a s /\
     pendingMap (setAtomState a next s) = pendingMap s ++ [(a, getAtomState a s)])).
  { intros next Hv Hprev. unfold setAtomState, map_has; simpl.
    case_bool_decide as Hin; [left; split; [reflexivity|now right]|right].
    split; [exact Hin|]. split; [|reflexivity].
    unfold getAtomState; simpl. rewrite lookup_insert_eq.
    destruct (atomStateMap s !! a) as [prev|] eqn:E; [|discriminate].
    intros [= ->]. now apply (Hprev prev). }
  unfold setAtomValue. destruct (getAtomState a s) as [prev|] eqn:Hprev; simpl.
  - unfold isEqualAtomValue, Object_is; simpl. case_bool_decide as Heq; simpl.
    + left. split; [reflexivity|now left].
    + apply Hst; [reflexivity|]. intros p [= <-]. exact Heq.
  - apply Hst; [reflexivity|]. discriminate.
Qed.

(** * The mount table is not touched by reads and writes *)

Section MountFrame.

Variable atoms : AtomRef -> AtomConfig.
Variable listeners : ListenerRef -> list Call.
Variable M : gmap AtomRef Mounted.

Lemma keeps_log e s : mountTableIs M s -> mountTableIs M (log e s).
Proof. exact id. Qed.

Lemma keeps_set a value deps s : mountTableIs M s -> mountTableIs M (setAtomValue a value deps s).2.
Proof. unfold mountTableIs. now rewrite setAtomValue_mountedMap. Qed.

Lemma keeps_clear s : mountTableIs M s -> mountTableIs M (clearPending s).
Proof. exact id. Qed.

Lemma readAtomState_mountedMap fuel atom force s s' :
  mountedMap s = M ->
  final (readAtomState atoms fuel atom force s) = Some s' -> mountedMap s' = M.
Proof. apply (readAtomState_inv' atoms (mountTableIs M) keeps_log keeps_set). Qed.

Lemma recomputeDependents_mountedMap fuel atom s s' :
  mountedMap s = M ->
  final (recomputeDependents atoms fuel atom s) = Some s' -> mountedMap s' = M.
Proof. apply (recomputeDependents_inv atoms (mountTableIs M) keeps_log keeps_set). Qed.

Lemma writeAtomState_mountedMap fuel atom args s s' :
  mountedMap s = M ->
  final (writeAtomState atoms fuel atom args s) = Some s' -> mountedMap s' = M.
Proof. apply (writeAtomState_inv atoms (mountTableIs M) keeps_log keeps_set). Qed.

Lemma writeAtom_mountedMap fuel atom args s s' :
  mountedMap s = M ->
  final (writeAtom atoms listeners fuel atom args s) = Some s' -> mountedMap s' = M.
Proof.
  apply (writeAtom_inv atoms listeners (mountTableIs M) keeps_log keeps_set keeps_clear).
Qed.

End MountFrame.

(** C10: the dependents sets of the mount records are written by [mountAtom]
    and [unmountAtom] only.  Recomputing a cell, through [get]
    ([readAtomState], forced or not), through the propagation of a write
    ([recomputeDependents], [writeAtomState]) or through a whole [set] (with
    listeners that call [get] and [set]), leaves the mount table as it was,
    whatever dependencies the read functions record in the new cached
    states. *)
Theorem C10_recomputation_keeps_mount_table
    (atoms : AtomRef -> AtomConfig) (listeners : ListenerRef -> list Call)
    (fuel : nat) (atom : AtomRef) (force : bool) (args : list Value)
    (s s' : Store) :
  final (readAtomState atoms fuel atom force s) = Some s' \/
  final (recomputeDependents atoms fuel atom s) = Some s' \/
  final (writeAtomState atoms fuel atom args s) = Some s' \/
  final (writeAtom atoms listeners fuel atom args s) = Some s' ->
  mountedMap s' = mountedMap s.
Proof.
  intros [H|[H|[H|H]]].
  - eapply readAtomState_mountedMap; [reflexivity|exact H].
  - eapply recomputeDependents_mountedMap; [reflexivity|exact H].
  - eapply writeAtomState_mountedMap; [reflexivity|exact H].
  - eapply writeAtom_mountedMap; [reflexivity|exact H].
Qed.

(** A forced recomputation of [pick] after [flag] changed: the new cached
    state records [right] instead of [left] as a dependency, and the mount
    table still lists [pick] under [left] and not under [right]. *)
Lemma C10_witness :
  mountedMap (App.after (readAtomState App.atoms 8 App.pick true App.pickFlagged))
  = mountedMap App.pickFlagged.
Proof.
  apply (C10_recomputation_keeps_mount_table App.atoms App.listeners 8 App.pick
           true [] App.pickFlagged).
  left. vm_compute. reflexivity.
Defined.

Lemma pick_dependencies_change :
  (map_keys <$> (d <$> getAtomState App.pick App.pickFlagged))
    = Some [App.flag; App.left] /\
  (map_keys <$> (d <$> getAtomState App.pick
     (App.after (readAtomState App.atoms 8 App.pick true App.pickFlagged))))
    = Some [App.flag; App.right] /\
  (t <$> mountedMap App.pickFlagged !! App.left) = Some [App.pick] /\
  mountedMap App.pickFlagged !! App.right = None.
Proof. vm_compute. repeat split; reflexivity. Qed.

(** * Mounting touches the mount table only *)

Lemma sameButMount_refl s : sameButMount s s.
Proof. now repeat split. Qed.

Lemma sameButMount_trans s1 s2 s3 :
  sameButMount s1 s2 -> sameButMount s2 s3 -> sameButMount s1 s3.
Proof. unfold sameButMount. intros (-> & -> & ->) (-> & -> & ->). now repeat split. Qed.

Lemma mountAtom_frame fuel : forall atom initialDependent s s',
  final (mountAtom fuel atom initialDependent s) = Some s' -> sameButMount s s'.
Proof.
  induction fuel as [|fuel IH]; intros atom i s s' Hfin; [discriminate|].
  cbn [mountAtom] in Hfin.
  assert (Hloop : forall deps s1,
    final (forEach (mountDep (mountAtom fuel) atom) deps s) = Some s1 ->
    sameButMount s s1).
  { intros deps s1.
    apply (forEach_final (sameButMount s)); [|apply sameButMount_refl].
    intros a s2 s3 _ Hs2 Hd. apply sameButMount_trans with s2; [exact Hs2|].
    unfold mountDep in Hd. destruct (mountedMap s2 !! a).
    - simpl in Hd. injection Hd as <-. now repeat split.
    - destruct (decide (a = atom)).
      + simpl in Hd. injection Hd as <-. apply sameButMount_refl.
      + now apply IH in Hd. }
  apply final_bind in Hfin as [([] & s1 & Hr & Hrest)|(e & Hr)].
  - simpl in Hrest. injection Hrest as <-.
    apply sameButMount_trans with s1; [|now repeat split].
    eapply Hloop. now rewrite Hr.
  - eapply Hloop. now rewrite Hr.
Qed.

Lemma mountDeps_frame fuel atom deps s s' :
  final (forEach (mountDep (mountAtom fuel) atom) deps s) = Some s' ->
  sameButMount s s'.
Proof.
  apply (forEach_final (sameButMount s)); [|apply sameButMount_refl].
  intros a s2 s3 _ Hs2 Hd. apply sameButMount_trans with s2; [exact Hs2|].
  unfold mountDep in Hd. destruct (mountedMap s2 !! a).
  - simpl in Hd. injection Hd as <-. now repeat split.
  - destruct (decide (a = atom)).
    + simpl in Hd. injection Hd as <-. apply sameButMount_refl.
    + now apply mountAtom_frame in Hd.
Qed.

Lemma subscribeAtom_frame fuel atom listener s s' :
  final (subscribeAtom fuel atom listener s) = Some s' -> sameButMount s s'.
Proof.
  unfold subscribeAtom, addAtom. intros Hfin.
  apply final_bind in Hfin as [([] & s1 & Hr & Hrest)|(e & Hr)].
  - simpl in Hrest. injection Hrest as <-.
    apply sameButMount_trans with s1; [|now repeat split].
    destruct (mountedMap s !! atom).
    + injection Hr as <-. apply sameButMount_refl.
    + apply (mountAtom_frame fuel atom None). now rewrite Hr.
  - destruct (mountedMap s !! atom); [discriminate|].
    apply (mountAtom_frame fuel atom None). now rewrite Hr.
Qed.

Lemma unmountAtom_frame atom s : sameButMount s (unmountAtom atom s).
Proof.
  unfold unmountAtom.
  set (s1 := mkStore _ (delete atom (mountedMap s)) _ _).
  assert (H1 : sameButMount s s1) by now repeat split.
  destruct (getAtomState atom s1) as [atomState|]; [|exact H1].
  revert H1. generalize s1. clear s1.
  induction (map_keys (d atomState)) as [|a ks IH]; intros s1 H1; simpl; [exact H1|].
  apply IH. destruct (decide (a = atom)); [exact H1|].
  apply sameButMount_trans with s1; [exact H1|now repeat split].
Qed.

(** * What a plain read leaves behind *)

Lemma readFrame_refl s : readFrame s s.
Proof.
  repeat split; try done.
  - exists []. now rewrite app_nil_r.
  - exists []. now rewrite app_nil_r.
Qed.

Lemma readFrame_log s0 a s :
  getAtomState a s0 = None -> readFrame s0 s -> readFrame s0 (log (EvRead a) s).
Proof.
  intros Ha (HM & Hc & (evs & Ht & Hevs) & Hp & Hch).
  repeat split; try done.
  exists (evs ++ [EvRead a]). simpl. rewrite Ht, app_assoc. split; [done|].
  apply Forall_app. split; [done|]. repeat constructor. now exists a.
Qed.

Lemma readFrame_set s0 a value deps s :
  getAtomState a s0 = None -> readFrame s0 s ->
  readFrame s0 (setAtomValue a value deps s).2.
Proof.
  intros Ha (HM & Hc & Ht & (extra & Hp & Hextra) & Hch).
  assert (Hother : forall b, is_Some (getAtomState b s0) -> b <> a).
  { intros b [x Hb] ->. congruence. }
  split; [now rewrite setAtomValue_mountedMap|].
  split. { intros b Hb. rewrite setAtomValue_other; auto. }
  split; [now rewrite setAtomValue_trace|].
  destruct (setAtomValue_pending a value deps s)
    as [(Hsame & Hold)|(Hnew & Hdiff & Happ)].
  - split. { exists extra. now rewrite Hsame. }
    intros b Hb. rewrite Hsame. destruct (decide (b = a)) as [->|Hne].
    + destruct Hold as [Hold|Hold]; [|exact Hold]. apply Hch. now rewrite <- Hold.
    + apply Hch. now rewrite setAtomValue_other in Hb.
  - split.
    { exists (extra ++ [(a, getAtomState a s)]). rewrite Happ, Hp, app_assoc.
      split; [done|]. apply Forall_app. split; [done|]. now repeat constructor. }
    intros b Hb. rewrite Happ. unfold map_keys. rewrite fmap_app.
    apply elem_of_app. destruct (decide (b = a)) as [->|Hne].
    + right. simpl. left.
    + left. apply Hch. now rewrite setAtomValue_other in Hb.
Qed.

Lemma readFrame_uncached s0 a s :
  readFrame s0 s -> getAtomState a s = None -> getAtomState a s0 = None.
Proof.
  intros (_ & Hc & _) Ha. destruct (getAtomState a s0) as [x|] eqn:E; [|done].
  rewrite Hc in Ha by eauto. congruence.
Qed.

Section ReadFrame.

Variable atoms : AtomRef -> AtomConfig.

Lemma readAtomState_readFrame s0 fuel atom s s' :
  readFrame s0 s ->
  final (readAtomState atoms fuel atom false s) = Some s' -> readFrame s0 s'.
Proof.
  intros Hs Hfin.
  eapply (readAtomState_inv atoms (readFrame s0)
            (fun a => getAtomState a s0 = None)); try eassumption.
  - intros a s1 Ha. now apply readFrame_log.
  - intros a value deps s1 Ha. now apply readFrame_set.
  - intros a s1 Hs1. now apply readFrame_uncached.
  - discriminate.
Qed.

Lemma readAtom_readFrame fuel atom s s' :
  final (readAtom atoms fuel atom s) = Some s' -> readFrame s s'.
Proof.
  unfold readAtom. intros Hfin.
  apply final_bind in Hfin as [(st & s1 & Hr & Hrest)|(e & Hr)].
  - simpl in Hrest. injection Hrest as <-.
    eapply readAtomState_readFrame; [apply readFrame_refl|now rewrite Hr].
  - eapply readAtomState_readFrame; [apply readFrame_refl|now rewrite Hr].
Qed.

(** The state a forced recomputation of [atom] builds is handed to
    [setAtomValue] in a store that differs from the starting one by plain
    reads only. *)
Lemma readAtomState_forced fuel atom s st s' :
  readAtomState atoms (S fuel) atom true s = Ok st s' ->
  exists value deps s1,
    readFrame (log (EvRead atom) s) s1 /\
    setAtomValue atom value (Some deps) s1 = (st, s').
Proof.
  simpl. intros Hrun.
  assert (Hev : evalRead atoms (fun a => readAtomState atoms fuel a false) atom
                  (read (atoms atom)) [] (log (EvRead atom) s) = Ok st s').
  { destruct (getAtomState atom s); exact Hrun. }
  pose proof (evalRead_pre atoms (readFrame (log (EvRead atom) s))
                (fun a => readAtomState atoms fuel a false) atom
                (fun a s1 s2 H1 => readAtomState_readFrame _ fuel a s1 s2 H1)
                (read (atoms atom)) [] (log (EvRead atom) s)
                (readFrame_refl _)) as Hpre.
  now rewrite Hev in Hpre.
Qed.

End ReadFrame.

(** * Which read functions run

    A read function runs for a cell in [P] only, when [P] holds the cells
    asked for and is closed under what their read functions may read. *)

Lemma runsOnly_log (P : AtomRef -> Prop) T e s :
  (forall b, e = EvRead b -> P b) -> runsOnly P T s -> runsOnly P T (log e s).
Proof.
  intros He (evs & Ht & Hevs). exists (evs ++ [e]). simpl. rewrite Ht, <- app_assoc.
  split; [reflexivity|]. intros b Hin. apply elem_of_app in Hin as [Hin|Hin].
  - now apply Hevs.
  - apply list_elem_of_singleton in Hin. now apply He.
Qed.

Lemma runsOnly_set (P : AtomRef -> Prop) T a value deps s :
  runsOnly P T s -> runsOnly P T (setAtomValue a value deps s).2.
Proof. unfold runsOnly. now rewrite setAtomValue_trace. Qed.

Lemma readsThrough_read atoms a b c :
  readsThrough atoms a b -> mayRead (read (atoms b)) c -> readsThrough atoms a c.
Proof.
  induction 1 as [a|a x b Hax Hxb IH]; intros Hc.
  - apply readsThrough_step with c; [exact Hc|constructor].
  - apply readsThrough_step with x; auto.
Qed.

Section Asked.

Variable atoms : AtomRef -> AtomConfig.
Variable P : AtomRef -> Prop.
Variable T : list Event.

Hypothesis P_read : forall a b, P a -> mayRead (read (atoms a)) b -> P b.

Lemma evalRead_asked rec atom :
  (forall a s s', P a -> runsOnly P T s -> final (rec a s) = Some s' ->
                  runsOnly P T s') ->
  forall body deps s s',
    (forall b, mayRead body b -> P b) ->
    runsOnly P T s ->
    final (evalRead atoms rec atom body deps s) = Some s' -> runsOnly P T s'.
Proof.
  intros Hrec. induction body as [value|a k IH]; simpl; intros deps s s' Hbody Hs Hfin.
  - pose proof (runsOnly_set P T atom value (Some deps) s Hs) as H.
    destruct (setAtomValue atom value (Some deps) s) as [st s1].
    simpl in Hfin, H. congruence.
  - assert (Hk : forall x b, mayRead (k x) b -> P b).
    { intros x b Hb. apply Hbody. now apply mayRead_later with x. }
    destruct (decide (a = atom)) as [->|Hne].
    + destruct (getAtomState atom s) as [aState|];
        [eapply IH; [apply Hk|exact Hs|exact Hfin]|].
      destruct (init (atoms atom)) as [i|];
        [eapply IH; [apply Hk|exact Hs|exact Hfin]|].
      simpl in Hfin. congruence.
    + apply final_bind in Hfin as [(aState & s1 & Hr & Hrest)|(e & Hr)].
      * eapply IH; [apply Hk| |exact Hrest].
        apply (Hrec a s s1); [apply Hbody; constructor|exact Hs|now rewrite Hr].
      * apply (Hrec a s s'); [apply Hbody; constructor|exact Hs|now rewrite Hr].
Qed.

Lemma readAtomState_asked fuel : forall atom force s s',
  P atom -> runsOnly P T s ->
  final (readAtomState atoms fuel atom force s) = Some s' -> runsOnly P T s'.
Proof.
  induction fuel as [|fuel IH]; simpl; intros atom force s s' HP Hs Hfin;
    [discriminate|].
  assert (Hrun :
    final (evalRead atoms (fun a => readAtomState atoms fuel a false) atom
             (read (atoms atom)) [] (log (EvRead atom) s)) = Some s' ->
    runsOnly P T s').
  { apply evalRead_asked.
    - intros a s0 s1. apply IH.
    - intros b. now apply P_read.
    - apply runsOnly_log; [|exact Hs]. now intros b [= <-]. }
  destruct (getAtomState atom s) as [atomState|];
    [destruct force; [now apply Hrun|simpl in Hfin; congruence]|now apply Hrun].
Qed.

Variable M : gmap AtomRef Mounted.

Lemma recomputeDependents_asked fuel : forall A s s',
  (forall b, reach M A b -> P b) ->
  mountedMap s = M -> runsOnly P T s ->
  final (recomputeDependents atoms fuel A s) = Some s' ->
  mountedMap s' = M /\ runsOnly P T s'.
Proof.
  induction fuel as [|fuel IH]; simpl; intros A s s' HA HM Hs Hfin; [discriminate|].
  rewrite HM in Hfin. revert Hfin.
  apply (forEach_final (fun s0 => mountedMap s0 = M /\ runsOnly P T s0)).
  2:{ split; [exact HM|]. apply runsOnly_log; [discriminate|exact Hs]. }
  intros x s0 s1 Hx [HM0 Hs0] Hone.
  destruct (M !! A) as [m|] eqn:Hm; [|now apply elem_of_nil in Hx].
  assert (HPx : P x) by (apply HA; now apply reach_one with m).
  assert (Hread : forall s2,
            final (readAtomState atoms fuel x true s0) = Some s2 ->
            mountedMap s2 = M /\ runsOnly P T s2).
  { intros s2 Hr. split.
    - now apply (readAtomState_mountedMap atoms M fuel x true s0 s2 HM0).
    - now apply (readAtomState_asked fuel x true s0 s2). }
  unfold recomputeOne in Hone.
  apply final_bind in Hone as [([] & s3 & Hrd & Hrec)|(e & Hrd)].
  - assert (mountedMap s3 = M /\ runsOnly P T s3) as [HM3 Hs3].
    { destruct (decide (x = A)); [injection Hrd as <-; now split|].
      apply bind_Ok in Hrd as (stx & s4 & Hr & Hok). injection Hok as <-.
      apply Hread. now rewrite Hr. }
    apply (IH x s3 s1); [|exact HM3|exact Hs3|exact Hrec].
    intros b Hb. apply HA. now apply reach_more with m x.
  - destruct (decide (x = A)); [discriminate|].
    apply bind_Throw in Hrd as [Hr|(stx & s4 & _ & Hok)]; [|discriminate].
    apply Hread. now rewrite Hr.
Qed.

Lemma setSelf_asked fuel a args s s' :
  (forall b, reach M a b -> P b) ->
  mountedMap s = M -> runsOnly P T s ->
  final (setSelf atoms fuel a args s) = Some s' ->
  mountedMap s' = M /\ runsOnly P T s'.
Proof.
  unfold setSelf. intros Ha HM Hs.
  pose proof (runsOnly_set P T a (arg0 args) None s Hs) as Hset.
  pose proof (setAtomValue_mountedMap a (arg0 args) None s) as HM1.
  destruct (setAtomValue a (arg0 args) None s) as [next s1]; simpl in Hset, HM1.
  rewrite <- HM1 in HM.
  destruct (getAtomState a s) as [prev|].
  - destruct (isEqualAtomValue prev next); simpl.
    + intros [= <-]. now split.
    + now apply recomputeDependents_asked.
  - now apply recomputeDependents_asked.
Qed.

Variable listeners : ListenerRef -> list Call.
Variable Wr : AtomRef -> Prop.

Hypothesis Wr_get : forall a w args b,
  Wr a -> write (atoms a) = Some w -> mayGet (w args) b -> P b.
Hypothesis Wr_set : forall a w args b,
  Wr a -> write (atoms a) = Some w -> maySet (w args) b -> Wr b.
Hypothesis Wr_dependent : forall a w args b,
  Wr a -> write (atoms a) = Some w -> maySet (w args) a -> reach M a b -> P b.
Hypothesis listener_get : forall a m f b,
  M !! a = Some m -> f ∈ l m -> CallGet b ∈ listeners f -> P b.
Hypothesis listener_set : forall a m f b args,
  M !! a = Some m -> f ∈ l m -> CallSet b args ∈ listeners f -> Wr b.

Local Abbreviation asked := (runsOnlyOn M P T).

Lemma readAtomState_asked' fuel atom force s s' :
  P atom -> asked s ->
  final (readAtomState atoms fuel atom force s) = Some s' -> asked s'.
Proof.
  intros HP [HM Hs] Hfin. split.
  - now apply (readAtomState_mountedMap atoms M fuel atom force s s' HM).
  - now apply (readAtomState_asked fuel atom force s s').
Qed.

Lemma evalWrite_asked fuel rec atom :
  (forall a args s s', Wr a -> asked s -> final (rec a args s) = Some s' -> asked s') ->
  forall body s s',
    (forall b, mayGet body b -> P b) ->
    (forall b, maySet body b -> Wr b) ->
    (maySet body atom -> forall b, reach M atom b -> P b) ->
    asked s -> final (evalWrite atoms fuel rec atom body s) = Some s' -> asked s'.
Proof.
  intros Hrec. induction body as [result|a k IH|a args k IH]; simpl;
    intros s s' Hget Hset Hself Hs Hfin.
  - congruence.
  - assert (Hk : forall x,
      (forall b, mayGet (k x) b -> P b) /\ (forall b, maySet (k x) b -> Wr b) /\
      (maySet (k x) atom -> forall b, reach M atom b -> P b)).
    { intros x. split; [|split].
      - intros b Hb. apply Hget. now apply mayGet_after_get with x.
      - intros b Hb. apply Hset. now apply maySet_after_get with x.
      - intros Hb. apply Hself. now apply maySet_after_get with x. }
    apply final_bind in Hfin as [(st & s1 & Hr & Hrest)|(e & Hr)].
    + destruct (Hk (returnAtomValue st)) as (H1 & H2 & H3).
      apply (IH _ s1 s' H1 H2 H3); [|exact Hrest].
      apply (readAtomState_asked' fuel a false s s1); [apply Hget; constructor|exact Hs|].
      now rewrite Hr.
    + apply (readAtomState_asked' fuel a false s s'); [apply Hget; constructor|exact Hs|].
      now rewrite Hr.
  - assert (Hk : forall x,
      (forall b, mayGet (k x) b -> P b) /\ (forall b, maySet (k x) b -> Wr b) /\
      (maySet (k x) atom -> forall b, reach M atom b -> P b)).
    { intros x. split; [|split].
      - intros b Hb. apply Hget. now apply mayGet_after_set with x.
      - intros b Hb. apply Hset. now apply maySet_after_set with x.
      - intros Hb. apply Hself. now apply maySet_after_set with x. }
    destruct (decide (a = atom)) as [->|Hne].
    + assert (Hdep : forall b, reach M atom b -> P b) by (apply Hself; constructor).
      destruct Hs as [HM Hs].
      apply final_bind in Hfin as [([] & s1 & Hr & Hrest)|(e & Hr)].
      * destruct (Hk VUndefined) as (H1 & H2 & H3).
        apply (IH _ s1 s' H1 H2 H3); [|exact Hrest].
        apply (setSelf_asked fuel atom args s s1 Hdep HM Hs). now rewrite Hr.
      * apply (setSelf_asked fuel atom args s s' Hdep HM Hs). now rewrite Hr.
    + apply final_bind in Hfin as [(r & s1 & Hr & Hrest)|(e & Hr)].
      * destruct (Hk r) as (H1 & H2 & H3).
        apply (IH _ s1 s' H1 H2 H3); [|exact Hrest].
        apply (Hrec a args s s1); [apply Hset; constructor|exact Hs|now rewrite Hr].
      * apply (Hrec a args s s'); [apply Hset; constructor|exact Hs|now rewrite Hr].
Qed.

Lemma writeAtomState_asked fuel : forall atom args s s',
  Wr atom -> asked s ->
  final (writeAtomState atoms fuel atom args s) = Some s' -> asked s'.
Proof.
  induction fuel as [|fuel IH]; simpl; intros atom args s s' HW Hs Hfin;
    [discriminate|].
  destruct (write (atoms atom)) as [w|] eqn:Hw; [|simpl in Hfin; congruence].
  revert Hfin. apply evalWrite_asked; [exact IH|..|exact Hs].
  - intros b. exact (Wr_get atom w args b HW Hw).
  - intros b. exact (Wr_set atom w args b HW Hw).
  - intros Hself b. exact (Wr_dependent atom w args b HW Hw Hself).
Qed.

Lemma runListener_asked fuel set atom f m :
  (forall a args s s', Wr a -> asked s -> final (set a args s) = Some s' -> asked s') ->
  M !! atom = Some m -> f ∈ l m ->
  forall s s', asked s ->
    final (runListener atoms listeners fuel set atom f s) = Some s' -> asked s'.
Proof.
  intros Hset Hm Hf s s' [HM Hs]. unfold runListener.
  apply forEach_final.
  2:{ split; [exact HM|]. apply runsOnly_log; [discriminate|exact Hs]. }
  intros [a|a args] s0 s1 Hin Hs0 Hc.
  - assert (HP : P a) by now apply (listener_get atom m f a).
    apply final_bind in Hc as [(st & s2 & Hr & Hrest)|(e & Hr)].
    + assert (s2 = s1) as -> by (simpl in Hrest; congruence).
      apply (readAtomState_asked' fuel a false s0 s1 HP Hs0). now rewrite Hr.
    + apply (readAtomState_asked' fuel a false s0 s1 HP Hs0). now rewrite Hr.
  - assert (HW : Wr a) by now apply (listener_set atom m f a args).
    apply final_bind in Hc as [(st & s2 & Hr & Hrest)|(e & Hr)].
    + assert (s2 = s1) as -> by (simpl in Hrest; congruence).
      apply (Hset a args s0 s1 HW Hs0). now rewrite Hr.
    + apply (Hset a args s0 s1 HW Hs0). now rewrite Hr.
Qed.

Lemma writeThenFlush_asked fuel flush atom args s s' :
  (forall s s', asked s -> final (flush s) = Some s' -> asked s') ->
  Wr atom -> asked s ->
  final (writeThenFlush atoms fuel flush atom args s) = Some s' -> asked s'.
Proof.
  unfold writeThenFlush. intros Hflush HW Hs Hfin.
  apply final_bind in Hfin as [(r & s1 & Hr & Hrest)|(e & Hr)].
  - assert (asked s1) as Hs1
      by (apply (writeAtomState_asked fuel atom args s s1 HW Hs); now rewrite Hr).
    apply final_bind in Hrest as [([] & s2 & Hf & Hok)|(e & Hf)].
    + assert (s2 = s') as -> by (simpl in Hok; congruence).
      apply (Hflush s1 s' Hs1). now rewrite Hf.
    + apply (Hflush s1 s' Hs1). now rewrite Hf.
  - apply (writeAtomState_asked fuel atom args s s' HW Hs). now rewrite Hr.
Qed.

Lemma flushRound_asked fuel flush pending s s' :
  (forall s s', asked s -> final (flush s) = Some s' -> asked s') ->
  asked s -> final (flushRound atoms listeners fuel flush pending s) = Some s' ->
  asked s'.
Proof.
  intros Hflush Hs. unfold flushRound. apply forEach_final; [|exact Hs].
  intros entry s2 s3 _ Hs2. unfold flushEntry.
  rewrite (proj1 Hs2).
  destruct (M !! entry.1) as [m|] eqn:Hm;
    [|destruct (getAtomState entry.1 s2); simpl; congruence].
  destruct (shouldNotify _ _ _); [|simpl; congruence].
  apply forEach_final; [|exact Hs2]. intros f s4 s5 Hf.
  apply runListener_asked with m; [|exact Hm|exact Hf].
  intros a args s6 s7 HW. now apply writeThenFlush_asked.
Qed.

Lemma flushPending_asked fuel : forall s s',
  asked s -> final (flushPending atoms listeners fuel s) = Some s' -> asked s'.
Proof.
  induction fuel as [|fuel IH]; intros s s' Hs Hfin; [discriminate|].
  cbn [flushPending] in Hfin.
  destruct (pendingMap s) as [|entry pending] eqn:Hp; [simpl in Hfin; congruence|].
  apply final_bind in Hfin as [([] & s1 & Hr & Hrest)|(e & Hr)].
  - eapply IH; [|exact Hrest].
    eapply (flushRound_asked fuel _ _ (clearPending s)); [exact IH|exact Hs|now rewrite Hr].
  - eapply (flushRound_asked fuel _ _ (clearPending s)); [exact IH|exact Hs|now rewrite Hr].
Qed.

Lemma writeAtom_asked fuel atom args s s' :
  Wr atom -> asked s ->
  final (writeAtom atoms listeners fuel atom args s) = Some s' -> asked s'.
Proof. apply writeThenFlush_asked, flushPending_asked. Qed.

End Asked.

(** The read functions a [get(atom)] runs are those of cells that [atom]
    reads through. *)
Lemma readAtom_runs atoms fuel atom s s' :
  final (readAtom atoms fuel atom s) = Some s' ->
  runsOnly (readsThrough atoms atom) (trace s) s'.
Proof.
  unfold readAtom. intros Hfin.
  assert (H0 : runsOnly (readsThrough atoms atom) (trace s) s).
  { exists []. rewrite app_nil_r. split; [reflexivity|].
    intros b H. now apply elem_of_nil in H. }
  assert (Hread : forall s1,
            final (readAtomState atoms fuel atom false s) = Some s1 ->
            runsOnly (readsThrough atoms atom) (trace s) s1).
  { intros s1. apply (readAtomState_asked atoms (readsThrough atoms atom) (trace s));
      [|constructor|exact H0].
    intros a b. apply readsThrough_read. }
  apply final_bind in Hfin as [(st & s1 & Hr & Hrest)|(e & Hr)].
  - simpl in Hrest. injection Hrest as <-. apply Hread. now rewrite Hr.
  - apply Hread. now rewrite Hr.
Qed.

(** The read functions a [set(atom, ...)] runs are those of cells it asks
    for. *)
Lemma writeAtom_runs atoms listeners fuel atom args s s' :
  final (writeAtom atoms listeners fuel atom args s) = Some s' ->
  runsOnly (mayRun atoms listeners (mountedMap s) atom) (trace s) s'.
Proof.
  intros Hfin.
  apply (writeAtom_asked atoms (mayRun atoms listeners (mountedMap s) atom) (trace s)
           (fun a b Ha Hb => mayRun_read atoms listeners (mountedMap s) atom a b Ha Hb)
           (mountedMap s) listeners (mayWrite atoms listeners (mountedMap s) atom))
    with (fuel := fuel) (atom := atom) (args := args) (s := s).
  - intros a w args0 b. apply mayRun_get.
  - intros a w args0 b. apply mayWrite_nested.
  - intros a w args0 b. apply mayRun_dependent.
  - intros a m f b. apply mayRun_listener.
  - intros a m f b args0. apply mayWrite_listener.
  - constructor.
  - split; [reflexivity|]. exists []. rewrite app_nil_r. split; [reflexivity|].
    intros b H. now apply elem_of_nil in H.
  - exact Hfin.
Qed.

(** * Plain reads: cache, laziness, pending entries *)

Lemma readAtom_cached atoms fuel atom s st :
  getAtomState atom s = Some st -> readAtom atoms (S fuel) atom s = Ok (v st) s.
Proof. unfold readAtom. simpl. now intros ->. Qed.

(** C6: a plain [get] of a cell that has a cached state returns the cached
    value and leaves the whole store (trace included: no read function runs,
    no dependency is looked at) as it was; and read functions run lazily.  A
    new store has run none; subscribing and unsubscribing (mounting) run
    none; a read function that a [get(atom)] runs is the one of a cell that
    had no cached state when the [get] started and that is [atom] itself or a
    cell [atom] reads, directly or through the cells it reads; a read
    function that a [set(atom, ...)] runs (the listeners it calls included)
    is the one of a cell that a write function it may call, or a listener
    registered in the mount table, may call the getter on, of a cell the
    dependents sets make reachable from a cell whose write function sets its
    own cell (recomputation), or of a cell such a cell reads. *)
Theorem C6_cached_get_and_laziness (atoms : AtomRef -> AtomConfig) :
  (forall fuel atom s st,
     getAtomState atom s = Some st ->
     readAtom atoms (S fuel) atom s = Ok (v st) s) /\
  trace createStore = [] /\
  (forall fuel atom listener s s',
     final (subscribeAtom fuel atom listener s) = Some s' -> trace s' = trace s) /\
  (forall atom s, trace (unsubscribe atom s) = trace s) /\
  (forall fuel atom s s',
     final (readAtom atoms fuel atom s) = Some s' ->
     exists evs, trace s' = trace s ++ evs /\
       Forall (fun e => exists b, e = EvRead b /\ getAtomState b s = None /\
                                  readsThrough atoms atom b) evs) /\
  (forall listeners fuel atom args s s',
     final (writeAtom atoms listeners fuel atom args s) = Some s' ->
     exists evs, trace s' = trace s ++ evs /\
       forall b, EvRead b ∈ evs -> mayRun atoms listeners (mountedMap s) atom b).
Proof.
  split; [intros; now apply readAtom_cached|].
  split; [reflexivity|].
  split; [intros fuel atom listener s s' H; apply subscribeAtom_frame in H; apply H|].
  split; [intros atom s; apply unmountAtom_frame|].
  split.
  - intros fuel atom s s' H.
    pose proof (readAtom_runs atoms fuel atom s s' H) as (evs' & Ht' & Hasked).
    apply readAtom_readFrame in H as (_ & _ & (evs & Ht & Hevs) & _).
    exists evs. split; [exact Ht|].
    assert (evs' = evs) as -> by (rewrite Ht in Ht'; now apply app_inv_head in Ht').
    apply Forall_forall. intros e He.
    destruct (proj1 (Forall_forall _ _) Hevs e He) as (b & -> & Hnone).
    exists b. split; [reflexivity|]. split; [exact Hnone|]. now apply Hasked.
  - intros listeners fuel atom args s s' H.
    exact (writeAtom_runs atoms listeners fuel atom args s s' H).
Qed.

(** [get(double)] on the store [doubleStale], where [double] is cached; and
    the first [get(double)] on a new store, which runs the read functions of
    [double] and of [count]. *)
Lemma C6_witness :
  (getAtomState App.double App.doubleStale
     = Some (mkAtomState [(App.count, Some (mkAtomState [(App.count, None)] (VNum 0)))]
               (VNum 0)) /\
   getAtomState App.count App.doubleStale = Some (mkAtomState [] (VNum 5)) /\
   readAtom App.atoms 1 App.double App.doubleStale = Ok (VNum 0) App.doubleStale) /\
  (exists evs,
     trace App.doubleFresh = trace createStore ++ evs /\
     Forall (fun e => exists b, e = EvRead b /\ getAtomState b createStore = None /\
                                readsThrough App.atoms App.double b) evs).
Proof.
  split.
  - split; [vm_compute; reflexivity|]. split; [vm_compute; reflexivity|].
    apply (proj1 (C6_cached_get_and_laziness App.atoms) 0 App.double App.doubleStale
             (mkAtomState [(App.count, Some (mkAtomState [(App.count, None)] (VNum 0)))]
                (VNum 0))).
    vm_compute. reflexivity.
  - apply (proj1 (proj2 (proj2 (proj2 (proj2 (C6_cached_get_and_laziness App.atoms)))))
             8 App.double createStore App.doubleFresh).
    vm_compute. reflexivity.
Defined.

(** C5: when a recomputation of a cell that has a cached state [prev]
    (plain or forced) produces a value that [Object.is] the cached one, the
    state returned and the state in the table are the object [prev] itself
    (dependencies included), the cell gets no pending entry it did not have,
    no listener runs, and the mount table is as before: nothing changes in
    what the next flush decides for that cell. *)
Theorem C5_equal_value_keeps_state
    (atoms : AtomRef -> AtomConfig) (fuel : nat) (atom : AtomRef) (force : bool)
    (s s' : Store) (prev st : AtomState) :
  getAtomState atom s = Some prev ->
  readAtomState atoms fuel atom force s = Ok st s' ->
  Object_is (v prev) (v st) = true ->
  st = prev /\
  getAtomState atom s' = Some prev /\
  (forall e, (atom, e) ∈ pendingMap s' -> (atom, e) ∈ pendingMap s) /\
  (forall a f, EvListener a f ∈ trace s' -> EvListener a f ∈ trace s) /\
  mountedMap s' = mountedMap s.
Proof.
  intros Hprev Hrun Heq. unfold Object_is in Heq. apply bool_decide_eq_true in Heq.
  destruct fuel as [|fuel]; [discriminate|].
  destruct force.
  - apply readAtomState_forced in Hrun as (value & deps & s1 & Hfr & Hset).
    destruct Hfr as (HM & Hc & (evs & Ht & Hevs) & (extra & Hp & Hextra) & _).
    assert (Hprev1 : getAtomState atom s1 = Some prev).
    { rewrite Hc; [exact Hprev|]. unfold getAtomState in *. simpl. eauto. }
    assert (Hv : v st = value).
    { pose proof (setAtomValue_installed atom value (Some deps) s1) as [_ H].
      now rewrite Hset in H. }
    unfold setAtomValue in Hset. rewrite Hprev1 in Hset.
    unfold isEqualAtomValue, Object_is in Hset; simpl in Hset.
    rewrite bool_decide_eq_true_2 in Hset by congruence.
    injection Hset as <- <-.
    split; [reflexivity|]. split; [exact Hprev1|]. split; [|split; [|exact HM]].
    + intros e He. rewrite Hp in He. simpl in He.
      apply elem_of_app in He as [He|He]; [exact He|].
      rewrite Forall_forall in Hextra. apply Hextra in He. simpl in He.
      unfold getAtomState in *. simpl in He. congruence.
    + intros a f He. rewrite Ht in He. simpl in He.
      apply elem_of_app in He as [He|He].
      * apply elem_of_app in He as [He|He]; [exact He|].
        apply list_elem_of_singleton in He. discriminate.
      * rewrite Forall_forall in Hevs. apply Hevs in He as (b & Hb & _). discriminate.
  - simpl in Hrun. rewrite Hprev in Hrun. injection Hrun as <- <-. now repeat split.
Qed.

(** The forced recomputation of [double] in the store where it is cached
    for the current value of [count]. *)
Lemma C5_witness :
  fst (App.after' (readAtomState App.atoms 8 App.double true App.doubleFresh))
    = getAtomState App.double App.doubleFresh /\
  getAtomState App.double
    (App.after (readAtomState App.atoms 8 App.double true App.doubleFresh))
    = getAtomState App.double App.doubleFresh.
Proof.
  pose proof (C5_equal_value_keeps_state App.atoms 8 App.double true
                App.doubleFresh
                (App.after (readAtomState App.atoms 8 App.double true App.doubleFresh))
                (mkAtomState [(App.count, Some (mkAtomState [(App.count, None)] (VNum 0)))]
                   (VNum 0))
                (mkAtomState [(App.count, Some (mkAtomState [(App.count, None)] (VNum 0)))]
                   (VNum 0))
                ltac:(vm_compute; reflexivity) ltac:(vm_compute; reflexivity)
                ltac:(vm_compute; reflexivity)) as (H1 & H2 & _).
  split; [vm_compute; reflexivity|]. rewrite H2. vm_compute. reflexivity.
Defined.

(** The state [readAtomState] returns is the one the table holds afterwards,
    and its value is the one the read function produced. *)
Lemma evalRead_Ok atoms rec atom body deps s st s' :
  evalRead atoms rec atom body deps s = Ok st s' ->
  exists value deps' s1, setAtomValue atom value (Some deps') s1 = (st, s').
Proof.
  intros Hrun.
  pose proof (evalRead_pre atoms (fun _ => True) rec atom
                (fun _ _ _ _ _ => Logic.I) body deps s Logic.I) as Hpre.
  rewrite Hrun in Hpre. destruct Hpre as (value & deps' & s1 & _ & Hset). eauto.
Qed.

Lemma readAtomState_Ok_cached atoms fuel atom force s st s' :
  readAtomState atoms fuel atom force s = Ok st s' ->
  getAtomState atom s' = Some st.
Proof.
  destruct fuel as [|fuel]; [discriminate|]. simpl. intros Hrun.
  assert (Hev : evalRead atoms (fun a => readAtomState atoms fuel a false) atom
                  (read (atoms atom)) [] (log (EvRead atom) s) = Ok st s' ->
                getAtomState atom s' = Some st).
  { intros Hev. apply evalRead_Ok in Hev as (value & deps' & s1 & Hset).
    pose proof (setAtomValue_installed atom value (Some deps') s1) as [H _].
    now rewrite Hset in H. }
  destruct (getAtomState atom s) as [cur|] eqn:Hcur; [|now apply Hev].
  destruct force; [now apply Hev|]. injection Hrun as <- <-. exact Hcur.
Qed.

(** C9: a plain [get] changes the store.  Every cell whose state differs
    after the [get] (a first read installs one) is in [pendingMap], entries
    already there stay, and neither [get] nor subscribing nor unsubscribing
    removes an entry: they wait for the flush of the next [set].  In the run
    below [count] was read, then subscribed; a later [set] of the unrelated
    [other] leaves the state of [count] alone and still runs its listener. *)
Theorem C9_get_leaves_pending_entries :
  (forall atoms fuel atom s s',
     final (readAtom atoms fuel atom s) = Some s' ->
     (forall b, getAtomState b s' <> getAtomState b s ->
                b ∈ map_keys (pendingMap s')) /\
     (forall value, readAtom atoms fuel atom s = Ok value s' ->
                    getAtomState atom s = None ->
                    atom ∈ map_keys (pendingMap s')) /\
     (exists extra, pendingMap s' = pendingMap s ++ extra)) /\
  (forall fuel atom listener s s',
     final (subscribeAtom fuel atom listener s) = Some s' ->
     pendingMap s' = pendingMap s) /\
  (forall atom s, pendingMap (unsubscribe atom s) = pendingMap s) /\
  (exists r s',
     pendingMap App.countWatched = [(App.count, None)] /\
     App.set App.other (VNum 1) App.countWatched = Ok r s' /\
     getAtomState App.count s' = getAtomState App.count App.countWatched /\
     App.fired App.count 7 App.countWatched = 0 /\
     App.fired App.count 7 s' = 1).
Proof.
  split.
  { intros atoms fuel atom s s' Hfin.
    pose proof (readAtom_readFrame atoms fuel atom s s' Hfin)
      as (_ & _ & _ & (extra & Hp & _) & Hch).
    split; [exact Hch|]. split; [|now exists extra].
    intros value Hrun Hnone. apply Hch. rewrite Hnone.
    unfold readAtom in Hrun. apply bind_Ok in Hrun as (st & s1 & Hr & Hok).
    injection Hok as _ <-. apply readAtomState_Ok_cached in Hr. congruence. }
  split.
  { intros fuel atom listener s s' H. apply subscribeAtom_frame in H. apply H. }
  split.
  { intros atom s. apply unmountAtom_frame. }
  eexists _, _. vm_compute. repeat split; reflexivity.
Qed.

Lemma C9_witness :
  App.count ∈ map_keys (pendingMap (App.after (readAtom App.atoms 8 App.count createStore))).
Proof.
  apply (proj1 C9_get_leaves_pending_entries App.atoms 8 App.count createStore
           (App.after (readAtom App.atoms 8 App.count createStore))
           ltac:(vm_compute; reflexivity)).
  vm_compute. discriminate.
Defined.

(** * Errors *)

Lemma forEach_Throw {A} (f : A -> Store -> Res unit) xs e s' :
  forall s, forEach f xs s = Throw e s' -> exists x s0, x ∈ xs /\ f x s0 = Throw e s'.
Proof.
  induction xs as [|x xs IH]; simpl; intros s Hrun; [discriminate|].
  apply bind_Throw in Hrun as [Hx|(u & s1 & _ & Hrest)].
  - exists x, s. split; [left|exact Hx].
  - apply IH in Hrest as (y & s0 & Hy & Hf). exists y, s0. split; [now right|exact Hf].
Qed.

Section Errors.

Variable atoms : AtomRef -> AtomConfig.
Variable listeners : ListenerRef -> list Call.

Lemma readAtomState_trace_grows fuel atom s s' e :
  final (readAtomState atoms fuel atom false s) = Some s' ->
  e ∈ trace s -> e ∈ trace s'.
Proof.
  intros Hfin He.
  apply (readAtomState_readFrame atoms s fuel atom s s' (readFrame_refl s)) in Hfin
    as (_ & _ & (evs & -> & _) & _).
  apply elem_of_app. now left.
Qed.

Lemma evalRead_Throw rec atom :
  (forall a s e s', rec a s = Throw e s' ->
     e = NoAtomInit /\ selfReadWithoutValue atoms s') ->
  (forall a s s' e, final (rec a s) = Some s' -> e ∈ trace s -> e ∈ trace s') ->
  forall body deps s e s',
    (selfReads atom body -> selfReads atom (read (atoms atom))) ->
    EvRead atom ∈ trace s ->
    evalRead atoms rec atom body deps s = Throw e s' ->
    e = NoAtomInit /\ selfReadWithoutValue atoms s'.
Proof.
  intros Hrec Hgrow. induction body as [value|a k IH]; simpl;
    intros deps s e s' Hsub Hev Hrun.
  - destruct (setAtomValue atom value (Some deps) s); discriminate.
  - assert (Hk : forall x, selfReads atom (k x) -> selfReads atom (read (atoms atom))).
    { intros x Hx. apply Hsub. now apply selfReads_later with x. }
    destruct (decide (a = atom)) as [->|Hne].
    + destruct (getAtomState atom s) as [aState|] eqn:Hst;
        [eapply IH; [apply Hk|exact Hev|exact Hrun]|].
      destruct (init (atoms atom)) as [i|] eqn:Hinit;
        [eapply IH; [apply Hk|exact Hev|exact Hrun]|].
      injection Hrun as <- <-. split; [reflexivity|].
      exists atom. repeat split; try assumption. apply Hsub. constructor.
    + apply bind_Throw in Hrun as [Hr|(aState & s1 & Hr & Hrest)].
      * now apply Hrec in Hr.
      * eapply IH; [apply Hk| |exact Hrest].
        apply (Hgrow a s s1); [now rewrite Hr|exact Hev].
Qed.

Lemma readAtomState_Throw fuel : forall atom force s e s',
  readAtomState atoms fuel atom force s = Throw e s' ->
  e = NoAtomInit /\ selfReadWithoutValue atoms s'.
Proof.
  induction fuel as [|fuel IH]; simpl; intros atom force s e s' Hrun;
    [discriminate|].
  assert (Hev : evalRead atoms (fun a => readAtomState atoms fuel a false) atom
                  (read (atoms atom)) [] (log (EvRead atom) s) = Throw e s' ->
                e = NoAtomInit /\ selfReadWithoutValue atoms s').
  { apply evalRead_Throw.
    - intros a s0 e0 s1. apply IH.
    - intros a s0 s1 e0. apply readAtomState_trace_grows.
    - exact id.
    - simpl. apply elem_of_app. right. left. }
  destruct (getAtomState atom s); [|now apply Hev].
  destruct force; [now apply Hev|discriminate].
Qed.

Lemma recomputeDependents_Throw fuel : forall atom s e s',
  recomputeDependents atoms fuel atom s = Throw e s' ->
  e = NoAtomInit /\ selfReadWithoutValue atoms s'.
Proof.
  induction fuel as [|fuel IH]; simpl; intros atom s e s' Hrun; [discriminate|].
  apply forEach_Throw in Hrun as (dependent & s0 & _ & Hone).
  unfold recomputeOne in Hone.
  apply bind_Throw in Hone as [Hrd|(u & s1 & _ & Hrec)]; [|now apply IH in Hrec].
  destruct (decide (dependent = atom)); [discriminate|].
  apply bind_Throw in Hrd as [Hr|(st & s1 & _ & Hok)]; [|discriminate].
  now apply readAtomState_Throw in Hr.
Qed.

Lemma setSelf_Throw fuel a args s e s' :
  setSelf atoms fuel a args s = Throw e s' ->
  e = NoAtomInit /\ selfReadWithoutValue atoms s'.
Proof.
  unfold setSelf. destruct (setAtomValue a (arg0 args) None s) as [next s1].
  destruct (getAtomState a s) as [prev|].
  - destruct (isEqualAtomValue prev next); [discriminate|].
    apply recomputeDependents_Throw.
  - apply recomputeDependents_Throw.
Qed.

Lemma evalWrite_Throw fuel rec atom :
  (forall a args s e s', rec a args s = Throw e s' -> writeError atoms e s') ->
  forall body s e s',
    evalWrite atoms fuel rec atom body s = Throw e s' -> writeError atoms e s'.
Proof.
  intros Hrec. induction body as [result|a k IH|a args k IH]; simpl;
    intros s e s' Hrun.
  - discriminate.
  - apply bind_Throw in Hrun as [Hr|(st & s1 & _ & Hrest)]; [|eapply IH; exact Hrest].
    right. now apply readAtomState_Throw in Hr.
  - destruct (decide (a = atom)) as [->|Hne].
    + apply bind_Throw in Hrun as [Hr|(u & s1 & _ & Hrest)]; [|eapply IH; exact Hrest].
      right. now apply setSelf_Throw in Hr.
    + apply bind_Throw in Hrun as [Hr|(r & s1 & _ & Hrest)]; [|eapply IH; exact Hrest].
      now apply Hrec in Hr.
Qed.

Lemma writeAtomState_Throw fuel : forall atom args s e s',
  writeAtomState atoms fuel atom args s = Throw e s' -> writeError atoms e s'.
Proof.
  induction fuel as [|fuel IH]; simpl; intros atom args s e s' Hrun;
    [discriminate|].
  destruct (write (atoms atom)) as [w|].
  - eapply evalWrite_Throw; [|exact Hrun]. intros a args0 s0 e0 s1. apply IH.
  - injection Hrun as <- <-. now left.
Qed.

Lemma writeThenFlush_Throw fuel flush atom args s e s' :
  (forall s e s', flush s = Throw e s' -> writeError atoms e s') ->
  writeThenFlush atoms fuel flush atom args s = Throw e s' -> writeError atoms e s'.
Proof.
  unfold writeThenFlush. intros Hflush Hrun.
  apply bind_Throw in Hrun as [Hr|(r & s1 & _ & Hrest)].
  - now apply writeAtomState_Throw in Hr.
  - apply bind_Throw in Hrest as [Hf|(u & s2 & _ & Hok)]; [|discriminate].
    now apply Hflush in Hf.
Qed.

Lemma flushPending_Throw fuel : forall s e s',
  flushPending atoms listeners fuel s = Throw e s' -> writeError atoms e s'.
Proof.
  induction fuel as [|fuel IH]; intros s e s' Hrun; [discriminate|].
  cbn [flushPending] in Hrun.
  destruct (pendingMap s) as [|entry pending]; [discriminate|].
  apply bind_Throw in Hrun as [Hr|(u & s1 & _ & Hrest)]; [|now apply IH in Hrest].
  unfold flushRound in Hr. apply forEach_Throw in Hr as (en & s0 & _ & Hen).
  unfold flushEntry in Hen. destruct (shouldNotify _ _ _); [|discriminate].
  apply forEach_Throw in Hen as (f & s1 & _ & Hf).
  unfold runListener in Hf. apply forEach_Throw in Hf as (c & s2 & _ & Hc).
  destruct c as [a|a args].
  - apply bind_Throw in Hc as [Hr|(st & s3 & _ & Hok)]; [|discriminate].
    right. now apply readAtomState_Throw in Hr.
  - apply bind_Throw in Hc as [Hr|(st & s3 & _ & Hok)]; [|discriminate].
    eapply writeThenFlush_Throw; [|exact Hr]. apply IH.
Qed.

Lemma writeAtom_Throw fuel atom args s e s' :
  writeAtom atoms listeners fuel atom args s = Throw e s' -> writeError atoms e s'.
Proof. apply writeThenFlush_Throw, flushPending_Throw. Qed.

End Errors.

Lemma readAtom_Throw atoms fuel atom s e s' :
  readAtom atoms fuel atom s = Throw e s' <->
  readAtomState atoms fuel atom false s = Throw e s'.
Proof.
  unfold readAtom. destruct (readAtomState atoms fuel atom false s); simpl;
    split; intros H; try discriminate; injection H as <- <-; reflexivity.
Qed.



(** * The setter on the cell being written *)

Lemma traceFrom_log T e s : traceFrom T s -> traceFrom T (log e s).
Proof. intros [evs H]. exists (evs ++ [e]). simpl. now rewrite H, app_assoc. Qed.

Lemma traceFrom_set T a value deps s :
  traceFrom T s -> traceFrom T (setAtomValue a value deps s).2.
Proof. unfold traceFrom. now rewrite setAtomValue_trace. Qed.

Lemma traceFrom_clear T s : traceFrom T s -> traceFrom T (clearPending s).
Proof. exact id. Qed.

Lemma forEach_Ok_elem {A} (I : Store -> Prop) (f : A -> Store -> Res unit) xs x :
  (forall y s s', I s -> f y s = Ok tt s' -> I s') ->
  x ∈ xs ->
  forall s s', I s -> forEach f xs s = Ok tt s' ->
    exists s1 s2, I s1 /\ f x s1 = Ok tt s2.
Proof.
  intros Hf Hx. induction xs as [|y xs IH]; [now apply elem_of_nil in Hx|].
  intros s s' Hs Hrun. simpl in Hrun.
  apply bind_Ok in Hrun as ([] & s1 & Hy & Hrest).
  apply elem_of_cons in Hx as [->|Hx]; [eauto|].
  apply (IH Hx s1 s'); [|exact Hrest]. now apply (Hf y s).
Qed.

Lemma reach_trans M a b c : reach M a b -> reach M b c -> reach M a c.
Proof.
  induction 1 as [a m b Ha Hb|a m x b Ha Hx Hxb IH]; intros Hbc.
  - now apply reach_more with m b.
  - apply reach_more with m x; auto.
Qed.

Lemma reach_first M a b :
  reach M a b -> exists m c, M !! a = Some m /\ c ∈ t m /\ (c = b \/ reach M c b).
Proof. intros [a' m b' Hm Hb|a' m c b' Hm Hc Hcb]; exists m; eauto. Qed.

Section Setter.

Variable atoms : AtomRef -> AtomConfig.

(** [recomputeDependents(a)] is visible in the trace. *)
Lemma recomputeDependents_logs fuel a s s' :
  final (recomputeDependents atoms fuel a s) = Some s' ->
  traceFrom (trace s ++ [EvRecompute a]) s'.
Proof.
  destruct fuel as [|fuel]; [discriminate|]. simpl.
  apply forEach_final; [|exists []; simpl; now rewrite app_nil_r].
  intros dependent s1 s2 _ Hs1 Hone. unfold recomputeOne in Hone.
  set (T := trace s ++ [EvRecompute a]) in *.
  assert (Hread : forall s3 s4, traceFrom T s3 ->
            final (readAtomState atoms fuel dependent true s3) = Some s4 ->
            traceFrom T s4).
  { intros s3 s4. apply (readAtomState_inv' atoms (traceFrom T)).
    - intros e s5. apply traceFrom_log.
    - intros b value deps s5. apply traceFrom_set. }
  assert (Hrec : forall s3 s4, traceFrom T s3 ->
            final (recomputeDependents atoms fuel dependent s3) = Some s4 ->
            traceFrom T s4).
  { intros s3 s4. apply (recomputeDependents_inv atoms (traceFrom T)).
    - intros e s5. apply traceFrom_log.
    - intros b value deps s5. apply traceFrom_set. }
  apply final_bind in Hone as [([] & s3 & Hrd & Hr)|(e & Hrd)].
  - eapply Hrec; [|exact Hr].
    destruct (decide (dependent = a)); [congruence|].
    apply bind_Ok in Hrd as (st & s4 & Hrd & Hok).
    assert (s4 = s3) as -> by congruence.
    eapply Hread; [exact Hs1|now rewrite Hrd].
  - destruct (decide (dependent = a)); [discriminate|].
    apply bind_Throw in Hrd as [Hrd|(st & s4 & _ & Hok)]; [|discriminate].
    eapply Hread; [exact Hs1|now rewrite Hrd].
Qed.

(** A plain or forced read of [x] keeps the state object of every other
    cached cell. *)
Lemma readAtomState_keeps_other fuel x force b st s s' :
  x <> b -> getAtomState b s = Some st ->
  final (readAtomState atoms fuel x force s) = Some s' ->
  getAtomState b s' = Some st.
Proof.
  intros Hne Hst Hfin.
  apply (readAtomState_inv atoms (fun s0 => getAtomState b s0 = Some st)
           (fun c => c <> b) ) with (fuel := fuel) (atom := x) (force := force) (s := s);
    auto.
  - intros c value deps s0 Hc Hs0. now rewrite setAtomValue_other.
  - intros c s0 Hs0 Hc ->. congruence.
Qed.

(** [recomputeDependents(A)] keeps the state object of a cached cell that
    the dependents sets do not make reachable from [A]. *)
Lemma recomputeDependents_keeps_unreached M b st fuel : forall A s s',
  mountedMap s = M -> ~ reach M A b -> getAtomState b s = Some st ->
  final (recomputeDependents atoms fuel A s) = Some s' ->
  mountedMap s' = M /\ getAtomState b s' = Some st.
Proof.
  induction fuel as [|fuel IH]; simpl; intros A s s' HM Hun Hst Hfin; [discriminate|].
  rewrite HM in Hfin. revert Hfin.
  apply (forEach_final (fun s0 => mountedMap s0 = M /\ getAtomState b s0 = Some st));
    [|now split].
  intros x s0 s1 Hx [HM0 Hst0] Hone.
  destruct (M !! A) as [m|] eqn:Hm; [|now apply elem_of_nil in Hx].
  assert (Hxb : x <> b) by (intros ->; apply Hun; now apply reach_one with m).
  assert (Hunx : ~ reach M x b) by (intros H; apply Hun; now apply reach_more with m x).
  assert (Hread : forall s2,
            final (readAtomState atoms fuel x true s0) = Some s2 ->
            mountedMap s2 = M /\ getAtomState b s2 = Some st).
  { intros s2 Hr. split.
    - now apply (readAtomState_mountedMap atoms M fuel x true s0 s2 HM0).
    - now apply (readAtomState_keeps_other fuel x true b st s0 s2). }
  unfold recomputeOne in Hone.
  apply final_bind in Hone as [([] & s3 & Hrd & Hrec)|(e & Hrd)].
  - assert (mountedMap s3 = M /\ getAtomState b s3 = Some st) as [HM3 Hst3].
    { destruct (decide (x = A)); [injection Hrd as <-; now split|].
      apply bind_Ok in Hrd as (stx & s4 & Hr & Hok). injection Hok as <-.
      apply Hread. now rewrite Hr. }
    now apply (IH x s3 s1).
  - destruct (decide (x = A)); [discriminate|].
    apply bind_Throw in Hrd as [Hr|(stx & s4 & _ & Hok)]; [|discriminate].
    apply Hread. now rewrite Hr.
Qed.

(** [recomputeDependents(A)] follows every dependents set it meets: when it
    returns, the dependents sets lead from [A] back to [A] by no path. *)
Lemma recomputeDependents_acyclic M fuel : forall A s s',
  mountedMap s = M ->
  recomputeDependents atoms fuel A s = Ok tt s' -> ~ reach M A A.
Proof.
  induction fuel as [|fuel IH]; intros A s s' HM Hrun Hcycle; [discriminate|].
  cbn [recomputeDependents] in Hrun.
  change (mountedMap (log (EvRecompute A) s)) with (mountedMap s) in Hrun.
  rewrite HM in Hrun.
  assert (Hnext : exists m c, M !! A = Some m /\ c ∈ t m /\ reach M c c).
  { destruct (reach_first M A A Hcycle) as (m & c & Hm & Hc & [Heq|Hcb]).
    - exists m, c. split; [exact Hm|]. split; [exact Hc|].
      pose proof Hcycle as H'. rewrite <- Heq in H'. exact H'.
    - exists m, c. split; [exact Hm|]. split; [exact Hc|].
      apply reach_trans with A; [exact Hcb|]. now apply reach_one with m. }
  destruct Hnext as (m & c & Hm & Hc & Hcc). rewrite Hm in Hrun.
  assert (Hstep : forall y s0 s1,
            mountedMap s0 = M ->
            recomputeOne atoms fuel (recomputeDependents atoms fuel) A y s0 = Ok tt s1 ->
            mountedMap s1 = M).
  { intros y s0 s1 HM0 Hone.
    unfold recomputeOne in Hone. apply bind_Ok in Hone as ([] & s3 & Hrd & Hrec).
    assert (HM3 : mountedMap s3 = M).
    { destruct (decide (y = A)); [congruence|].
      apply bind_Ok in Hrd as (st & s4 & Hr & Hok). injection Hok as <-.
      apply (readAtomState_mountedMap atoms M fuel y true s0 s4 HM0). now rewrite Hr. }
    apply (recomputeDependents_mountedMap atoms M fuel y s3 s1 HM3). now rewrite Hrec. }
  destruct (forEach_Ok_elem (fun s0 => mountedMap s0 = M) _ (t m) c Hstep Hc
              (log (EvRecompute A) s) s' HM Hrun) as (s1 & s2 & HM1 & Hone).
  unfold recomputeOne in Hone. apply bind_Ok in Hone as ([] & s3 & Hrd & Hrec).
  apply (IH c s3 s2); [|exact Hrec|exact Hcc].
  destruct (decide (c = A)); [congruence|].
  apply bind_Ok in Hrd as (st & s4 & Hr & Hok). injection Hok as <-.
  apply (readAtomState_mountedMap atoms M fuel c true s1 s4 HM1). now rewrite Hr.
Qed.

(** The setter called on the cell being written, whatever the cell: when it
    returns, the state table holds [args[0]] as it is (the recomputation of
    the dependents has not replaced it), and [recomputeDependents] was
    entered exactly when the table held no state or another value. *)
Lemma setSelf_spec fuel a args s s' :
  setSelf atoms fuel a args s = Ok tt s' ->
  (v <$> getAtomState a s') = Some (arg0 args) /\
  exists evs, trace s' = trace s ++ evs /\
    (EvRecompute a ∈ evs <-> (v <$> getAtomState a s) <> Some (arg0 args)).
Proof.
  unfold setSelf.
  pose proof (setAtomValue_installed a (arg0 args) None s) as [Hinst Hv].
  pose proof (setAtomValue_trace a (arg0 args) None s) as Htr.
  pose proof (setAtomValue_mountedMap a (arg0 args) None s) as HM.
  destruct (setAtomValue a (arg0 args) None s) as [next s1] eqn:Hset.
  cbn [fst snd] in *. intros Hrun.
  assert (Hrec : recomputeDependents atoms fuel a s1 = Ok tt s' ->
            (v <$> getAtomState a s') = Some (arg0 args) /\
            exists evs, trace s' = trace s ++ evs /\ EvRecompute a ∈ evs).
  { intros Hrec. split.
    - pose proof (recomputeDependents_acyclic (mountedMap s1) fuel a s1 s'
                    eq_refl Hrec) as Hacyclic.
      destruct (recomputeDependents_keeps_unreached (mountedMap s1) a next fuel a s1 s'
                  eq_refl Hacyclic Hinst) as [_ ->]; [now rewrite Hrec|].
      simpl. now rewrite Hv.
    - assert (traceFrom (trace s1 ++ [EvRecompute a]) s') as [evs Hevs].
      { apply (recomputeDependents_logs fuel a s1). now rewrite Hrec. }
      exists (EvRecompute a :: evs). rewrite Hevs, Htr, <- app_assoc.
      split; [reflexivity|left]. }
  destruct (getAtomState a s) as [prev|] eqn:Hprev; simpl.
  - revert Hrun. unfold isEqualAtomValue, Object_is. rewrite Hv.
    case_bool_decide as Heq.
    + intros [= <-]. split; [rewrite Hinst; simpl; now rewrite Hv|].
      exists []. rewrite app_nil_r. split; [now rewrite Htr|].
      split; [intros H; now apply elem_of_nil in H|]. intros H. now rewrite Heq in H.
    + intros Hrun. apply Hrec in Hrun as (Hval & evs & Hevs & Hin).
      split; [exact Hval|]. exists evs. split; [exact Hevs|].
      split; [intros _ [= H]; contradiction|auto].
  - apply Hrec in Hrun as (Hval & evs & Hevs & Hin).
    split; [exact Hval|]. exists evs. split; [exact Hevs|]. split; [discriminate|auto].
Qed.

Variable W : AtomRef.
Variable i : Value.
Hypothesis W_read : read (atoms W) = RGet W RRet.
Hypothesis W_init : init (atoms W) = Some i.

(** Reading a primitive cell: the cached state if there is one (a forced
    read re-runs the read function and gets the same value back), else a
    state for [init]. *)
Lemma readAtomState_primitive fuel force s :
  readAtomState atoms (S fuel) W force s =
    match getAtomState W s with
    | Some st => Ok st (if force then log (EvRead W) s else s)
    | None =>
        Ok (mkAtomState [(W, None)] i)
           (setAtomState W (mkAtomState [(W, None)] i) (log (EvRead W) s))
    end.
Proof.
  cbn [readAtomState]. rewrite W_read. cbn [evalRead].
  rewrite decide_True by reflexivity.
  change (getAtomState W (log (EvRead W) s)) with (getAtomState W s).
  destruct (getAtomState W s) as [st|] eqn:Hst.
  - destruct force; [|reflexivity]. cbn [evalRead]. unfold setAtomValue.
    change (getAtomState W (log (EvRead W) s)) with (getAtomState W s).
    rewrite Hst. unfold isEqualAtomValue, Object_is, returnAtomValue. simpl.
    now rewrite (bool_decide_eq_true_2 (v st = v st) eq_refl).
  - rewrite W_init. cbn [evalRead]. unfold setAtomValue.
    change (getAtomState W (log (EvRead W) s)) with (getAtomState W s).
    now rewrite Hst.
Qed.

Lemma readAtomState_keepsState M st fuel a force s s' :
  keepsState W M st s ->
  final (readAtomState atoms fuel a force s) = Some s' -> keepsState W M st s'.
Proof.
  intros Hs Hfin. destruct (decide (a = W)) as [->|Hne].
  - destruct fuel as [|fuel]; [discriminate|].
    rewrite readAtomState_primitive in Hfin. destruct Hs as [HM Hst].
    rewrite Hst in Hfin. simpl in Hfin. injection Hfin as <-.
    now destruct force.
  - eapply (readAtomState_inv atoms (keepsState W M st) (fun b => b <> W));
      try eassumption.
    + intros b s1 _ H. exact H.
    + intros b value deps s1 Hb [HM Hst]. split.
      * now rewrite setAtomValue_mountedMap.
      * now rewrite setAtomValue_other.
    + intros b s1 [_ Hst] Hb ->. congruence.
    + auto.
Qed.

Lemma recomputeDependents_keepsState M st fuel a s s' :
  keepsState W M st s ->
  final (recomputeDependents atoms fuel a s) = Some s' -> keepsState W M st s'.
Proof.
  intros Hs. apply (recomputeDependents_inv_gen atoms (keepsState W M st) (fun _ => True));
    auto.
  - intros fuel0 b b' s1 s2 Hs1 _ _ _. now apply readAtomState_keepsState.
  - intros s1 s2 [H1 _] [H2 _]. congruence.
Qed.

(** The setter called on the primitive cell it was built for. *)
Lemma setSelf_primitive fuel args s s' :
  setSelf atoms fuel W args s = Ok tt s' ->
  (v <$> getAtomState W s') = Some (arg0 args) /\
  exists evs, trace s' = trace s ++ evs /\
    (EvRecompute W ∈ evs <-> (v <$> getAtomState W s) <> Some (arg0 args)).
Proof.
  unfold setSelf.
  pose proof (setAtomValue_installed W (arg0 args) None s) as [Hinst Hv].
  pose proof (setAtomValue_trace W (arg0 args) None s) as Htr.
  destruct (setAtomValue W (arg0 args) None s) as [next s1] eqn:Hset.
  simpl in Hinst, Hv, Htr.
  assert (Hrec : recomputeDependents atoms fuel W s1 = Ok tt s' ->
            (v <$> getAtomState W s') = Some (arg0 args) /\
            exists evs, trace s' = trace s ++ evs /\ EvRecompute W ∈ evs).
  { intros Hrun. split.
    - assert (keepsState W (mountedMap s1) next s') as [_ ->].
      { eapply recomputeDependents_keepsState; [now split|now rewrite Hrun]. }
      simpl. now rewrite Hv.
    - assert (traceFrom (trace s1 ++ [EvRecompute W]) s') as [evs Hevs].
      { apply (recomputeDependents_logs fuel W s1). now rewrite Hrun. }
      exists (EvRecompute W :: evs). rewrite Hevs, Htr, <- app_assoc.
      split; [reflexivity|left]. }
  destruct (getAtomState W s) as [prev|] eqn:Hprev; simpl.
  - unfold isEqualAtomValue, Object_is. rewrite Hv. case_bool_decide as Heq.
    + intros [= <-]. split; [now rewrite Hinst; simpl; rewrite Hv|].
      exists []. rewrite app_nil_r. split; [now rewrite Htr|].
      split; [intros H; now apply elem_of_nil in H|]. intros H. now rewrite Heq in H.
    + intros Hrun. apply Hrec in Hrun as (Hval & evs & Hevs & Hin).
      split; [exact Hval|]. exists evs. split; [exact Hevs|].
      split; [intros _ [= H]; contradiction|auto].
  - intros Hrun. apply Hrec in Hrun as (Hval & evs & Hevs & Hin).
    split; [exact Hval|]. exists evs. split; [exact Hevs|].
    split; [discriminate|auto].
Qed.

End Setter.

(** [set(cell, arg)] on a cell built by [atom(i)], when it returns. *)
Lemma writeAtomState_primitive_spec
    (atoms : AtomRef -> AtomConfig) (fns : nat -> Value -> Value)
    (fuel : nat) (W : AtomRef) (i arg r : Value) (s s' : Store) :
  atoms W = atom fns W (inl i) None ->
  writeAtomState atoms fuel W [arg] s = Ok r s' ->
  let current := from_option v i (getAtomState W s) in
  let next := match arg with VFun f => fns f current | _ => arg end in
  let previous :=
    match arg with VFun _ => Some current | _ => v <$> getAtomState W s end in
  (v <$> getAtomState W s') = Some next /\
  exists evs, trace s' = trace s ++ evs /\
    (EvRecompute W ∈ evs <-> previous <> Some next).
Proof.
  intros Hatom Hrun.
  assert (W_read : read (atoms W) = RGet W RRet) by now rewrite Hatom.
  assert (W_init : init (atoms W) = Some i) by now rewrite Hatom.
  destruct fuel as [|fuel]; [discriminate|]. cbn [writeAtomState] in Hrun.
  replace (write (atoms W)) with (Some (defaultWrite fns W)) in Hrun
    by now rewrite Hatom.
  assert (Hdirect : forall x,
    evalWrite atoms fuel (writeAtomState atoms fuel) W (WSet W [x] WRet) s = Ok r s' ->
    (v <$> getAtomState W s') = Some x /\
    exists evs, trace s' = trace s ++ evs /\
      (EvRecompute W ∈ evs <-> (v <$> getAtomState W s) <> Some x)).
  { intros x Hx. cbn [evalWrite] in Hx. rewrite decide_True in Hx by reflexivity.
    apply bind_Ok in Hx as ([] & s1 & Hself & Hret). injection Hret as _ <-.
    now apply (setSelf_primitive atoms W i W_read W_init) in Hself. }
  destruct arg as [|n|o|f]; try (now apply Hdirect).
  unfold defaultWrite in Hrun. cbn [arg0 hd evalWrite] in Hrun.
  apply bind_Ok in Hrun as (aState & s1 & Hget & Hrun).
  rewrite decide_True in Hrun by reflexivity.
  apply bind_Ok in Hrun as ([] & s2 & Hself & Hret). injection Hret as _ <-.
  apply (setSelf_primitive atoms W i W_read W_init) in Hself
    as (Hval & evs & Htr & Hiff).
  destruct fuel as [|fuel]; [discriminate|].
  rewrite (readAtomState_primitive atoms W i W_read W_init) in Hget.
  cbn [arg0 hd returnAtomValue] in *.
  destruct (getAtomState W s) as [st|] eqn:Hst; injection Hget as <- <-; simpl.
  - split; [exact Hval|]. exists evs. split; [exact Htr|].
    rewrite Hiff, Hst. reflexivity.
  - split; [exact Hval|]. exists (EvRead W :: evs). split.
    { rewrite Htr. simpl. now rewrite <- app_assoc. }
    rewrite elem_of_cons, Hiff. unfold getAtomState. simpl.
    rewrite lookup_insert_eq. simpl. split; [intros [[=]|H]; exact H|auto].
Qed.

(** [set(cell, arg)] on a cell built by [atom(i)] that does not change the
    value returns, whatever the mount table. *)
Lemma writeAtomState_primitive_unchanged
    (atoms : AtomRef -> AtomConfig) (fns : nat -> Value -> Value)
    (fuel : nat) (W : AtomRef) (i arg : Value) (s : Store) :
  atoms W = atom fns W (inl i) None ->
  let current := from_option v i (getAtomState W s) in
  let next := match arg with VFun f => fns f current | _ => arg end in
  let previous :=
    match arg with VFun _ => Some current | _ => v <$> getAtomState W s end in
  previous = Some next ->
  exists s', writeAtomState atoms (S (S fuel)) W [arg] s = Ok VUndefined s'.
Proof.
  intros Hatom current next previous Hsame.
  assert (W_read : read (atoms W) = RGet W RRet) by now rewrite Hatom.
  assert (W_init : init (atoms W) = Some i) by now rewrite Hatom.
  cbn [writeAtomState].
  replace (write (atoms W)) with (Some (defaultWrite fns W)) by now rewrite Hatom.
  assert (Hself : forall x s0,
    (v <$> getAtomState W s0) = Some x -> setSelf atoms (S fuel) W [x] s0 = Ok tt s0).
  { intros x s0 Hx. unfold setSelf. change (arg0 [x]) with x. unfold setAtomValue.
    destruct (getAtomState W s0) as [prev|]; [|discriminate]. injection Hx as Hx.
    unfold isEqualAtomValue, Object_is. simpl.
    rewrite bool_decide_eq_true_2 by exact Hx. simpl.
    now rewrite bool_decide_eq_true_2 by reflexivity. }
  assert (Hdirect : forall x,
    (v <$> getAtomState W s) = Some x ->
    evalWrite atoms (S fuel) (writeAtomState atoms (S fuel)) W (WSet W [x] WRet) s
      = Ok VUndefined s).
  { intros x Hx. cbn [evalWrite]. rewrite decide_True by reflexivity.
    now rewrite Hself. }
  subst current next previous.
  destruct arg as [|n|o|f]; try (eexists; now apply Hdirect).
  unfold defaultWrite. cbn [arg0 hd evalWrite].
  rewrite (readAtomState_primitive atoms W i W_read W_init).
  destruct (getAtomState W s) as [st|] eqn:Hst; cbn [bind from_option] in *;
    unfold returnAtomValue; cbn [v]; rewrite decide_True by reflexivity.
  - rewrite Hself; [simpl; eauto|]. rewrite Hst. exact Hsame.
  - rewrite Hself; [simpl; eauto|]. unfold getAtomState. simpl.
    rewrite lookup_insert_eq. exact Hsame.
Qed.

(** C3 fails as stated: the setter does not apply an updater function; the
    default write function of [atom(initialValue)] does, before it calls the
    setter.  [echo] hands its arguments to the setter unchanged, and
    [set(echo, (prev) => prev + 1)] leaves the function itself in the state
    table, where applying it to the current value 0 would give 1. *)
Lemma C3_counterexample :
  App.get App.echo createStore
    = Ok (VNum 0) (App.after (App.get App.echo createStore)) /\
  App.fns 0 (VNum 0) = VNum 1 /\
  App.set App.echo (VFun 0) createStore
    = Ok VUndefined (App.after (App.set App.echo (VFun 0) createStore)) /\
  (v <$> getAtomState App.echo (App.after (App.set App.echo (VFun 0) createStore)))
    = Some (VFun 0).
Proof. vm_compute. repeat split; reflexivity. Qed.

(** C3, amended: the setter, called on the cell being written, whatever
    write function the cell has, leaves its first argument in the state
    table as it is: that value is the one the table holds when the setter
    returns.  It runs [recomputeDependents(cell)] exactly when the table held
    no state for the cell or a value that is not [Object.is] the argument.
    For a cell built by [atom(i)] the default write function hands the setter
    the argument of [set], or [arg(get(cell))] when it is a function: a [set]
    that returns leaves that value in the table and has recomputed dependents
    exactly when the cached value the setter found ([previous]) is another
    one or absent; and when it is the same, [set] returns. *)
Theorem C3_setter_installs_and_recomputes
    (atoms : AtomRef -> AtomConfig) (fns : nat -> Value -> Value) (fuel : nat) :
  (forall a args s s',
     setSelf atoms fuel a args s = Ok tt s' ->
     (v <$> getAtomState a s') = Some (arg0 args) /\
     exists evs, trace s' = trace s ++ evs /\
       (EvRecompute a ∈ evs <-> (v <$> getAtomState a s) <> Some (arg0 args))) /\
  (forall W i arg s,
     atoms W = atom fns W (inl i) None ->
     let current := from_option v i (getAtomState W s) in
     let next := match arg with VFun f => fns f current | _ => arg end in
     let previous :=
       match arg with VFun _ => Some current | _ => v <$> getAtomState W s end in
     (forall r s',
        writeAtomState atoms fuel W [arg] s = Ok r s' ->
        (v <$> getAtomState W s') = Some next /\
        exists evs, trace s' = trace s ++ evs /\
          (EvRecompute W ∈ evs <-> previous <> Some next)) /\
     (previous = Some next ->
      exists s', writeAtomState atoms (S (S fuel)) W [arg] s = Ok VUndefined s')).
Proof.
  split; [intros a args s s'; apply setSelf_spec|].
  intros W i arg s Hatom. split.
  - intros r s' Hrun.
    exact (writeAtomState_primitive_spec atoms fns fuel W i arg r s s' Hatom Hrun).
  - exact (writeAtomState_primitive_unchanged atoms fns fuel W i arg s Hatom).
Qed.

(** The setter of [echo], a cell with a write function of its own, called
    with a function on a store where [echo] is mounted with a dependent; and
    [set(count, (prev) => prev + 1)] on a store that never read [count]. *)
Lemma C3_witness :
  ((v <$> getAtomState App.echo
            (App.after (setSelf Cases.echoAtoms 8 App.echo [VFun 0] Cases.echoMounted)))
     = Some (VFun 0) /\
   exists evs,
     trace (App.after (setSelf Cases.echoAtoms 8 App.echo [VFun 0] Cases.echoMounted))
       = trace Cases.echoMounted ++ evs /\
     (EvRecompute App.echo ∈ evs <->
      (v <$> getAtomState App.echo Cases.echoMounted) <> Some (VFun 0))) /\
  ((v <$> getAtomState App.count
            (App.after (writeAtomState App.atoms 8 App.count [VFun 0] createStore)))
     = Some (VNum 1) /\
   exists evs,
     trace (App.after (writeAtomState App.atoms 8 App.count [VFun 0] createStore))
       = trace createStore ++ evs /\
     (EvRecompute App.count ∈ evs <-> Some (VNum 0) <> Some (VNum 1))).
Proof.
  split.
  - apply (proj1 (C3_setter_installs_and_recomputes Cases.echoAtoms App.fns 8)
             App.echo [VFun 0] Cases.echoMounted).
    vm_compute. reflexivity.
  - apply (proj1 (proj2 (C3_setter_installs_and_recomputes App.atoms App.fns 8)
                    App.count (VNum 0) (VFun 0) createStore eq_refl) VUndefined).
    vm_compute. reflexivity.
Defined.

(** * Flush *)

Lemma recordsFrom_refl s : recordsFrom s s.
Proof. split; [|reflexivity]. exists []. now rewrite app_nil_r. Qed.

Lemma recordsFrom_log s0 e s : recordsFrom s0 s -> recordsFrom s0 (log e s).
Proof. exact id. Qed.

Lemma recordsFrom_set s0 a value deps s :
  recordsFrom s0 s -> recordsFrom s0 (setAtomValue a value deps s).2.
Proof.
  intros [(extra & Hp & Hextra) Hsame].
  destruct (setAtomValue_pending a value deps s)
    as [(Hpend & Hold)|(Hnew & Hdiff & Happ)].
  - split; [exists extra; now rewrite Hpend|].
    intros b Hb. rewrite Hpend in Hb. destruct (decide (b = a)) as [->|Hne].
    + destruct Hold as [Hold|Hold]; [|contradiction]. rewrite Hold. now apply Hsame.
    + rewrite setAtomValue_other by exact Hne. now apply Hsame.
  - split.
    + exists (extra ++ [(a, getAtomState a s)]). rewrite Happ, Hp, app_assoc.
      split; [reflexivity|]. apply Forall_app. split; [exact Hextra|].
      repeat constructor; simpl.
      * intros Hin. apply Hnew. rewrite Hp. unfold map_keys. rewrite fmap_app.
        apply elem_of_app. now left.
      * now apply Hsame.
    + intros b Hb. rewrite Happ in Hb. unfold map_keys in Hb. rewrite fmap_app in Hb.
      apply not_elem_of_app in Hb as [Hb1 Hb2].
      assert (b <> a) as Hne by (intros ->; apply Hb2; simpl; left).
      rewrite setAtomValue_other by exact Hne. now apply Hsame.
Qed.

(** The test of the flush, spelled out. *)
Lemma shouldNotify_spec prev mounted cur :
  shouldNotify prev mounted cur = true <->
  is_Some mounted /\
  exists c, cur = Some c /\ forall p, prev = Some p -> v p <> v c.
Proof.
  unfold shouldNotify, isEqualAtomValue, Object_is.
  destruct mounted as [m|]; [|split; [discriminate|intros [[? [=]] _]]].
  destruct cur as [c|]; [|split; [discriminate|intros (_ & c & [=] & _)]].
  destruct prev as [p|]; simpl.
  - rewrite negb_true_iff, bool_decide_eq_false. split.
    + intros Hne. split; [eauto|]. exists c. split; [reflexivity|]. now intros ? [= <-].
    + intros (_ & c' & [= <-] & H). now apply H.
  - split; [|reflexivity]. intros _. split; [eauto|]. exists c. now split.
Qed.

Section Flush.

Variable atoms : AtomRef -> AtomConfig.
Variable listeners : ListenerRef -> list Call.

Lemma flushPending_S fuel s :
  flushPending atoms listeners (S fuel) s =
    match pendingMap s with
    | [] => Ok tt s
    | _ =>
        let! _ := flushRound atoms listeners fuel (flushPending atoms listeners fuel)
                    (pendingMap s) (clearPending s) in
        flushPending atoms listeners fuel
    end.
Proof. cbn [flushPending]. now destruct (pendingMap s). Qed.

Lemma flushPending_drains fuel : forall s s',
  flushPending atoms listeners fuel s = Ok tt s' -> pendingMap s' = [].
Proof.
  induction fuel as [|fuel IH]; intros s s' Hrun; [discriminate|].
  cbn [flushPending] in Hrun.
  destruct (pendingMap s) as [|entry pending] eqn:Hp.
  - injection Hrun as <-. exact Hp.
  - apply bind_Ok in Hrun as ([] & s1 & _ & Hrest). now apply IH in Hrest.
Qed.

Lemma writeAtom_drains fuel atom args s r s' :
  writeAtom atoms listeners fuel atom args s = Ok r s' -> pendingMap s' = [].
Proof.
  unfold writeAtom, writeThenFlush. intros Hrun.
  apply bind_Ok in Hrun as (r0 & s1 & _ & Hrest).
  apply bind_Ok in Hrest as ([] & s2 & Hflush & Hok). injection Hok as _ <-.
  now apply flushPending_drains in Hflush.
Qed.

Lemma writeAtomState_recordsFrom fuel atom args s s' :
  final (writeAtomState atoms fuel atom args s) = Some s' -> recordsFrom s s'.
Proof.
  apply (writeAtomState_inv atoms (recordsFrom s)).
  - intros e s1. apply recordsFrom_log.
  - intros a value deps s1. apply recordsFrom_set.
  - apply recordsFrom_refl.
Qed.

Lemma readAtom_recordsFrom fuel atom s s' :
  final (readAtom atoms fuel atom s) = Some s' -> recordsFrom s s'.
Proof.
  apply (readAtom_inv atoms (recordsFrom s) (fun _ => True)).
  - intros a s1 _. apply recordsFrom_log.
  - intros a value deps s1 _. apply recordsFrom_set.
  - auto.
  - apply recordsFrom_refl.
Qed.

Hypothesis inert : forall f, listeners f = [].

Lemma flushRound_inert fuel flush pending : forall s,
  flushRound atoms listeners fuel flush pending s
    = Ok tt (withTrace s (notifications s pending)).
Proof.
  unfold flushRound.
  assert (Hls : forall a fs s,
    forEach (runListener atoms listeners fuel (writeThenFlush atoms fuel flush) a) fs s
      = Ok tt (withTrace s (EvListener a <$> fs))).
  { intros a fs. induction fs as [|f fs IH]; intros s; simpl.
    - unfold withTrace. rewrite app_nil_r. now destruct s.
    - unfold runListener at 1. rewrite inert. simpl. rewrite IH.
      unfold withTrace, log. simpl. now rewrite <- app_assoc. }
  induction pending as [|[a prev] pending IH]; intros s; simpl.
  - unfold withTrace. rewrite app_nil_r. now destruct s.
  - unfold flushEntry at 1. simpl.
    destruct (shouldNotify prev (mountedMap s !! a) (getAtomState a s)) eqn:Hn.
    + rewrite Hls. simpl. rewrite IH. unfold withTrace. simpl.
      now rewrite <- app_assoc.
    + simpl. apply IH.
Qed.

Lemma flushPending_inert fuel s :
  flushPending atoms listeners (S (S fuel)) s
    = Ok tt (withTrace (clearPending s) (notifications s (pendingMap s))).
Proof.
  rewrite flushPending_S. destruct (pendingMap s) as [|entry pending] eqn:Hp.
  - unfold withTrace, clearPending. simpl. rewrite app_nil_r.
    destruct s; simpl in *; now subst.
  - rewrite flushRound_inert. cbn [bind]. now rewrite flushPending_S.
Qed.

End Flush.




(** A listener that calls [store.get] on a cell never read enqueues that
    cell during the round; the loop runs a further round for it. *)
Lemma flush_second_round :
  let s1 := App.after (writeAtomState App.atoms 8 App.count [VNum 5] App.countWatchedBy20) in
  let s2 := App.after (flushRound App.atoms App.listeners 8
                         (flushPending App.atoms App.listeners 8)
                         (pendingMap s1) (clearPending s1)) in
  pendingMap s1 = [(App.count, None)] /\
  pendingMap s2 = [(App.flag, None)] /\
  trace s2 = trace s1 ++ [EvListener App.count 20; EvRead App.flag] /\
  exists s3, flushPending App.atoms App.listeners 8 s1 = Ok tt s3 /\
             pendingMap s3 = [] /\ trace s3 = trace s2.
Proof. vm_compute. repeat split; try reflexivity. eexists. repeat split; reflexivity. Qed.

(** * The [count] / [double] scenario *)

(** C4 fails as stated: on a new store, subscribing to [double] mounts it
    with no known dependency (it has no cached state yet), so [set(count, 5)]
    recomputes nothing and notifies nobody.  [get(double)] then computes 10,
    and the listener has not run, neither before nor after that [get]. *)
Lemma C4_counterexample :
  mountedMap (App.after (App.sub App.double 7 createStore))
    = {[ App.double := mkMounted [7] [] ]} /\
  App.fired App.double 7 (App.subscribedThenSet 5) = 0 /\
  App.get App.double (App.subscribedThenSet 5)
    = Ok (VNum 10) (App.after (App.get App.double (App.subscribedThenSet 5))) /\
  App.fired App.double 7 (App.after (App.get App.double (App.subscribedThenSet 5))) = 0.
Proof. vm_compute. repeat split; reflexivity. Qed.

(** C4, amended: when [double] has been read before it is subscribed (as
    [useAtomValue] does), the mount table records it as a dependent of
    [count]; then after [set(count, n)], [get(double)] returns [n * 2] without
    changing the store, and the listener of [double] has run exactly once. *)
Theorem C4_double_after_first_read (n : Z) :
  (t <$> mountedMap (App.readSubscribedThenSet n) !! App.count) = Some [App.double] /\
  App.get App.double (App.readSubscribedThenSet n)
    = Ok (VNum (n * 2)) (App.readSubscribedThenSet n) /\
  App.fired App.double 7 (App.readSubscribedThenSet n) = 1.
Proof.
  destruct n as [|p|p]; vm_compute; repeat split; reflexivity.
Qed.

(** * Mounting and unmounting *)

Lemma forEach_total {A} (I : Store -> Prop) (f : A -> Store -> Res unit) xs :
  (forall x s, x ∈ xs -> I s -> exists s', f x s = Ok tt s' /\ I s') ->
  forall s, I s -> exists s', forEach f xs s = Ok tt s' /\ I s'.
Proof.
  induction xs as [|x xs IH]; simpl; intros Hf s Hs; [eauto|].
  destruct (Hf x s) as (s1 & Hx & Hs1); [left|exact Hs|]. rewrite Hx. simpl.
  apply IH; [|exact Hs1]. intros y s0 Hy. apply Hf. now right.
Qed.

Lemma mountGrows_refl s : mountGrows s s.
Proof. intros b m Hb. exists m. now repeat split. Qed.

Lemma mountGrows_trans s1 s2 s3 :
  mountGrows s1 s2 -> mountGrows s2 s3 -> mountGrows s1 s3.
Proof.
  intros H12 H23 b m Hb. apply H12 in Hb as (m2 & Hb2 & Hl2 & Ht2).
  apply H23 in Hb2 as (m3 & Hb3 & Hl3 & Ht3).
  exists m3. repeat split; [exact Hb3|congruence|]. now transitivity (t m2).
Qed.

Lemma mountGrows_mounted s s' b :
  mountGrows s s' -> is_Some (mountedMap s !! b) -> is_Some (mountedMap s' !! b).
Proof. intros H [m Hb]. apply H in Hb as (m' & Hb' & _). eauto. Qed.

Lemma set_add_elem xs x y : y ∈ set_add xs x <-> y ∈ xs \/ y = x.
Proof.
  unfold set_add. destruct (decide (x ∈ xs)) as [Hin|Hnin].
  - split; [auto|]. intros [H| ->]; assumption.
  - rewrite elem_of_app, list_elem_of_singleton. reflexivity.
Qed.

Lemma set_delete_elem xs x y : y ∈ set_delete xs x <-> y ∈ xs /\ y <> x.
Proof. unfold set_delete. now rewrite list_elem_of_filter, (comm and). Qed.

Lemma mountGrows_add s a atom :
  mountGrows s (updMounted a (fun m => mkMounted (l m) (set_add (t m) atom)) s).
Proof.
  intros b m Hb. simpl. destruct (decide (b = a)) as [->|Hne].
  - rewrite lookup_alter_eq, Hb. simpl. eexists. split; [reflexivity|].
    split; [reflexivity|]. intros x Hx. simpl. apply set_add_elem. now left.
  - rewrite lookup_alter_ne by congruence. exists m. now repeat split.
Qed.

(** What [mountAtom(atom, initialDependent)] does when [atom] has no mount
    record: it ends with the record [{l: {}, t: {initialDependent}}] for
    [atom], keeps every earlier record (adding dependents only), keeps
    [depClosed], and leaves every recorded dependency of [atom] mounted with
    [atom] among its dependents. *)
Lemma mountAtom_spec fuel : forall atom initialDependent s s',
  mountedMap s !! atom = None ->
  mountAtom fuel atom initialDependent s = Ok tt s' ->
  mountedMap s' !! atom
    = Some (mkMounted [] (from_option (fun i => [i]) [] initialDependent)) /\
  mountGrows s s' /\
  (depClosed s -> depClosed s') /\
  (forall st b, getAtomState atom s = Some st -> b ∈ map_keys (d st) -> b <> atom ->
     exists m, mountedMap s' !! b = Some m /\ atom ∈ t m).
Proof.
  induction fuel as [|fuel IH]; intros atom i s s' Hnone Hrun; [discriminate|].
  cbn [mountAtom] in Hrun.
  apply bind_Ok in Hrun as ([] & s1 & Hloop & Hset). injection Hset as <-.
  set (deps := from_option (fun atomState => map_keys (d atomState)) []
                 (getAtomState atom s)) in *.
  (* the loop over the recorded dependencies *)
  assert (Hdeps : forall xs s0 s2,
    mountGrows s s0 -> (depClosed s -> depClosed s0) ->
    forEach (mountDep (mountAtom fuel) atom) xs s0 = Ok tt s2 ->
    mountGrows s s2 /\ (depClosed s -> depClosed s2) /\ mountGrows s0 s2 /\
    forall b, b ∈ xs -> b <> atom ->
      exists m, mountedMap s2 !! b = Some m /\ atom ∈ t m).
  { induction xs as [|x xs IHxs]; simpl; intros s0 s2 Hg Hc Hxs.
    - injection Hxs as <-. repeat split; try assumption; [apply mountGrows_refl|].
      intros b Hb. now apply elem_of_nil in Hb.
    - apply bind_Ok in Hxs as ([] & s3 & Hx & Hxs).
      assert (Hstep : mountGrows s0 s3 /\ (depClosed s0 -> depClosed s3) /\
                (x <> atom -> exists m, mountedMap s3 !! x = Some m /\ atom ∈ t m)).
      { unfold mountDep in Hx. destruct (mountedMap s0 !! x) as [mx|] eqn:Hmx.
        - injection Hx as <-. split; [apply mountGrows_add|]. split.
          + intros Hc0 a st b Ha Hst Hb. simpl in *.
            apply (mountGrows_mounted s0 _ b (mountGrows_add s0 x atom)).
            apply (Hc0 a st b); [|exact Hst|exact Hb].
            destruct (decide (a = x)) as [->|Hne]; [eauto|].
            now rewrite lookup_alter_ne in Ha by congruence.
          + intros _. simpl. rewrite lookup_alter_eq, Hmx. simpl.
            eexists. split; [reflexivity|]. simpl. apply set_add_elem. now right.
        - destruct (decide (x = atom)) as [->|Hne].
          + injection Hx as <-. split; [apply mountGrows_refl|]. split; [auto|].
            intros H. contradiction.
          + destruct (IH x (Some atom) s0 s3 Hmx Hx) as (Hrec & Hg3 & Hc3 & _).
            split; [exact Hg3|]. split; [exact Hc3|]. intros _.
            eexists. split; [exact Hrec|]. simpl. left. }
      destruct Hstep as (Hg3 & Hc3 & Hx3).
      destruct (IHxs s3 s2 (mountGrows_trans _ _ _ Hg Hg3) (fun H => Hc3 (Hc H)) Hxs)
        as (Hg2 & Hc2 & Hg32 & Hrest).
      split; [exact Hg2|]. split; [exact Hc2|].
      split; [now apply mountGrows_trans with s3|].
      intros b Hb Hne. apply elem_of_cons in Hb as [->|Hb]; [|now apply Hrest].
      destruct (Hx3 Hne) as (m & Hm & Hin). apply Hg32 in Hm as (m' & Hm' & _ & Hsub).
      exists m'. split; [exact Hm'|now apply Hsub]. }
  destruct (Hdeps deps s s1 (mountGrows_refl s) (fun H => H) Hloop)
    as (Hg & Hc & _ & Hall).
  assert (Hframe : sameButMount s s1).
  { apply (mountDeps_frame fuel atom deps). now rewrite Hloop. }
  destruct Hframe as (Hstates & _ & _).
  split; [simpl; now rewrite lookup_insert_eq|].
  split.
  { intros b m Hb. destruct (decide (b = atom)) as [->|Hne]; [congruence|].
    apply Hg in Hb as (m' & Hb' & Hl & Ht). exists m'. simpl.
    rewrite lookup_insert_ne by congruence. now repeat split. }
  split.
  { intros Hcl a st b Ha Hst Hb. simpl in *.
    unfold getAtomState in Hst. simpl in Hst. rewrite Hstates in Hst.
    destruct (decide (b = atom)) as [->|Hbne]; [rewrite lookup_insert_eq; eauto|].
    rewrite lookup_insert_ne by congruence.
    destruct (decide (a = atom)) as [->|Hane].
    - destruct (Hall b) as (m & Hm & _); [|exact Hbne|eauto].
      unfold deps, getAtomState. now rewrite Hst.
    - rewrite lookup_insert_ne in Ha by congruence.
      apply (Hc Hcl a st b Ha); [|exact Hb]. unfold getAtomState. now rewrite Hstates. }
  intros st b Hst Hb Hne. destruct (Hall b) as (m & Hm & Hin); [|exact Hne|].
  { unfold deps. now rewrite Hst. }
  exists m. simpl. rewrite lookup_insert_ne by congruence. now split.
Qed.

Lemma depClosed_updMounted a f s : depClosed s -> depClosed (updMounted a f s).
Proof.
  intros Hc x st b Hx Hst Hb. simpl in *.
  assert (Hdom : forall y, is_Some (alter f a (mountedMap s) !! y) <->
                           is_Some (mountedMap s !! y)).
  { intros y. destruct (decide (y = a)) as [->|Hne].
    - rewrite lookup_alter_eq. now rewrite fmap_is_Some.
    - now rewrite lookup_alter_ne by congruence. }
  apply Hdom. apply (Hc x st b); [now apply Hdom|exact Hst|exact Hb].
Qed.

Lemma mountGrows_listener s atom listener :
  mountGrows s s ->
  forall b, is_Some (mountedMap s !! b) ->
    is_Some (mountedMap
               (updMounted atom (fun m => mkMounted (set_add (l m) listener) (t m)) s) !! b).
Proof.
  intros _ b Hb. simpl. destruct (decide (b = atom)) as [->|Hne].
  - rewrite lookup_alter_eq. now rewrite fmap_is_Some.
  - now rewrite lookup_alter_ne by congruence.
Qed.

(** [sub(atom, listener)] that returns. *)
Lemma subscribeAtom_spec fuel atom listener s s' :
  subscribeAtom fuel atom listener s = Ok tt s' ->
  (exists m, mountedMap s' !! atom = Some m /\ listener ∈ l m) /\
  (forall b, is_Some (mountedMap s !! b) -> is_Some (mountedMap s' !! b)) /\
  (depClosed s -> depClosed s') /\
  (mountedMap s !! atom = None ->
   forall st b, getAtomState atom s = Some st -> b ∈ map_keys (d st) -> b <> atom ->
     exists m, mountedMap s' !! b = Some m /\ atom ∈ t m).
Proof.
  unfold subscribeAtom, addAtom. intros Hrun.
  apply bind_Ok in Hrun as ([] & s1 & Hadd & Hok). injection Hok as <-.
  assert (Hs1 : is_Some (mountedMap s1 !! atom) /\ mountGrows s s1 /\
            (depClosed s -> depClosed s1) /\
            (mountedMap s !! atom = None ->
             forall st b, getAtomState atom s = Some st -> b ∈ map_keys (d st) ->
               b <> atom -> exists m, mountedMap s1 !! b = Some m /\ atom ∈ t m)).
  { destruct (mountedMap s !! atom) as [m|] eqn:Hm.
    - injection Hadd as <-. split; [eauto|]. split; [apply mountGrows_refl|].
      split; [auto|discriminate].
    - apply mountAtom_spec in Hadd as (Hrec & Hg & Hc & Hdeps); [|exact Hm].
      split; [eauto|]. split; [exact Hg|]. split; [exact Hc|]. intros _. exact Hdeps. }
  destruct Hs1 as ([m Hm] & Hg & Hc & Hdeps).
  split.
  { simpl. rewrite lookup_alter_eq, Hm. simpl. eexists. split; [reflexivity|].
    simpl. apply set_add_elem. now right. }
  split.
  { intros b Hb. apply (mountGrows_listener s1 atom listener (mountGrows_refl s1)).
    now apply (mountGrows_mounted s s1). }
  split.
  { intros H. now apply depClosed_updMounted, Hc. }
  intros Hnone st b Hst Hb Hne.
  destruct (Hdeps Hnone st b Hst Hb Hne) as (mb & Hmb & Hin).
  exists mb. simpl. rewrite lookup_alter_ne by congruence. now split.
Qed.

(** On a dependency graph without cycles [sub] returns. *)
Lemma mountAtom_total (rank : AtomRef -> nat) (states : gmap AtomRef AtomState) :
  (forall a st b, states !! a = Some st -> b ∈ map_keys (d st) -> b <> a ->
                  rank b < rank a) ->
  forall fuel atom initialDependent s,
    atomStateMap s = states -> rank atom < fuel ->
    exists s', mountAtom fuel atom initialDependent s = Ok tt s'.
Proof.
  intros Hrank. induction fuel as [|fuel IH]; intros atom i s Hs Hlt; [lia|].
  cbn [mountAtom].
  destruct (forEach_total (fun s1 => atomStateMap s1 = states)
              (mountDep (mountAtom fuel) atom)
              (from_option (fun atomState => map_keys (d atomState)) []
                 (getAtomState atom s))) with (s := s) as (s1 & Hloop & _);
    [|exact Hs|rewrite Hloop; simpl; eauto].
  intros x s1 Hx Hs1. unfold mountDep.
  destruct (mountedMap s1 !! x); [eexists; split; [reflexivity|exact Hs1]|].
  destruct (decide (x = atom)) as [->|Hne]; [eauto|].
  destruct (IH x (Some atom) s1 Hs1) as (s2 & Hx2).
  { unfold getAtomState in Hx. rewrite Hs in Hx.
    destruct (states !! atom) as [st|] eqn:Hst; [|now apply elem_of_nil in Hx].
    simpl in Hx. specialize (Hrank atom st x Hst Hx Hne). lia. }
  exists s2. split; [exact Hx2|].
  assert (sameButMount s1 s2) as (H & _) by (apply (mountAtom_frame fuel x (Some atom));
                                            now rewrite Hx2).
  congruence.
Qed.

Lemma set_delete_idemp xs x : set_delete (set_delete xs x) x = set_delete xs x.
Proof.
  unfold set_delete. induction xs as [|y xs IH]; [reflexivity|].
  rewrite (filter_cons _ y xs). destruct (decide (y <> x)) as [Hy|Hy].
  - rewrite (filter_cons _ y). rewrite decide_True by exact Hy. now rewrite IH.
  - exact IH.
Qed.

(** [unmountAtom(atom)], record by record. *)
Lemma unmountAtom_lookup atom s b :
  mountedMap (unmountAtom atom s) !! b =
    if decide (b = atom) then None
    else if decide (b ∈ recordedDeps atom s)
         then (fun m => mkMounted (l m) (set_delete (t m) atom)) <$> mountedMap s !! b
         else mountedMap s !! b.
Proof.
  unfold unmountAtom, recordedDeps.
  set (s1 := mkStore _ (delete atom (mountedMap s)) _ _).
  change (getAtomState atom s1) with (getAtomState atom s).
  set (del := fun m => mkMounted (l m) (set_delete (t m) atom)).
  set (step := fun s0 a => if decide (a = atom) then s0 else updMounted a del s0).
  assert (Hdd : forall o : option Mounted, del <$> (del <$> o) = del <$> o).
  { intros [m|]; [|reflexivity]. simpl. unfold del. simpl.
    now rewrite set_delete_idemp. }
  assert (Hfold : forall ks s0,
    mountedMap (fold_left step ks s0) !! b =
      if decide (b = atom) then mountedMap s0 !! b
      else if decide (b ∈ ks) then del <$> mountedMap s0 !! b
           else mountedMap s0 !! b).
  { induction ks as [|k ks IH]; intros s0; cbn [fold_left].
    - destruct (decide (b = atom)); [reflexivity|].
      destruct (decide (b ∈ [])) as [H|H]; [now apply elem_of_nil in H|reflexivity].
    - rewrite IH. destruct (decide (b = atom)) as [->|Hb].
      + unfold step. destruct (decide (k = atom)); [reflexivity|].
        simpl. now rewrite lookup_alter_ne by congruence.
      + assert (Hstep : mountedMap (step s0 k) !! b =
                  if decide (b = k) then del <$> mountedMap s0 !! b
                  else mountedMap s0 !! b).
        { unfold step. destruct (decide (k = atom)) as [->|Hk].
          - now rewrite decide_False by exact Hb.
          - simpl. destruct (decide (b = k)) as [->|Hbk].
            + now rewrite lookup_alter_eq.
            + now rewrite lookup_alter_ne by congruence. }
        rewrite Hstep.
        destruct (decide (b = k)) as [->|Hbk].
        * rewrite (decide_True (P := k ∈ k :: ks)) by left.
          destruct (decide (k ∈ ks)); [apply Hdd|reflexivity].
        * destruct (decide (b ∈ ks)) as [Hin|Hnin].
          -- now rewrite (decide_True (P := b ∈ k :: ks)) by now right.
          -- rewrite (decide_False (P := b ∈ k :: ks)); [reflexivity|].
             intros [?|?]%elem_of_cons; congruence. }
  destruct (getAtomState atom s) as [st|] eqn:Hst; simpl.
  - fold del. fold step. rewrite Hfold. unfold s1. simpl.
    destruct (decide (b = atom)) as [->|Hb]; [now rewrite lookup_delete_eq|].
    now rewrite lookup_delete_ne by congruence.
  - unfold s1. simpl. destruct (decide (b = atom)) as [->|Hb].
    + now rewrite lookup_delete_eq.
    + rewrite lookup_delete_ne by congruence.
      destruct (decide (b ∈ [])) as [H|H]; [now apply elem_of_nil in H|reflexivity].
Qed.

(** C2 fails as stated, in both directions.  After [get(double)],
    [sub(double, 7)] and the returned unsubscribe, [count] still has a mount
    record although no cell has a listener left; and after [sub(double, 7)]
    on a new store followed by [get(double)], [double] has a listener and its
    cached state records [count], which has no mount record. *)
Lemma C2_counterexample :
  mountedMap App.doubleUnsubscribed = {[ App.count := mkMounted [] [] ]} /\
  mountedMap App.doubleSubscribedThenRead = {[ App.double := mkMounted [7] [] ]} /\
  recordedDeps App.double App.doubleSubscribedThenRead = [App.count].
Proof. vm_compute. repeat split; reflexivity. Qed.

(** C2, amended: what the mount table is kept to.  [sub(atom, listener)]
    that returns leaves [atom] mounted with the listener registered, keeps
    every mount record there was, and keeps the table closed under recorded
    dependencies if it was ([depClosed]); when it mounts [atom] anew, every
    other cell recorded as a dependency in the cached state of [atom] ends
    mounted with [atom] among its dependents.  On recorded dependencies
    without cycles it returns.  The unsubscribe removes the record of [atom]
    and takes [atom] out of the dependents of its recorded dependencies;
    every other record stays, whether or not a listener can still reach it. *)
Theorem C2_subscribe_and_unsubscribe :
  (forall fuel atom listener s s',
     subscribeAtom fuel atom listener s = Ok tt s' ->
     (exists m, mountedMap s' !! atom = Some m /\ listener ∈ l m) /\
     (forall b, is_Some (mountedMap s !! b) -> is_Some (mountedMap s' !! b)) /\
     (depClosed s -> depClosed s') /\
     (mountedMap s !! atom = None ->
      forall b, b ∈ recordedDeps atom s -> b <> atom ->
        exists m, mountedMap s' !! b = Some m /\ atom ∈ t m)) /\
  (forall (rank : AtomRef -> nat) fuel atom listener s,
     (forall a b, b ∈ recordedDeps a s -> b <> a -> rank b < rank a) ->
     rank atom < fuel ->
     exists s', subscribeAtom fuel atom listener s = Ok tt s') /\
  (forall atom s b,
     mountedMap (unsubscribe atom s) !! b =
       if decide (b = atom) then None
       else if decide (b ∈ recordedDeps atom s)
            then (fun m => mkMounted (l m) (set_delete (t m) atom))
                   <$> mountedMap s !! b
            else mountedMap s !! b).
Proof.
  split.
  { intros fuel atom listener s s' Hrun.
    apply subscribeAtom_spec in Hrun as (H1 & H2 & H3 & H4).
    repeat split; try assumption. intros Hnone b Hb Hne.
    unfold recordedDeps in Hb.
    destruct (getAtomState atom s) as [st|] eqn:Hst; [|now apply elem_of_nil in Hb].
    now apply (H4 Hnone st b). }
  split.
  { intros rank fuel atom listener s Hrank Hlt. unfold subscribeAtom, addAtom.
    destruct (mountedMap s !! atom); [simpl; eauto|].
    destruct (mountAtom_total rank (atomStateMap s)) with (fuel := fuel) (atom := atom)
      (initialDependent := @None AtomRef) (s := s) as (s1 & Hs1);
      [|reflexivity|exact Hlt|rewrite Hs1; simpl; eauto].
    intros a st b Hst Hb. apply Hrank. unfold recordedDeps, getAtomState.
    now rewrite Hst. }
  apply unmountAtom_lookup.
Qed.

(** [sub(double, 7)] after [get(double)]: both [double] and [count] end
    mounted, [double] as a dependent of [count]. *)
Lemma C2_witness :
  (exists m, mountedMap (App.after (App.sub App.double 7 App.doubleFresh)) !! App.double
               = Some m /\ 7 ∈ l m) /\
  (exists m, mountedMap (App.after (App.sub App.double 7 App.doubleFresh)) !! App.count
               = Some m /\ App.double ∈ t m).
Proof.
  destruct (proj1 C2_subscribe_and_unsubscribe 8 App.double 7 App.doubleFresh
              (App.after (App.sub App.double 7 App.doubleFresh)))
    as (H1 & _ & _ & H4); [vm_compute; reflexivity|].
  split; [exact H1|]. apply H4.
  - vm_compute. reflexivity.
  - vm_compute. left.
  - vm_compute. discriminate.
Defined.

(** * Propagation of a write *)

Lemma cachedStable_refl s : cachedStable s s.
Proof. now intros b st. Qed.

Lemma cachedStable_trans s1 s2 s3 :
  cachedStable s1 s2 -> cachedStable s2 s3 -> cachedStable s1 s3.
Proof. intros H12 H23 b st Hb. apply H23, H12, Hb. Qed.

Lemma readFrame_cachedStable s s' : readFrame s s' -> cachedStable s s'.
Proof. intros (_ & Hc & _) b st Hb. rewrite Hc; [exact Hb|eauto]. Qed.

(** [evalCached] looks at the cells the read function may read only; [Q] is
    an escape for cells whose state may differ. *)
Lemma evalCached_stable (Q : Prop) states1 states2 body value :
  evalCached states1 body = Some value ->
  (forall a st, mayRead body a -> states1 !! a = Some st ->
                states2 !! a = Some st \/ Q) ->
  evalCached states2 body = Some value \/ Q.
Proof.
  revert value. induction body as [x|a k IH]; simpl; intros value Hev Hsame.
  - now left.
  - destruct (states1 !! a) as [st|] eqn:Ha; [|discriminate].
    destruct (Hsame a st (mayRead_here a k) Ha) as [Ha2|HQ]; [|now right].
    rewrite Ha2. apply IH; [exact Hev|].
    intros b stb Hb. apply Hsame. now apply mayRead_later with (v st).
Qed.

Section ForcedRead.

Variable atoms : AtomRef -> AtomConfig.

(** A read function that does not read its own cell, run by
    [readAtomState]: the value handed to [setAtomValue] is the value of the
    read function on the values cached at that moment. *)
Lemma evalRead_value fuel D : forall body deps s st s',
  ~ mayRead body D ->
  evalRead atoms (fun a => readAtomState atoms fuel a false) D body deps s = Ok st s' ->
  exists value deps' s1,
    cachedStable s s1 /\
    setAtomValue D value (Some deps') s1 = (st, s') /\
    evalCached (atomStateMap s1) body = Some value.
Proof.
  induction body as [value|a k IH]; simpl; intros deps s st s' Hself Hrun.
  - exists value, deps, s. split; [apply cachedStable_refl|].
    destruct (setAtomValue D value (Some deps) s) as [st0 s0]. split; [congruence|done].
  - destruct (decide (a = D)) as [->|Hne]; [destruct Hself; constructor|].
    apply bind_Ok in Hrun as (aState & s2 & Hr & Hrest).
    apply IH in Hrest as (value & deps' & s1 & Hst & Hset & Hev).
    2:{ intros H. apply Hself. now apply mayRead_later with (returnAtomValue aState). }
    assert (Hs2 : cachedStable s s2).
    { apply readFrame_cachedStable.
      apply (readAtomState_readFrame atoms s fuel a s s2 (readFrame_refl s)).
      now rewrite Hr. }
    exists value, deps', s1. split; [now apply cachedStable_trans with s2|].
    split; [exact Hset|].
    apply readAtomState_Ok_cached in Hr. apply Hst in Hr.
    unfold getAtomState in Hr. now rewrite Hr.
Qed.

(** The forced recomputation of such a cell leaves it up to date and touches
    no other cached state. *)
Lemma readAtomState_forced_upToDate fuel D s st s' :
  ~ mayRead (read (atoms D)) D ->
  readAtomState atoms fuel D true s = Ok st s' ->
  upToDate atoms s' D /\
  (forall b stb, b <> D -> getAtomState b s = Some stb -> getAtomState b s' = Some stb).
Proof.
  intros Hself Hrun. destruct fuel as [|fuel]; [discriminate|].
  cbn [readAtomState] in Hrun.
  assert (Hev : evalRead atoms (fun a => readAtomState atoms fuel a false) D
                  (read (atoms D)) [] (log (EvRead D) s) = Ok st s')
    by (destruct (getAtomState D s); exact Hrun).
  apply evalRead_value in Hev as (value & deps' & s1 & Hst & Hset & Hval);
    [|exact Hself].
  pose proof (setAtomValue_installed D value (Some deps') s1) as [Hinst Hv].
  rewrite Hset in Hinst, Hv. simpl in Hinst, Hv.
  assert (Hother : forall b, b <> D -> getAtomState b s' = getAtomState b s1).
  { intros b Hb. pose proof (setAtomValue_other D value (Some deps') s1 b Hb) as H.
    now rewrite Hset in H. }
  split.
  - exists st. split; [exact Hinst|]. rewrite Hv.
    destruct (evalCached_stable False (atomStateMap s1) (atomStateMap s')
                (read (atoms D)) value Hval) as [H|[]]; [|exact H].
    intros a sta Ha Hsta. left. destruct (decide (a = D)) as [->|Hne]; [contradiction|].
    specialize (Hother a Hne). unfold getAtomState in Hother. now rewrite Hother.
  - intros b stb Hb Hcached. rewrite Hother by exact Hb. now apply Hst.
Qed.

End ForcedRead.

Section Propagation.

Variable atoms : AtomRef -> AtomConfig.
Variable rank : AtomRef -> nat.
Variable M : gmap AtomRef Mounted.
Variable W : AtomRef.

(** The dependents sets have no cycle: dependents rank higher. *)
Hypothesis M_ranked : forall a m b, M !! a = Some m -> b ∈ t m -> rank a < rank b.

(** They are derived cells: their read functions do not read their own cell. *)
Hypothesis affected_derived : forall X, reach M W X -> ~ mayRead (read (atoms X)) X.

(** The dependents sets cover what they read: a cell reachable from [W] that
    may read another one is listed as its dependent. *)
Hypothesis affected_covered : forall X a,
  reach M W X -> mayRead (read (atoms X)) a -> reach M W a ->
  exists m, M !! a = Some m /\ X ∈ t m.

Lemma reach_rank a b : reach M a b -> rank a < rank b.
Proof.
  induction 1 as [a m b Ha Hb|a m c b Ha Hc _ IH].
  - now apply M_ranked with m.
  - pose proof (M_ranked a m c Ha Hc). lia.
Qed.

Lemma reach_irrefl a : ~ reach M a a.
Proof. intros H. apply reach_rank in H. lia. Qed.

Lemma affected_step A b : A = W \/ reach M W A -> reach M A b -> reach M W b.
Proof. intros [->|HA] Hb; [exact Hb|]. now apply reach_trans with A. Qed.

(** An up-to-date affected cell stays up to date through a step that keeps
    the cached states of all cells but those reachable from [D] (or [D]
    itself, when [self] is set), unless the cell is itself reachable. *)
Lemma upToDate_kept (self : bool) D s s' X :
  reach M W D -> reach M W X ->
  (forall b st, getAtomState b s = Some st ->
     getAtomState b s' = Some st \/ (self = true /\ b = D) \/ reach M D b) ->
  upToDate atoms s X ->
  upToDate atoms s' X \/ (self = true /\ X = D) \/ reach M D X.
Proof.
  intros HD HX Hframe (st & Hst & Hev).
  destruct (Hframe X st Hst) as [Hst'|Hre]; [|now right].
  destruct (evalCached_stable ((self = true /\ X = D) \/ reach M D X)
              (atomStateMap s) (atomStateMap s') (read (atoms X)) (v st) Hev)
    as [Hev'|HQ]; [|left; now exists st|now right].
  intros a sta Ha Hsta. destruct (Hframe a sta Hsta) as [H|[[_ ->]|Hre]]; [now left|..].
  - destruct (affected_covered X D HX Ha HD) as (m & Hm & Hin).
    right. right. now apply reach_one with m.
  - assert (reach M W a) as Haff by (now apply reach_trans with D).
    destruct (affected_covered X a HX Ha Haff) as (m & Hm & Hin).
    right. right. apply reach_trans with a; [exact Hre|now apply reach_one with m].
Qed.

(** [recomputeDependents(A)] that returns keeps every cached state it does
    not reach, and leaves every cell it reaches up to date. *)
Lemma recomputeDependents_upToDate fuel : forall A s s',
  A = W \/ reach M W A ->
  mountedMap s = M ->
  recomputeDependents atoms fuel A s = Ok tt s' ->
  (forall b st, getAtomState b s = Some st ->
     getAtomState b s' = Some st \/ reach M A b) /\
  (forall X, reach M A X -> upToDate atoms s' X).
Proof.
  induction fuel as [|fuel IH]; intros A s s' HA HM Hrun; [discriminate|].
  cbn [recomputeDependents] in Hrun.
  change (mountedMap (log (EvRecompute A) s)) with (mountedMap s) in Hrun.
  rewrite HM in Hrun.
  set (ds := match M !! A with Some m => t m | None => [] end) in *.
  assert (Hedge : forall x, x ∈ ds -> exists m, M !! A = Some m /\ x ∈ t m).
  { intros x Hx. unfold ds in Hx. destruct (M !! A) as [m|]; [eauto|].
    now apply elem_of_nil in Hx. }
  assert (Hloop : forall xs s1 s2 (done : AtomRef -> Prop),
    (forall x, x ∈ xs -> x ∈ ds) ->
    mountedMap s1 = M ->
    (forall X, done X -> reach M W X /\ upToDate atoms s1 X) ->
    forEach (recomputeOne atoms fuel (recomputeDependents atoms fuel) A) xs s1
      = Ok tt s2 ->
    (forall b st, getAtomState b s1 = Some st ->
       getAtomState b s2 = Some st \/ exists x, x ∈ xs /\ (b = x \/ reach M x b)) /\
    (forall X, done X \/ (exists x, x ∈ xs /\ (X = x \/ reach M x X)) ->
       upToDate atoms s2 X)).
  { induction xs as [|x xs IHxs]; intros s1 s2 done Hsub HM1 Hdone Hxs.
    - injection Hxs as <-. split; [now left|].
      intros X [HX|(x & Hx & _)]; [now apply Hdone|now apply elem_of_nil in Hx].
    - cbn [forEach] in Hxs. apply bind_Ok in Hxs as ([] & s3 & Hone & Hrest).
      destruct (Hedge x) as (m & Hm & Hxm); [apply Hsub; left|].
      assert (Haffx : reach M W x).
      { apply (affected_step A x HA). now apply reach_one with m. }
      assert (Hne : x <> A).
      { intros ->. apply (reach_irrefl A). now apply reach_one with m. }
      unfold recomputeOne in Hone. rewrite decide_False in Hone by exact Hne.
      apply bind_Ok in Hone as ([] & s1' & Hread & Hrec).
      apply bind_Ok in Hread as (stx & s1'' & Hread & Hok). injection Hok as ->.
      assert (HM1' : mountedMap s1' = M).
      { apply (readAtomState_mountedMap atoms M fuel x true s1 s1' HM1).
        now rewrite Hread. }
      apply readAtomState_forced_upToDate in Hread as (Hupx & Hfr1);
        [|now apply affected_derived].
      destruct (IH x s1' s3 (or_intror Haffx) HM1' Hrec) as (Hfr2 & Hdonex).
      assert (HM3 : mountedMap s3 = M).
      { apply (recomputeDependents_mountedMap atoms M fuel x s1' s3 HM1').
        now rewrite Hrec. }
      (* the two steps as frames *)
      assert (Hf1 : forall b st, getAtomState b s1 = Some st ->
                getAtomState b s1' = Some st \/ (true = true /\ b = x) \/ reach M x b).
      { intros b st Hb. destruct (decide (b = x)) as [->|Hbx]; [now right; left|].
        left. now apply Hfr1. }
      assert (Hf2 : forall b st, getAtomState b s1' = Some st ->
                getAtomState b s3 = Some st \/ (false = true /\ b = x) \/ reach M x b).
      { intros b st Hb. destruct (Hfr2 b st Hb); [now left|now right; right]. }
      assert (Hx3 : upToDate atoms s3 x).
      { destruct (upToDate_kept false x s1' s3 x Haffx Haffx Hf2 Hupx)
          as [H|[[[=] _]|H]]; [exact H|]. now apply reach_irrefl in H. }
      set (done' := fun X => done X \/ X = x \/ reach M x X).
      assert (Hdone' : forall X, done' X -> reach M W X /\ upToDate atoms s3 X).
      { intros X [HX|[->|HX]].
        - destruct (Hdone X HX) as [HaffX HupX]. split; [exact HaffX|].
          destruct (upToDate_kept true x s1 s1' X Haffx HaffX Hf1 HupX)
            as [H|[[_ ->]|H]]; [|exact Hx3|now apply Hdonex].
          destruct (upToDate_kept false x s1' s3 X Haffx HaffX Hf2 H)
            as [H'|[[[=] _]|H']]; [exact H'|now apply Hdonex].
        - now split.
        - split; [now apply reach_trans with x|now apply Hdonex]. }
      destruct (IHxs s3 s2 done' (fun y Hy => Hsub y (list_elem_of_further _ _ _ Hy))
                  HM3 Hdone' Hrest) as (Hfr3 & Hall).
      split.
      + intros b st Hb. destruct (Hf1 b st Hb) as [Hb1|[[_ ->]|Hre]].
        * destruct (Hfr2 b st Hb1) as [Hb3|Hre].
          -- destruct (Hfr3 b st Hb3) as [Hb2|(y & Hy & Hby)]; [now left|].
             right. exists y. split; [now right|exact Hby].
          -- right. exists x. split; [left|now right].
        * right. exists x. split; [left|now left].
        * right. exists x. split; [left|now right].
      + intros X [HX|(y & Hy & HXy)].
        * apply Hall. left. now left.
        * apply elem_of_cons in Hy as [->|Hy].
          -- apply Hall. left. now right.
          -- apply Hall. right. now exists y. }
  destruct (Hloop ds (log (EvRecompute A) s) s' (fun _ => False)
              (fun x Hx => Hx) HM (fun X (H : False) => match H with end) Hrun)
    as (Hframe & Hall).
  split.
  - intros b st Hb. destruct (Hframe b st Hb) as [H|(x & Hx & Hbx)]; [now left|].
    right. destruct (Hedge x Hx) as (m & Hm & Hxm). destruct Hbx as [->|Hre].
    + now apply reach_one with m.
    + now apply reach_more with m x.
  - intros X HX. apply Hall. right. inversion HX as [a m b Hm Hb|a m c b Hm Hc Hcb]; subst.
    + exists X. split; [|now left]. unfold ds. now rewrite Hm.
    + exists c. split; [|now right]. unfold ds. now rewrite Hm.
Qed.

End Propagation.

(** ** Termination on ranked cells *)

Lemma readsBelow_mayRead rank r body a :
  readsBelow rank r body -> mayRead body a -> rank a < r.
Proof.
  intros Hb Hm. induction Hm as [a k|a k x b Hm IH]; inversion Hb; subst; auto.
Qed.

Section Termination.

Variable atoms : AtomRef -> AtomConfig.
Variable rank : AtomRef -> nat.
Hypothesis ranked : forall X, wellRanked atoms rank X.

Lemma readAtomState_total fuel : forall X force s,
  rank X < fuel -> exists st s', readAtomState atoms fuel X force s = Ok st s'.
Proof.
  induction fuel as [|fuel IH]; intros X force s Hlt; [lia|].
  destruct (ranked X) as [[Hread [i Hinit]]|Hbelow].
  - rewrite (readAtomState_primitive atoms X i Hread Hinit).
    destruct (getAtomState X s); eauto.
  - cbn [readAtomState].
    assert (Hev : forall body deps s0,
      readsBelow rank (rank X) body ->
      exists st s', evalRead atoms (fun a => readAtomState atoms fuel a false) X
                      body deps s0 = Ok st s').
    { intros body deps s0 Hb. revert deps s0.
      induction Hb as [value|a k Ha Hk IHk]; intros deps s0; simpl.
      - destruct (setAtomValue X value (Some deps) s0); eauto.
      - rewrite decide_False by (intros ->; lia).
        destruct (IH a false s0) as (st & s1 & Hr); [lia|]. rewrite Hr. simpl.
        apply IHk. }
    destruct (getAtomState X s); [destruct force|]; eauto.
Qed.

Variable M : gmap AtomRef Mounted.
Variable N : nat.
Hypothesis M_ranked : forall a m b, M !! a = Some m -> b ∈ t m -> rank a < rank b <= N.

Lemma recomputeDependents_total fuel : forall A s,
  mountedMap s = M -> rank A <= N -> 2 * N + 1 - rank A < fuel ->
  exists s', recomputeDependents atoms fuel A s = Ok tt s'.
Proof.
  induction fuel as [|fuel IH]; intros A s HM HA Hlt; [lia|].
  cbn [recomputeDependents].
  change (mountedMap (log (EvRecompute A) s)) with (mountedMap s). rewrite HM.
  destruct (forEach_total (fun s1 => mountedMap s1 = M)
              (recomputeOne atoms fuel (recomputeDependents atoms fuel) A)
              (match M !! A with Some m => t m | None => [] end))
    with (s := log (EvRecompute A) s) as (s' & Hrun & _); [|exact HM|eauto].
  intros x s1 Hx HM1.
  assert (Hrx : rank A < rank x <= N).
  { destruct (M !! A) as [m|] eqn:Hm; [now apply M_ranked with m|].
    now apply elem_of_nil in Hx. }
  unfold recomputeOne. rewrite decide_False by (intros ->; lia).
  destruct (readAtomState_total fuel x true s1) as (st & s2 & Hread); [lia|].
  rewrite Hread. cbn [bind].
  assert (HM2 : mountedMap s2 = M).
  { apply (readAtomState_mountedMap atoms M fuel x true s1 s2 HM1). now rewrite Hread. }
  destruct (IH x s2 HM2) as (s3 & Hrec); [lia|lia|].
  exists s3. split; [exact Hrec|].
  apply (recomputeDependents_mountedMap atoms M fuel x s2 s3 HM2). now rewrite Hrec.
Qed.

End Termination.

(** ** Every reachable cell is recomputed *)

Section Recomputed.

Variable atoms : AtomRef -> AtomConfig.
Variable M : gmap AtomRef Mounted.
Hypothesis M_irrefl : forall a m, M !! a = Some m -> a ∉ t m.

Lemma readAtomState_forced_logs fuel x s st s' :
  readAtomState atoms fuel x true s = Ok st s' ->
  exists evs, trace s' = trace s ++ EvRead x :: evs.
Proof.
  intros Hrun. destruct fuel as [|fuel]; [discriminate|].
  apply readAtomState_forced in Hrun as (value & deps & s1 & Hfr & Hset).
  destruct Hfr as (_ & _ & (evs & Ht & _) & _).
  exists evs. pose proof (setAtomValue_trace x value (Some deps) s1) as H.
  rewrite Hset in H. simpl in H, Ht. rewrite H, Ht. now rewrite <- app_assoc.
Qed.

Lemma recomputeDependents_rereads fuel : forall A s s',
  mountedMap s = M ->
  recomputeDependents atoms fuel A s = Ok tt s' ->
  exists evs, trace s' = trace s ++ evs /\ forall X, reach M A X -> EvRead X ∈ evs.
Proof.
  induction fuel as [|fuel IH]; intros A s s' HM Hrun; [discriminate|].
  cbn [recomputeDependents] in Hrun.
  change (mountedMap (log (EvRecompute A) s)) with (mountedMap s) in Hrun.
  rewrite HM in Hrun.
  set (ds := match M !! A with Some m => t m | None => [] end) in *.
  assert (Hloop : forall xs s1 s2,
    (forall x, x ∈ xs -> x <> A) ->
    mountedMap s1 = M ->
    forEach (recomputeOne atoms fuel (recomputeDependents atoms fuel) A) xs s1
      = Ok tt s2 ->
    exists evs, trace s2 = trace s1 ++ evs /\
      forall x X, x ∈ xs -> X = x \/ reach M x X -> EvRead X ∈ evs).
  { induction xs as [|x xs IHxs]; intros s1 s2 Hne HM1 Hxs.
    - injection Hxs as <-. exists []. rewrite app_nil_r. split; [reflexivity|].
      intros x X Hx. now apply elem_of_nil in Hx.
    - cbn [forEach] in Hxs. apply bind_Ok in Hxs as ([] & s3 & Hone & Hrest).
      unfold recomputeOne in Hone. rewrite decide_False in Hone by (apply Hne; left).
      apply bind_Ok in Hone as ([] & s1' & Hread & Hrec).
      apply bind_Ok in Hread as (stx & s1'' & Hread & Hok). injection Hok as ->.
      assert (HM1' : mountedMap s1' = M).
      { apply (readAtomState_mountedMap atoms M fuel x true s1 s1' HM1).
        now rewrite Hread. }
      assert (HM3 : mountedMap s3 = M).
      { apply (recomputeDependents_mountedMap atoms M fuel x s1' s3 HM1').
        now rewrite Hrec. }
      apply readAtomState_forced_logs in Hread as (e1 & Ht1).
      apply IH in Hrec as (e2 & Ht2 & Hin2); [|exact HM1'].
      destruct (IHxs s3 s2 (fun y Hy => Hne y (list_elem_of_further _ _ _ Hy)) HM3 Hrest)
        as (e3 & Ht3 & Hin3).
      exists ((EvRead x :: e1) ++ e2 ++ e3). split.
      + rewrite Ht3, Ht2, Ht1. now rewrite <- !app_assoc.
      + intros y X Hy HX. apply elem_of_cons in Hy as [->|Hy].
        * destruct HX as [->|HX].
          -- apply elem_of_app. left. left.
          -- apply elem_of_app. right. apply elem_of_app. left. now apply Hin2.
        * apply elem_of_app. right. apply elem_of_app. right. now apply (Hin3 y). }
  destruct (Hloop ds (log (EvRecompute A) s) s') as (evs & Ht & Hin); [|exact HM|exact Hrun|].
  { intros x Hx ->. unfold ds in Hx. destruct (M !! A) as [m|] eqn:Hm.
    - now apply (M_irrefl A m).
    - now apply elem_of_nil in Hx. }
  exists (EvRecompute A :: evs). split.
  - rewrite Ht. simpl. now rewrite <- app_assoc.
  - intros X HX. right.
    inversion HX as [a m b Hm Hb|a m c b Hm Hc Hcb]; subst.
    + apply (Hin X X); [|now left]. unfold ds. now rewrite Hm.
    + apply (Hin c X); [|now right]. unfold ds. now rewrite Hm.
Qed.

End Recomputed.

(** ** The setter on a primitive cell whose value changes *)

Section WritePropagates.

Variable atoms : AtomRef -> AtomConfig.
Variable rank : AtomRef -> nat.
Variable M : gmap AtomRef Mounted.
Variable N : nat.
Variable W : AtomRef.
Variable i : Value.

Hypothesis W_read : read (atoms W) = RGet W RRet.
Hypothesis W_init : init (atoms W) = Some i.
Hypothesis ranked : forall X, wellRanked atoms rank X.
Hypothesis M_ranked : forall a m b, M !! a = Some m -> b ∈ t m -> rank a < rank b <= N.
Hypothesis W_rank : rank W <= N.

(** An up-to-date cell whose read function reads cells of lower rank holds
    a value that accounts for the one of [W], when every cell it may read is
    [W], is reachable from [W] (and then up to date), or does not read
    through to [W]. *)
Lemma upToDate_postWrite s :
  (forall X, reach M W X -> readsBelow rank (rank X) (read (atoms X))) ->
  (forall X a, reach M W X -> mayRead (read (atoms X)) a ->
     a = W \/ reach M W a \/ ~ readsThrough atoms a W) ->
  (forall X, reach M W X -> upToDate atoms s X) ->
  forall X, reach M W X ->
    exists st, getAtomState X s = Some st /\ postWrite atoms W s X (v st).
Proof.
  intros Hder Hclosed Hup.
  assert (Hind : forall n X, rank X < n -> reach M W X ->
            exists st, getAtomState X s = Some st /\ postWrite atoms W s X (v st)).
  { induction n as [|n IH]; intros X Hn HX; [lia|].
    destruct (Hup X HX) as (st & Hst & Hev). exists st. split; [exact Hst|].
    assert (HXW : X <> W).
    { intros ->. clear - M_ranked HX.
      assert (Hlt : forall a b, reach M a b -> rank a < rank b).
      { induction 1 as [a m b Ha Hb|a m c b Ha Hc _ IHr].
        - now apply (M_ranked a m b).
        - pose proof (M_ranked a m c Ha Hc). lia. }
      apply Hlt in HX. lia. }
    apply postWrite_computed; [exact HXW|].
    assert (Hbody : forall body value,
      readsBelow rank (rank X) body ->
      (forall a, mayRead body a -> a = W \/ reach M W a \/ ~ readsThrough atoms a W) ->
      evalCached (atomStateMap s) body = Some value ->
      postWriteRead atoms W s body value).
    { intros body value Hb. revert value.
      induction Hb as [x|a k Ha Hk IHk]; simpl; intros value Hcl Hval.
      - injection Hval as <-. constructor.
      - destruct (atomStateMap s !! a) as [sta|] eqn:Hsta; [|discriminate].
        apply postWriteRead_get with (v sta).
        + destruct (Hcl a (mayRead_here a k)) as [->|[Hra|Hno]].
          * apply postWrite_cached; [now left|exact Hsta].
          * destruct (IH a) as (st' & Hst' & Hpost); [lia|exact Hra|].
            unfold getAtomState in Hst'. rewrite Hsta in Hst'. now injection Hst' as <-.
          * apply postWrite_cached; [now right|exact Hsta].
        + apply IHk; [|exact Hval].
          intros b Hb'. apply Hcl. now apply mayRead_later with (v sta). }
    apply Hbody; [now apply Hder|intros a Ha; exact (Hclosed X a HX Ha)|exact Hev]. }
  intros X HX. apply (Hind (S (rank X))); [lia|exact HX].
Qed.

Lemma setSelf_propagates fuel x s :
  mountedMap s = M ->
  (v <$> getAtomState W s) <> Some x ->
  2 * N + 1 < fuel ->
  exists s',
    setSelf atoms fuel W [x] s = Ok tt s' /\
    (v <$> getAtomState W s') = Some x /\
    (exists evs, trace s' = trace s ++ evs /\ forall X, reach M W X -> EvRead X ∈ evs) /\
    ((forall X, reach M W X -> readsBelow rank (rank X) (read (atoms X))) ->
     (forall X a,
        reach M W X -> mayRead (read (atoms X)) a -> reach M W a ->
        exists m, M !! a = Some m /\ X ∈ t m) ->
     (forall X, reach M W X -> upToDate atoms s' X) /\
     ((forall X a, reach M W X -> mayRead (read (atoms X)) a ->
         a = W \/ reach M W a \/ ~ readsThrough atoms a W) ->
      forall X, reach M W X ->
        exists st, getAtomState X s' = Some st /\ postWrite atoms W s' X (v st))).
Proof.
  intros HM Hchanged Hfuel.
  assert (Hlt : forall a m b, M !! a = Some m -> b ∈ t m -> rank a < rank b)
    by (intros a m b Ha Hb; now apply M_ranked with m).
  assert (Hirr : forall a m, M !! a = Some m -> a ∉ t m).
  { intros a m Ha Hin. specialize (Hlt a m a Ha Hin). lia. }
  pose proof (setAtomValue_mountedMap W x None s) as HM1.
  pose proof (setAtomValue_trace W x None s) as Ht1.
  assert (Hrun : setSelf atoms fuel W [x] s
                 = recomputeDependents atoms fuel W (setAtomValue W x None s).2).
  { unfold setSelf. change (arg0 [x]) with x.
    pose proof (setAtomValue_installed W x None s) as [_ Hv].
    destruct (setAtomValue W x None s) as [next s1]. cbn [fst snd] in Hv |- *.
    destruct (getAtomState W s) as [prev|]; [|reflexivity].
    unfold isEqualAtomValue, Object_is. rewrite Hv.
    rewrite bool_decide_eq_false_2; [reflexivity|]. intros Heq. apply Hchanged.
    simpl. now rewrite Heq. }
  destruct (recomputeDependents_total atoms rank ranked M N M_ranked fuel W
              (setAtomValue W x None s).2) as (s' & Hrec); [congruence|exact W_rank|lia|].
  exists s'. split; [now rewrite Hrun|].
  split.
  { assert (Hself' : setSelf atoms fuel W [x] s = Ok tt s') by now rewrite Hrun.
    now apply (setSelf_primitive atoms W i W_read W_init) in Hself' as [H _]. }
  split.
  { destruct (recomputeDependents_rereads atoms M Hirr fuel W _ s'
                (eq_trans HM1 HM) Hrec) as (evs & Ht & Hin).
    exists evs. split; [now rewrite Ht, Ht1|exact Hin]. }
  intros affected_derived affected_covered.
  assert (Hself : forall X, reach M W X -> ~ mayRead (read (atoms X)) X).
  { intros X HX Hm. apply affected_derived in HX.
    pose proof (readsBelow_mayRead rank _ _ _ HX Hm). lia. }
  assert (Hup : forall X, reach M W X -> upToDate atoms s' X).
  { apply (recomputeDependents_upToDate atoms rank M W Hlt Hself affected_covered
             fuel W _ s' (or_introl eq_refl) (eq_trans HM1 HM) Hrec). }
  split; [exact Hup|].
  intros Hclosed. now apply upToDate_postWrite.
Qed.

End WritePropagates.



Lemma counterMounted_table :
  mountedMap App.counterMounted
    = <[App.count := mkMounted [] [App.double]]> {[ App.double := mkMounted [7] [] ]}.
Proof. vm_compute. reflexivity. Qed.

Lemma counterMounted_edge a m b :
  mountedMap App.counterMounted !! a = Some m -> b ∈ t m ->
  a = App.count /\ b = App.double.
Proof.
  rewrite counterMounted_table. intros Ha Hb.
  apply lookup_insert_Some in Ha as [[<- <-]|[Hne Ha]].
  - simpl in Hb. apply list_elem_of_singleton in Hb. now split.
  - apply lookup_singleton_Some in Ha as [<- <-]. now apply elem_of_nil in Hb.
Qed.

Lemma counterMounted_reach a b :
  reach (mountedMap App.counterMounted) a b -> a = App.count /\ b = App.double.
Proof.
  induction 1 as [a m b Ha Hb|a m c b Ha Hc _ IH].
  - now apply counterMounted_edge with m.
  - apply (counterMounted_edge a m c Ha) in Hc as [_ ->]. now destruct IH.
Qed.

Lemma counter_wellRanked X : wellRanked App.counterAtoms App.counterRank X.
Proof.
  destruct X as [|[|X]].
  - left. split; [reflexivity|]. simpl. eauto.
  - right. constructor; [simpl; lia|]. intros x. constructor.
  - left. split; [reflexivity|]. simpl. eauto.
Qed.

Lemma sumMounted_table :
  mountedMap Cases.sumMounted
    = <[App.count := mkMounted [] [App.double; Cases.sum]]>
        (<[App.double := mkMounted [] [Cases.sum]]>
           {[ Cases.sum := mkMounted [7] [] ]}).
Proof. vm_compute. reflexivity. Qed.

Lemma sumMounted_edge a m b :
  mountedMap Cases.sumMounted !! a = Some m -> b ∈ t m ->
  (a = App.count /\ (b = App.double \/ b = Cases.sum)) \/
  (a = App.double /\ b = Cases.sum).
Proof.
  rewrite sumMounted_table. intros Ha Hb.
  apply lookup_insert_Some in Ha as [[<- <-]|[_ Ha]].
  { left. split; [reflexivity|]. simpl in Hb.
    apply elem_of_cons in Hb as [->|Hb]; [now left|].
    apply list_elem_of_singleton in Hb. now right. }
  apply lookup_insert_Some in Ha as [[<- <-]|[_ Ha]].
  { right. split; [reflexivity|]. simpl in Hb. now apply list_elem_of_singleton in Hb. }
  apply lookup_singleton_Some in Ha as [<- <-]. now apply elem_of_nil in Hb.
Qed.

Lemma sumMounted_reach a b :
  reach (mountedMap Cases.sumMounted) a b ->
  (a = App.count /\ (b = App.double \/ b = Cases.sum)) \/
  (a = App.double /\ b = Cases.sum).
Proof.
  induction 1 as [a m b Ha Hb|a m c b Ha Hc _ IH].
  - now apply sumMounted_edge with m.
  - apply (sumMounted_edge a m c Ha) in Hc as [[-> [->| ->]]|[-> ->]].
    + destruct IH as [[[=] _]|[_ ->]]. left. split; [reflexivity|now right].
    + destruct IH as [[[=] _]|[[=] _]].
    + destruct IH as [[[=] _]|[[=] _]].
Qed.

Lemma sum_wellRanked X : wellRanked Cases.sumAtoms Cases.sumRank X.
Proof.
  destruct X as [|[|[|X]]].
  - left. split; [reflexivity|]. simpl. eauto.
  - right. constructor; [simpl; lia|]. intros x. constructor.
  - right. constructor; [simpl; lia|]. intros x.
    constructor; [simpl; lia|]. intros y. constructor.
  - left. split; [reflexivity|]. simpl. eauto.
Qed.

Lemma double_reads a : mayRead App.doubleRead a -> a = App.count.
Proof. intros H. inversion H as [a' k|a' k x b Hm]; subst; [reflexivity|inversion Hm]. Qed.

Lemma sum_reads a : mayRead Cases.sumRead a -> a = App.double \/ a = App.count.
Proof.
  intros H. inversion H as [a' k|a' k x b Hm]; subst; [now left|].
  inversion Hm as [a' k|a' k y b' Hm']; subst; [now right|inversion Hm'].
Qed.


(** The last condition is needed.  In [sumStale] the cell [sum] is a
    dependent of [count], but [double], which [sum] reads and which depends
    on [count], is not: [set(count, 5)] recomputes [sum] from the stale
    [double].  The value 5 it caches is up to date with respect to the cache,
    but it does not account for the new value of [count]: 15 does. *)
Lemma stale_dependency_is_not_postWrite :
  mountedMap Cases.sumStale
    = <[App.count := mkMounted [] [Cases.sum]]> {[ Cases.sum := mkMounted [7] [] ]} /\
  writeAtomState Cases.sumAtoms 8 App.count [VNum 5] Cases.sumStale
    = Ok VUndefined Cases.sumStaleWritten /\
  (v <$> getAtomState App.count Cases.sumStaleWritten) = Some (VNum 5) /\
  (v <$> getAtomState App.double Cases.sumStaleWritten) = Some (VNum 0) /\
  (v <$> getAtomState Cases.sum Cases.sumStaleWritten) = Some (VNum 5) /\
  upToDate Cases.sumAtoms Cases.sumStaleWritten Cases.sum /\
  (forall x, postWrite Cases.sumAtoms App.count Cases.sumStaleWritten Cases.sum x <->
             x = VNum 15).
Proof.
  split; [vm_compute; reflexivity|]. split; [vm_compute; reflexivity|].
  split; [vm_compute; reflexivity|]. split; [vm_compute; reflexivity|].
  split; [vm_compute; reflexivity|].
  split.
  { eexists. split; [vm_compute; reflexivity|]. vm_compute. reflexivity. }
  assert (Hcount : forall x,
    postWrite Cases.sumAtoms App.count Cases.sumStaleWritten App.count x -> x = VNum 5).
  { intros x H. inversion H as [a st _ Hst|a y Hne _]; subst; [|now destruct Hne].
    vm_compute in Hst. now injection Hst as <-. }
  assert (Hdc : readsThrough Cases.sumAtoms App.double App.count).
  { apply readsThrough_step with App.count; constructor. }
  assert (Hsc : readsThrough Cases.sumAtoms Cases.sum App.count).
  { apply readsThrough_step with App.double; [constructor|exact Hdc]. }
  assert (Hdouble : forall x,
    postWrite Cases.sumAtoms App.count Cases.sumStaleWritten App.double x -> x = VNum 10).
  { intros x H. inversion H as [a st Hor _|a y _ Hread]; subst.
    { destruct Hor as [[=]|Hno]. now destruct Hno. }
    change (read (Cases.sumAtoms App.double)) with App.doubleRead in Hread.
    inversion Hread as [|a k x0 y0 Hc Hk]; subst.
    apply Hcount in Hc as ->. simpl in Hk. now inversion Hk. }
  intros x. split.
  - intros H. inversion H as [a st Hor _|a y _ Hread]; subst.
    { destruct Hor as [[=]|Hno]. now destruct Hno. }
    change (read (Cases.sumAtoms Cases.sum)) with Cases.sumRead in Hread.
    inversion Hread as [|a k x0 y0 Hd Hk]; subst.
    apply Hdouble in Hd as ->.
    inversion Hk as [|a k' x1 y1 Hc Hk']; subst.
    apply Hcount in Hc as ->. simpl in Hk'. now inversion Hk'.
  - intros ->. apply postWrite_computed; [discriminate|].
    change (read (Cases.sumAtoms Cases.sum)) with Cases.sumRead.
    assert (Hc : postWrite Cases.sumAtoms App.count Cases.sumStaleWritten App.count
                   (VNum 5)).
    { apply (postWrite_cached Cases.sumAtoms App.count Cases.sumStaleWritten App.count
               (mkAtomState [] (VNum 5))); [now left|vm_compute; reflexivity]. }
    apply postWriteRead_get with (VNum 10).
    + apply postWrite_computed; [discriminate|].
      change (read (Cases.sumAtoms App.double)) with App.doubleRead.
      apply postWriteRead_get with (VNum 5); [exact Hc|constructor].
    + apply postWriteRead_get with (VNum 5); [exact Hc|constructor].
Qed.

(** * Further properties of the store

    Properties of [store.ts], [atom.ts], [hooks.ts] and the devtools that the
    code shows besides the ones above. *)

(** ** Invariants that tell listener events apart

    [I] is kept by the steps of the read path and of the write path; the
    call of a listener keeps it only for a listener that the mount table [M]
    registers. *)

Section ListenerInvariant.

Variable atoms : AtomRef -> AtomConfig.
Variable listeners : ListenerRef -> list Call.
Variable I : Store -> Prop.

Hypothesis I_read : forall a s, I s -> I (log (EvRead a) s).
Hypothesis I_recompute : forall a s, I s -> I (log (EvRecompute a) s).
Hypothesis I_set : forall a value deps s, I s -> I (setAtomValue a value deps s).2.

Lemma readAtomState_kept fuel atom force s s' :
  I s -> final (readAtomState atoms fuel atom force s) = Some s' -> I s'.
Proof.
  intros Hs Hfin.
  eapply (readAtomState_inv atoms I (fun _ => True)); eauto.
Qed.

Lemma recomputeDependents_kept fuel : forall atom s s',
  I s -> final (recomputeDependents atoms fuel atom s) = Some s' -> I s'.
Proof.
  induction fuel as [|fuel IH]; simpl; intros atom s s' Hs Hfin; [discriminate|].
  revert Hfin. apply forEach_final; [|apply I_recompute, Hs].
  intros dependent s0 s1 _ Hs0 Hone. unfold recomputeOne in Hone.
  apply final_bind in Hone as [([] & s2 & Hrd & Hrec)|(e & Hrd)].
  - eapply IH; [|exact Hrec].
    destruct (decide (dependent = atom)); [congruence|].
    apply bind_Ok in Hrd as (st & s3 & Hr & Hok).
    assert (s3 = s2) as -> by congruence.
    eapply readAtomState_kept; [exact Hs0|now rewrite Hr].
  - destruct (decide (dependent = atom)); [discriminate|].
    apply bind_Throw in Hrd as [Hr|(st & s3 & _ & Hok)]; [|discriminate].
    eapply readAtomState_kept; [exact Hs0|now rewrite Hr].
Qed.

Lemma setSelf_kept fuel a args s s' :
  I s -> final (setSelf atoms fuel a args s) = Some s' -> I s'.
Proof.
  unfold setSelf. intros Hs.
  pose proof (I_set a (arg0 args) None s Hs) as Hset.
  destruct (setAtomValue a (arg0 args) None s) as [next s1]; simpl in Hset.
  destruct (getAtomState a s) as [prev|].
  - destruct (isEqualAtomValue prev next); simpl.
    + congruence.
    + now apply recomputeDependents_kept.
  - now apply recomputeDependents_kept.
Qed.

Lemma evalWrite_kept fuel rec atom :
  (forall a args s s', I s -> final (rec a args s) = Some s' -> I s') ->
  forall body s s',
    I s -> final (evalWrite atoms fuel rec atom body s) = Some s' -> I s'.
Proof.
  intros Hrec. induction body as [result|a k IH|a args k IH]; simpl;
    intros s s' Hs Hfin.
  - congruence.
  - apply final_bind in Hfin as [(st & s1 & Hr & Hrest)|(e & Hr)].
    + eapply IH; [|exact Hrest]. eapply readAtomState_kept; [exact Hs|now rewrite Hr].
    + eapply readAtomState_kept; [exact Hs|now rewrite Hr].
  - destruct (decide (a = atom)) as [->|Hne].
    + apply final_bind in Hfin as [([] & s1 & Hr & Hrest)|(e & Hr)].
      * eapply IH; [|exact Hrest]. eapply setSelf_kept; [exact Hs|now rewrite Hr].
      * eapply setSelf_kept; [exact Hs|now rewrite Hr].
    + apply final_bind in Hfin as [(r & s1 & Hr & Hrest)|(e & Hr)].
      * eapply IH; [|exact Hrest]. eapply Hrec; [exact Hs|now rewrite Hr].
      * eapply Hrec; [exact Hs|now rewrite Hr].
Qed.

Lemma writeAtomState_kept fuel : forall atom args s s',
  I s -> final (writeAtomState atoms fuel atom args s) = Some s' -> I s'.
Proof.
  induction fuel as [|fuel IH]; simpl; intros atom args s s' Hs Hfin;
    [discriminate|].
  destruct (write (atoms atom)) as [w|]; [|simpl in Hfin; congruence].
  eapply evalWrite_kept; [|exact Hs|exact Hfin]. intros; eapply IH; eauto.
Qed.

Variable M : gmap AtomRef Mounted.

Hypothesis I_mounted : forall s, I s -> mountedMap s = M.
Hypothesis I_clear : forall s, I s -> I (clearPending s).
Hypothesis I_listener : forall a f m s,
  I s -> M !! a = Some m -> f ∈ l m -> I (log (EvListener a f) s).

Lemma runListener_kept fuel set atom f m :
  (forall a args s s', I s -> final (set a args s) = Some s' -> I s') ->
  M !! atom = Some m -> f ∈ l m ->
  forall s s', I s ->
    final (runListener atoms listeners fuel set atom f s) = Some s' -> I s'.
Proof.
  intros Hset Hm Hf s s' Hs. unfold runListener.
  apply forEach_final; [|now apply I_listener with m].
  intros [a|a args] s0 s1 _ Hs0 Hc.
  - apply final_bind in Hc as [(st & s2 & Hr & Hrest)|(e & Hr)].
    + assert (s2 = s1) as -> by (simpl in Hrest; congruence).
      eapply readAtomState_kept; [exact Hs0|now rewrite Hr].
    + eapply readAtomState_kept; [exact Hs0|now rewrite Hr].
  - apply final_bind in Hc as [(st & s2 & Hr & Hrest)|(e & Hr)].
    + assert (s2 = s1) as -> by (simpl in Hrest; congruence).
      eapply Hset; [exact Hs0|now rewrite Hr].
    + eapply Hset; [exact Hs0|now rewrite Hr].
Qed.

Lemma writeThenFlush_kept fuel flush atom args s s' :
  (forall s s', I s -> final (flush s) = Some s' -> I s') ->
  I s -> final (writeThenFlush atoms fuel flush atom args s) = Some s' -> I s'.
Proof.
  unfold writeThenFlush. intros Hflush Hs Hfin.
  apply final_bind in Hfin as [(r & s1 & Hr & Hrest)|(e & Hr)].
  - assert (I s1) as Hs1 by (eapply writeAtomState_kept; [exact Hs|now rewrite Hr]).
    apply final_bind in Hrest as [([] & s2 & Hf & Hok)|(e & Hf)].
    + assert (s2 = s') as -> by (simpl in Hok; congruence).
      eapply Hflush; [exact Hs1|now rewrite Hf].
    + eapply Hflush; [exact Hs1|now rewrite Hf].
  - eapply writeAtomState_kept; [exact Hs|now rewrite Hr].
Qed.

Lemma flushRound_kept fuel flush pending s s' :
  (forall s s', I s -> final (flush s) = Some s' -> I s') ->
  I s -> final (flushRound atoms listeners fuel flush pending s) = Some s' -> I s'.
Proof.
  intros Hflush Hs. unfold flushRound. apply forEach_final; [|exact Hs].
  intros entry s2 s3 _ Hs2. unfold flushEntry.
  rewrite (I_mounted s2 Hs2).
  destruct (M !! entry.1) as [m|] eqn:Hm;
    [|destruct (getAtomState entry.1 s2); simpl; congruence].
  destruct (shouldNotify _ _ _); [|simpl; congruence].
  apply forEach_final; [|exact Hs2]. intros f s4 s5 Hf.
  apply runListener_kept with m; [|exact Hm|exact Hf].
  intros a args s6 s7. now apply writeThenFlush_kept.
Qed.

Lemma flushPending_kept fuel : forall s s',
  I s -> final (flushPending atoms listeners fuel s) = Some s' -> I s'.
Proof.
  induction fuel as [|fuel IH]; intros s s' Hs Hfin; [discriminate|].
  cbn [flushPending] in Hfin.
  destruct (pendingMap s) as [|entry pending] eqn:Hp; [simpl in Hfin; congruence|].
  apply final_bind in Hfin as [([] & s1 & Hr & Hrest)|(e & Hr)].
  - eapply IH; [|exact Hrest].
    eapply flushRound_kept; [exact IH|apply I_clear, Hs|now rewrite Hr].
  - eapply flushRound_kept; [exact IH|apply I_clear, Hs|now rewrite Hr].
Qed.

Lemma writeAtom_kept fuel atom args s s' :
  I s -> final (writeAtom atoms listeners fuel atom args s) = Some s' -> I s'.
Proof. apply writeThenFlush_kept, flushPending_kept. Qed.

End ListenerInvariant.

Lemma callsRegistered_log M T e s :
  (forall a f, e = EvListener a f -> exists m, M !! a = Some m /\ f ∈ l m) ->
  callsRegistered M T s -> callsRegistered M T (log e s).
Proof.
  intros He (HM & evs & Ht & Hreg). split; [exact HM|].
  exists (evs ++ [e]). simpl. rewrite Ht, <- app_assoc. split; [reflexivity|].
  intros a f Hin. apply elem_of_app in Hin as [Hin|Hin]; [now apply Hreg|].
  apply list_elem_of_singleton in Hin. now apply He.
Qed.

Lemma writeAtom_callsRegistered atoms listeners fuel atom args s s' :
  final (writeAtom atoms listeners fuel atom args s) = Some s' ->
  callsRegistered (mountedMap s) (trace s) s'.
Proof.
  apply (writeAtom_kept atoms listeners
           (callsRegistered (mountedMap s) (trace s)) ) with (M := mountedMap s).
  - intros a s0. apply callsRegistered_log. discriminate.
  - intros a s0. apply callsRegistered_log. discriminate.
  - intros a value deps s0 (HM & Hev). split.
    + now rewrite setAtomValue_mountedMap.
    + now rewrite setAtomValue_trace.
  - now intros s0 [HM _].
  - now intros s0 H.
  - intros a f m s0 Hs0 Hm Hf. apply callsRegistered_log; [|exact Hs0].
    intros a' f' [= <- <-]. eauto.
  - split; [reflexivity|]. exists []. rewrite app_nil_r. split; [reflexivity|].
    intros a f H. now apply elem_of_nil in H.
Qed.

Lemma noListenerSince_log T e s :
  (forall a f, e <> EvListener a f) ->
  noListenerSince T s -> noListenerSince T (log e s).
Proof.
  intros He (evs & Ht & Hevs). exists (evs ++ [e]). simpl. rewrite Ht, <- app_assoc.
  split; [reflexivity|]. intros a f Hin. apply elem_of_app in Hin as [Hin|Hin].
  - now apply (Hevs a f).
  - apply list_elem_of_singleton in Hin. now destruct (He a f).
Qed.

Lemma writeAtomState_no_listener atoms fuel atom args s s' :
  final (writeAtomState atoms fuel atom args s) = Some s' ->
  noListenerSince (trace s) s'.
Proof.
  apply (writeAtomState_kept atoms (noListenerSince (trace s))).
  - intros a s0. now apply noListenerSince_log.
  - intros a s0. now apply noListenerSince_log.
  - intros a value deps s0 (evs & Ht & Hevs). exists evs.
    now rewrite setAtomValue_trace.
  - exists []. rewrite app_nil_r. split; [reflexivity|].
    intros a f H. now apply elem_of_nil in H.
Qed.

(** ** Reading *)

Lemma readAtom_Ok_cached atoms fuel atom s value s' :
  readAtom atoms fuel atom s = Ok value s' ->
  exists st, getAtomState atom s' = Some st /\ v st = value.
Proof.
  unfold readAtom. intros H. apply bind_Ok in H as (st & s1 & Hr & Hok).
  injection Hok as <- <-. exists st. split; [|reflexivity].
  now apply readAtomState_Ok_cached in Hr.
Qed.

(** X1: a [get] that returned leaves its atom cached with the value it
    returned; a second [get] returns the same value and leaves the store as
    it is. *)
Theorem X1_get_twice atoms fuel fuel' atom s value s' :
  readAtom atoms fuel atom s = Ok value s' ->
  (v <$> getAtomState atom s') = Some value /\
  readAtom atoms (S fuel') atom s' = Ok value s'.
Proof.
  intros H. apply readAtom_Ok_cached in H as (st & Hst & <-).
  rewrite Hst. split; [reflexivity|]. now apply readAtom_cached.
Qed.

(** [get(double)] twice on a new store. *)
Lemma X1_witness :
  readAtom App.atoms 8 App.double createStore = Ok (VNum 0) App.doubleFresh /\
  (v <$> getAtomState App.double App.doubleFresh) = Some (VNum 0) /\
  readAtom App.atoms 1 App.double App.doubleFresh = Ok (VNum 0) App.doubleFresh.
Proof.
  split; [vm_compute; reflexivity|].
  apply (X1_get_twice App.atoms 8 0 App.double createStore). vm_compute. reflexivity.
Defined.

(** X2: the first [get] of an atom whose read function does not read the
    atom itself returns the value of the read function on the values cached
    when it returns, and replaces no state object that was cached before. *)
Theorem X2_first_get_computes atoms fuel D s value s' :
  ~ mayRead (read (atoms D)) D ->
  getAtomState D s = None ->
  readAtom atoms fuel D s = Ok value s' ->
  evalCached (atomStateMap s') (read (atoms D)) = Some value /\
  (forall b st, getAtomState b s = Some st -> getAtomState b s' = Some st).
Proof.
  intros Hself Hnone H. unfold readAtom in H.
  apply bind_Ok in H as (st & s1 & Hr & Hok). injection Hok as <- <-.
  destruct fuel as [|fuel]; [discriminate|]. cbn [readAtomState] in Hr.
  rewrite Hnone in Hr.
  apply evalRead_value in Hr as (value & deps' & s2 & Hst & Hset & Hval);
    [|exact Hself].
  pose proof (setAtomValue_installed D value (Some deps') s2) as [Hinst Hv].
  rewrite Hset in Hinst, Hv. simpl in Hinst, Hv.
  assert (Hother : forall b, b <> D -> getAtomState b s1 = getAtomState b s2).
  { intros b Hb. pose proof (setAtomValue_other D value (Some deps') s2 b Hb) as H.
    now rewrite Hset in H. }
  split.
  - unfold returnAtomValue. rewrite Hv.
    destruct (evalCached_stable False (atomStateMap s2) (atomStateMap s1)
                (read (atoms D)) value Hval) as [H|[]]; [|exact H].
    intros a sta Ha Hsta. left. destruct (decide (a = D)) as [->|Hne]; [contradiction|].
    specialize (Hother a Hne). unfold getAtomState in Hother. now rewrite Hother.
  - intros b stb Hcached. destruct (decide (b = D)) as [->|Hne]; [congruence|].
    rewrite Hother by exact Hne. now apply Hst.
Qed.

Lemma double_not_self : ~ mayRead (read (App.atoms App.double)) App.double.
Proof.
  intros H. inversion H as [|a k x b Hm]. inversion Hm.
Qed.

(** The first [get(double)]. *)
Lemma X2_witness :
  evalCached (atomStateMap App.doubleFresh) (read (App.atoms App.double))
    = Some (VNum 0) /\
  (forall b st, getAtomState b createStore = Some st ->
                getAtomState b App.doubleFresh = Some st).
Proof.
  apply (X2_first_get_computes App.atoms 8 App.double createStore (VNum 0)).
  - exact double_not_self.
  - reflexivity.
  - vm_compute. reflexivity.
Defined.

Lemma atom_primitive_read fns W i w : read (atom fns W (inl i) w) = RGet W RRet.
Proof. now destruct w. Qed.

Lemma atom_primitive_init fns W i w : init (atom fns W (inl i) w) = Some i.
Proof. now destruct w. Qed.

(** X3: [get] on an atom built by [atom(initialValue)] (with or without a
    write function of its own) never throws: it returns the cached value,
    or, on the first read, the initial value, which it caches with the atom
    itself as only dependency and enqueues as pending. *)
Theorem X3_primitive_get atoms fns fuel W i w s :
  atoms W = atom fns W (inl i) w ->
  readAtom atoms (S fuel) W s =
    match getAtomState W s with
    | Some st => Ok (v st) s
    | None =>
        Ok i (mkStore (<[W := mkAtomState [(W, None)] i]> (atomStateMap s))
                (mountedMap s)
                (if map_has (pendingMap s) W then pendingMap s
                 else pendingMap s ++ [(W, None)])
                (trace s ++ [EvRead W]))
    end.
Proof.
  intros HW. unfold readAtom.
  rewrite (readAtomState_primitive atoms W i).
  - destruct (getAtomState W s) as [st|] eqn:Hc; [reflexivity|].
    cbn [bind returnAtomValue v]. unfold setAtomState. cbn.
    unfold getAtomState in Hc. rewrite Hc. reflexivity.
  - rewrite HW. apply atom_primitive_read.
  - rewrite HW. apply atom_primitive_init.
Qed.

(** The first [get(count)]. *)
Lemma X3_witness :
  readAtom App.atoms 1 App.count createStore
    = Ok (VNum 0) (App.after (App.get App.count createStore)).
Proof.
  rewrite (X3_primitive_get App.atoms App.fns 0 App.count (VNum 0) None createStore
             eq_refl).
  vm_compute. reflexivity.
Defined.

Lemma map_set_elem {V} (m : list (AtomRef * V)) k x a o :
  NoDup (map_keys m) ->
  (a, o) ∈ map_set m k x <-> (a = k /\ o = x) \/ (a <> k /\ (a, o) ∈ m).
Proof.
  induction m as [|[k' x'] m IH]; simpl; intros Hnd.
  - rewrite list_elem_of_singleton. split.
    + intros [= -> ->]. now left.
    + intros [[-> ->]|[_ H]]; [reflexivity|now apply elem_of_nil in H].
  - apply NoDup_cons in Hnd as [Hk' Hnd].
    destruct (decide (k' = k)) as [->|Hne].
    + rewrite !elem_of_cons. split.
      * intros [[= -> ->]|Hin]; [now left|]. right. split; [|now right].
        intros ->. apply Hk'. unfold map_keys. apply list_elem_of_fmap.
        exists (k, o). now split.
      * intros [[-> ->]|[Hak [[= -> ->]|Hin]]]; [now left|contradiction|now right].
    + rewrite !elem_of_cons, IH by exact Hnd. split.
      * intros [[= -> ->]|[[-> ->]|[Hak Hin]]]; [right|now left|right]; auto.
      * intros [[-> ->]|[Hak [[= -> ->]|Hin]]]; [right; now left|now left|].
        right. right. now split.
Qed.

Lemma map_set_keys {V} (m : list (AtomRef * V)) k x :
  NoDup (map_keys m) -> NoDup (map_keys (map_set m k x)).
Proof.
  induction m as [|[k' x'] m IH]; simpl; intros Hnd.
  - apply NoDup_singleton.
  - apply NoDup_cons in Hnd as [Hk' Hnd].
    destruct (decide (k' = k)) as [->|Hne]; simpl.
    + now apply NoDup_cons.
    + apply NoDup_cons. split; [|now apply IH].
      intros Hin. unfold map_keys in Hin.
      apply list_elem_of_fmap in Hin as ([a o] & Ha & Hin). simpl in Ha. subst a.
      apply map_set_elem in Hin as [[-> _]|[_ Hin]]; [congruence| |exact Hnd].
      apply Hk'. unfold map_keys. apply list_elem_of_fmap. exists (k', o). now split.
Qed.

Lemma readsCached_stable rank r states1 states2 body :
  readsBelow rank r body ->
  (forall a, rank a < r -> states2 !! a = states1 !! a) ->
  readsCached states2 body = readsCached states1 body.
Proof.
  intros Hb Hsame. induction Hb as [value|a k Ha Hk IH]; [reflexivity|].
  simpl. rewrite Hsame by exact Ha. f_equal.
  destruct (states1 !! a); [apply IH|reflexivity].
Qed.

Section Ranked.

Variable atoms : AtomRef -> AtomConfig.
Variable rank : AtomRef -> nat.
Hypothesis ranked : forall X, wellRanked atoms rank X.

(** A read touches the state of the atom read and of atoms below it. *)
Lemma readAtomState_below fuel : forall a force s s' b,
  final (readAtomState atoms fuel a force s) = Some s' ->
  rank a < rank b -> getAtomState b s' = getAtomState b s.
Proof.
  induction fuel as [|fuel IH]; intros a force s s' b Hfin Hlt; [discriminate|].
  destruct (ranked a) as [[Hread [i Hinit]]|Hbelow].
  - rewrite (readAtomState_primitive atoms a i Hread Hinit) in Hfin.
    assert (b <> a) by (intros ->; lia).
    destruct (getAtomState a s); simpl in Hfin; injection Hfin as <-.
    + now destruct force.
    + unfold getAtomState. simpl. now rewrite lookup_insert_ne.
  - cbn [readAtomState] in Hfin.
    assert (Hev : forall body deps s0,
      readsBelow rank (rank a) body ->
      final (evalRead atoms (fun x => readAtomState atoms fuel x false) a body deps s0)
        = Some s' ->
      getAtomState b s' = getAtomState b s0).
    { intros body deps s0 Hb. revert deps s0.
      induction Hb as [value|x k Hx Hk IHk]; intros deps s0 Hrun; simpl in Hrun.
      - pose proof (setAtomValue_other a value (Some deps) s0 b) as Hother.
        destruct (setAtomValue a value (Some deps) s0) as [st s1].
        simpl in Hrun, Hother. injection Hrun as <-. apply Hother.
        intros ->. lia.
      - rewrite decide_False in Hrun by (intros ->; lia).
        apply final_bind in Hrun as [(st & s1 & Hr & Hrest)|(e & Hr)].
        + rewrite (IHk _ _ _ Hrest). apply (IH x false s0 s1 b); [now rewrite Hr|lia].
        + apply (IH x false s0 s' b); [now rewrite Hr|lia]. }
    destruct (getAtomState a s) as [st|] eqn:Hst; [destruct force|].
    + now apply Hev in Hfin.
    + simpl in Hfin. congruence.
    + now apply Hev in Hfin.
Qed.

(** The run of a read function that reads atoms below [D] only: the
    dependency map handed to [setAtomValue]. *)
Lemma evalRead_deps fuel D : forall body deps s st s',
  readsBelow rank (rank D) body ->
  NoDup (map_keys deps) ->
  evalRead atoms (fun a => readAtomState atoms fuel a false) D body deps s = Ok st s' ->
  exists value deps' s1,
    cachedStable s s1 /\
    getAtomState D s1 = getAtomState D s /\
    setAtomValue D value (Some deps') s1 = (st, s') /\
    NoDup (map_keys deps') /\
    (forall a, a ∈ readsCached (atomStateMap s1) body -> is_Some (atomStateMap s1 !! a)) /\
    (forall a o, (a, o) ∈ deps' <->
       (a ∈ readsCached (atomStateMap s1) body /\ o = atomStateMap s1 !! a) \/
       ((a ∉ readsCached (atomStateMap s1) body) /\ (a, o) ∈ deps)).
Proof.
  intros body deps s st s' Hb. revert deps s.
  induction Hb as [value|x k Hx Hk IH]; intros deps s Hnd Hrun; simpl in Hrun.
  - exists value, deps, s. split; [apply cachedStable_refl|]. split; [reflexivity|].
    destruct (setAtomValue D value (Some deps) s) as [st0 s0].
    split; [congruence|]. split; [exact Hnd|]. split.
    + intros a H. now apply elem_of_nil in H.
    + intros a o. simpl. split.
      * intros Hin. right. split; [intros H; now apply elem_of_nil in H|exact Hin].
      * intros [[H _]|[_ H]]; [now apply elem_of_nil in H|exact H].
  - rewrite decide_False in Hrun by (intros ->; lia).
    apply bind_Ok in Hrun as (aState & s2 & Hr & Hrest).
    apply IH in Hrest as (value & deps' & s1 & Hst & HD & Hset & Hnd' & Hc & Hiff);
      [|now apply map_set_keys].
    assert (Hfin : final (readAtomState atoms fuel x false s) = Some s2)
      by now rewrite Hr.
    assert (Hs2 : cachedStable s s2).
    { apply readFrame_cachedStable.
      now apply (readAtomState_readFrame atoms s fuel x s s2 (readFrame_refl s)). }
    assert (Hx1 : atomStateMap s1 !! x = Some aState).
    { apply readAtomState_Ok_cached in Hr. now apply Hst in Hr. }
    exists value, deps', s1. split; [now apply cachedStable_trans with s2|].
    split; [rewrite HD; now apply (readAtomState_below fuel x false s s2 D)|].
    split; [exact Hset|]. split; [exact Hnd'|].
    assert (Hrc : forall a,
      a ∈ readsCached (atomStateMap s1) (RGet x k) <->
      a = x \/ a ∈ readsCached (atomStateMap s1) (k (returnAtomValue aState))).
    { intros a. simpl. rewrite Hx1. apply elem_of_cons. }
    split.
    + intros a Ha. apply Hrc in Ha as [->|Ha]; [now rewrite Hx1|now apply Hc].
    + intros a o. rewrite Hiff, Hrc.
      rewrite (map_set_elem deps x (Some aState) a o Hnd). split.
      * intros [[Hin Ho]|[Hn [[-> ->]|[Hne Hin]]]]; auto.
        right. split; [|exact Hin]. now intros [Ha|Ha].
      * intros [[[->|Hin] Ho]|[Hn Hin]]; auto.
        -- destruct (decide (x ∈ readsCached (atomStateMap s1)
                                 (k (returnAtomValue aState)))); [left|right]; [auto|].
           split; [assumption|]. left. split; congruence.
        -- right. split; [intros Ha; apply Hn; now right|]. right.
           split; [|exact Hin]. intros ->. apply Hn. now left.
Qed.

End Ranked.

(** X4: when every atom is primitive or reads atoms of lower rank only,
    [get] returns (it neither throws nor recurses for ever), its atom is
    cached with the returned value, and no cached state object is replaced. *)
Theorem X4_get_returns_on_acyclic_atoms atoms rank fuel X s :
  (forall Y, wellRanked atoms rank Y) ->
  rank X < fuel ->
  exists value s',
    readAtom atoms fuel X s = Ok value s' /\
    (v <$> getAtomState X s') = Some value /\
    (forall b st, getAtomState b s = Some st -> getAtomState b s' = Some st).
Proof.
  intros Hranked Hlt.
  destruct (readAtomState_total atoms rank Hranked fuel X false s Hlt) as (st & s' & Hr).
  exists (v st), s'. unfold readAtom. rewrite Hr. split; [reflexivity|].
  split; [now rewrite (readAtomState_Ok_cached atoms fuel X false s st s' Hr)|].
  apply readFrame_cachedStable.
  apply (readAtomState_readFrame atoms s fuel X s s' (readFrame_refl s)).
  now rewrite Hr.
Qed.

(** [get(double)] in the application of [count] and [double]. *)
Lemma X4_witness :
  exists value s',
    readAtom App.counterAtoms 2 App.double createStore = Ok value s' /\
    (v <$> getAtomState App.double s') = Some value /\
    (forall b st, getAtomState b createStore = Some st ->
                  getAtomState b s' = Some st).
Proof.
  apply (X4_get_returns_on_acyclic_atoms App.counterAtoms App.counterRank 2
           App.double createStore).
  - exact counter_wellRanked.
  - simpl. lia.
Defined.

(** X5: on such atoms, the dependency map [d] that the first [get] of a
    derived atom records holds exactly the atoms the read function called
    the getter on, each once, each with the state object cached for it when
    [get] returns; the atom itself is not among them. *)
Theorem X5_first_get_records_what_was_read atoms rank fuel D s value s' :
  (forall X, wellRanked atoms rank X) ->
  readsBelow rank (rank D) (read (atoms D)) ->
  getAtomState D s = None ->
  readAtom atoms fuel D s = Ok value s' ->
  exists st,
    getAtomState D s' = Some st /\ v st = value /\
    NoDup (map_keys (d st)) /\
    (forall a o, (a, o) ∈ d st <->
       a ∈ readsCached (atomStateMap s') (read (atoms D)) /\ o = getAtomState a s') /\
    (forall a, a ∈ map_keys (d st) -> is_Some (getAtomState a s') /\ a <> D).
Proof.
  intros Hranked Hbelow Hnone Hget. unfold readAtom in Hget.
  apply bind_Ok in Hget as (st & s1 & Hr & Hok). injection Hok as <- <-.
  destruct fuel as [|fuel]; [discriminate|]. cbn [readAtomState] in Hr.
  rewrite Hnone in Hr.
  apply (evalRead_deps atoms rank Hranked) in Hr
    as (value & deps' & s2 & Hst & HD & Hset & Hnd & Hc & Hiff);
    [|exact Hbelow|apply NoDup_nil_2].
  change (getAtomState D (log (EvRead D) s)) with (getAtomState D s) in HD.
  rewrite Hnone in HD. unfold setAtomValue in Hset. rewrite HD in Hset.
  injection Hset as <- <-. cbn [d v].
  assert (Hother : forall a, rank a < rank D ->
            atomStateMap (setAtomState D (mkAtomState deps' value) s2) !! a
            = atomStateMap s2 !! a).
  { intros a Ha. simpl. apply lookup_insert_ne. intros ->. lia. }
  assert (Hrc : readsCached (atomStateMap (setAtomState D (mkAtomState deps' value) s2))
                  (read (atoms D))
                = readsCached (atomStateMap s2) (read (atoms D))).
  { now apply (readsCached_stable rank (rank D)). }
  assert (Hlow : forall a, a ∈ readsCached (atomStateMap s2) (read (atoms D)) ->
                   rank a < rank D).
  { intros a Ha. clear -Ha Hbelow. revert Ha.
    induction Hbelow as [x|x k Hx Hk IH]; simpl; intros Ha.
    - now apply elem_of_nil in Ha.
    - apply elem_of_cons in Ha as [->|Ha]; [exact Hx|].
      destruct (atomStateMap s2 !! x); [now apply (IH (v a0))|now apply elem_of_nil in Ha]. }
  exists (mkAtomState deps' value). split.
  { unfold getAtomState. simpl. now rewrite lookup_insert_eq. }
  split; [reflexivity|]. split; [exact Hnd|]. cbn [d]. split.
  - intros a o. rewrite Hiff, Hrc. split.
    + intros [[Ha Ho]|[_ H]]; [|now apply elem_of_nil in H].
      split; [exact Ha|]. unfold getAtomState. rewrite Hother; [exact Ho|now apply Hlow].
    + intros [Ha Ho]. left. split; [exact Ha|]. unfold getAtomState in Ho.
      rewrite Hother in Ho; [exact Ho|now apply Hlow].
  - intros a Ha. unfold map_keys in Ha.
    apply list_elem_of_fmap in Ha as ([a' o] & -> & Hin). simpl.
    apply Hiff in Hin as [[Ha Ho]|[_ H]]; [|now apply elem_of_nil in H].
    pose proof (Hlow a' Ha) as Hlt. split; [|intros ->; lia].
    unfold getAtomState. rewrite Hother by exact Hlt. now apply Hc.
Qed.


(** The dependencies of [double] after its first [get]. *)
Lemma X5_witness :
  exists st,
    getAtomState App.double (App.after (readAtom App.counterAtoms 8 App.double createStore))
      = Some st /\
    v st = VNum 0 /\
    NoDup (map_keys (d st)) /\
    (forall a o, (a, o) ∈ d st <->
       a ∈ readsCached
             (atomStateMap (App.after (readAtom App.counterAtoms 8 App.double createStore)))
             (read (App.counterAtoms App.double)) /\
       o = getAtomState a
             (App.after (readAtom App.counterAtoms 8 App.double createStore))) /\
    (forall a, a ∈ map_keys (d st) ->
       is_Some (getAtomState a
                  (App.after (readAtom App.counterAtoms 8 App.double createStore))) /\
       a <> App.double).
Proof.
  apply (X5_first_get_records_what_was_read App.counterAtoms App.counterRank 8
           App.double createStore (VNum 0)).
  - exact counter_wellRanked.
  - constructor; [simpl; lia|]. intros x. constructor.
  - reflexivity.
  - vm_compute. reflexivity.
Defined.

(** X6: atoms without a state whose read functions start by reading one
    another in a circle: [readAtomState] on any of them does not return,
    whatever the call depth allowed (the recursion of the getter never
    reaches a cached state). *)
Theorem X6_circular_reads_do_not_return atoms (C : AtomRef -> Prop) fuel :
  forall a force s,
    (forall x, C x ->
       getAtomState x s = None /\
       exists y k, C y /\ y <> x /\ read (atoms x) = RGet y k) ->
    C a ->
    readAtomState atoms fuel a force s = OutOfFuel.
Proof.
  induction fuel as [|fuel IH]; intros a force s HC Ha; [reflexivity|].
  cbn [readAtomState]. destruct (HC a Ha) as (Hnone & y & k & Hy & Hne & Hread).
  rewrite Hnone, Hread. cbn [evalRead]. rewrite decide_False by exact Hne.
  now rewrite (IH y false (log (EvRead a) s)).
Qed.

(** [ping] and [pong] read each other. *)
Lemma X6_witness :
  readAtomState Cases.atoms 100 Cases.ping false createStore = OutOfFuel.
Proof.
  apply (X6_circular_reads_do_not_return Cases.atoms
           (fun x => x = Cases.ping \/ x = Cases.pong) 100).
  - intros x [->| ->]; (split; [reflexivity|]).
    + exists Cases.pong, RRet. split; [now right|]. split; [discriminate|reflexivity].
    + exists Cases.ping, RRet. split; [now left|]. split; [discriminate|reflexivity].
  - now left.
Defined.

(** ** Writing *)

(** X7: [set] on an atom built from a read function alone, which has no
    [write], fails at the call of [atom.write] before anything is done: the
    store is unchanged, and entries pending from earlier reads are not
    flushed. *)
Theorem X7_set_read_only atoms listeners fns fuel a f args s :
  atoms a = atom fns a (inr f) None ->
  writeAtom atoms listeners (S fuel) a args s = Throw NotWritable s.
Proof.
  intros Ha. unfold writeAtom, writeThenFlush. cbn [writeAtomState].
  rewrite Ha. reflexivity.
Qed.

(** [set(double, 1)]. *)
Lemma X7_witness :
  writeAtom App.atoms App.listeners 8 App.double [VNum 1] App.doubleFresh
    = Throw NotWritable App.doubleFresh.
Proof.
  apply (X7_set_read_only App.atoms App.listeners App.fns 7 App.double App.doubleRead).
  reflexivity.
Defined.

Lemma flushPending_nil atoms listeners fuel s :
  pendingMap s = [] -> flushPending atoms listeners (S fuel) s = Ok tt s.
Proof. intros H. cbn [flushPending]. now rewrite H. Qed.

Lemma setSelf_same atoms fuel W x st s :
  getAtomState W s = Some st -> v st = x ->
  setSelf atoms fuel W [x] s = Ok tt s.
Proof.
  intros Hst Hv. unfold setSelf. change (arg0 [x]) with x. unfold setAtomValue.
  rewrite Hst. unfold isEqualAtomValue, Object_is. cbn [v].
  rewrite bool_decide_eq_true_2 by exact Hv.
  now rewrite bool_decide_eq_true_2 by reflexivity.
Qed.

(** X8: [set(atom, arg)] on an atom built by [atom(initialValue)] whose
    cached value already is the value to install, in a store with nothing
    pending, returns [undefined] and leaves the store exactly as it is: no
    recomputation, no pending entry, no listener. *)
Theorem X8_set_same_value atoms listeners fns fuel W i arg st s :
  atoms W = atom fns W (inl i) None ->
  getAtomState W s = Some st ->
  match arg with VFun f => fns f (v st) | _ => arg end = v st ->
  pendingMap s = [] ->
  writeAtom atoms listeners (S (S fuel)) W [arg] s = Ok VUndefined s.
Proof.
  intros Hatom Hst Hnext Hp.
  assert (W_read : read (atoms W) = RGet W RRet) by now rewrite Hatom.
  assert (W_init : init (atoms W) = Some i) by now rewrite Hatom.
  unfold writeAtom, writeThenFlush. cbn [writeAtomState].
  replace (write (atoms W)) with (Some (defaultWrite fns W)) by now rewrite Hatom.
  assert (Hdirect : forall x, v st = x ->
    evalWrite atoms (S fuel) (writeAtomState atoms (S fuel)) W (WSet W [x] WRet) s
      = Ok VUndefined s).
  { intros x Hx. cbn [evalWrite]. rewrite decide_True by reflexivity.
    now rewrite (setSelf_same atoms (S fuel) W x st s Hst Hx). }
  assert (Hflush : bind (Ok VUndefined s)
            (fun result s0 =>
               let! _ := flushPending atoms listeners (S (S fuel)) s0 in Ok result)
          = Ok VUndefined s).
  { cbn [bind]. now rewrite flushPending_nil. }
  destruct arg as [|n|o|f];
    try (unfold defaultWrite; cbn [arg0 hd]; rewrite Hdirect by (now symmetry);
         exact Hflush).
  unfold defaultWrite. cbn [arg0 hd evalWrite].
  rewrite (readAtomState_primitive atoms W i W_read W_init), Hst. cbn [bind].
  unfold returnAtomValue. rewrite decide_True by reflexivity.
  rewrite (setSelf_same atoms (S fuel) W _ st s Hst) by (now symmetry).
  exact Hflush.
Qed.

(** [set(count, 5)] twice. *)
Lemma X8_witness :
  writeAtom App.atoms App.listeners 2 App.count [VNum 5]
    (App.after (App.set App.count (VNum 5) createStore))
  = Ok VUndefined (App.after (App.set App.count (VNum 5) createStore)).
Proof.
  apply (X8_set_same_value App.atoms App.listeners App.fns 0 App.count (VNum 0)
           (VNum 5) (mkAtomState [] (VNum 5))).
  - reflexivity.
  - vm_compute. reflexivity.
  - reflexivity.
  - vm_compute. reflexivity.
Defined.

Lemma clearPending_nil s : pendingMap s = [] -> clearPending s = s.
Proof. destruct s; simpl; intros ->; reflexivity. Qed.

(** A round over entries whose atoms have no mount record calls nothing. *)
Lemma flushRound_unmounted atoms listeners fuel flush pending s :
  (forall e, e ∈ pending -> mountedMap s !! e.1 = None) ->
  flushRound atoms listeners fuel flush pending s = Ok tt s.
Proof.
  unfold flushRound. induction pending as [|e pending IH]; intros Hun; [reflexivity|].
  cbn [forEach]. unfold flushEntry at 1. rewrite (Hun e) by left.
  cbn [shouldNotify bind]. apply IH. intros e' He'. apply Hun. now right.
Qed.

Lemma flushPending_unmounted atoms listeners fuel s :
  (forall e, e ∈ pendingMap s -> mountedMap s !! e.1 = None) ->
  flushPending atoms listeners (S (S fuel)) s = Ok tt (clearPending s).
Proof.
  intros Hun. rewrite flushPending_S.
  destruct (pendingMap s) as [|e pending] eqn:Hp.
  - now rewrite clearPending_nil.
  - rewrite flushRound_unmounted by exact Hun. cbn [bind].
    now apply flushPending_nil.
Qed.

Lemma recomputeDependents_unmounted atoms fuel a s :
  mountedMap s !! a = None ->
  recomputeDependents atoms (S fuel) a s = Ok tt (log (EvRecompute a) s).
Proof. intros H. cbn [recomputeDependents]. cbn. now rewrite H. Qed.

Lemma touchesOnly_refl W s : touchesOnly W s s.
Proof.
  split; [reflexivity|]. split; [reflexivity|].
  split; exists []; rewrite app_nil_r; (split; [reflexivity|]);
    intros e H; now apply elem_of_nil in H.
Qed.

Lemma touchesOnly_trans W s1 s2 s3 :
  touchesOnly W s1 s2 -> touchesOnly W s2 s3 -> touchesOnly W s1 s3.
Proof.
  intros (Ha & Hm & (x1 & Hp & Hx1) & (e1 & Ht & He1))
         (Ha' & Hm' & (x2 & Hp' & Hx2) & (e2 & Ht' & He2)).
  split; [intros b Hb; now rewrite Ha', Ha|]. split; [congruence|]. split.
  - exists (x1 ++ x2). rewrite Hp', Hp, <- app_assoc. split; [reflexivity|].
    intros e Hin. apply elem_of_app in Hin as [Hin|Hin]; auto.
  - exists (e1 ++ e2). rewrite Ht', Ht, <- app_assoc. split; [reflexivity|].
    intros e Hin. apply elem_of_app in Hin as [Hin|Hin]; auto.
Qed.

Lemma touchesOnly_log W e s :
  e = EvRead W \/ e = EvRecompute W -> touchesOnly W s (log e s).
Proof.
  intros He. split; [reflexivity|]. split; [reflexivity|]. split.
  - exists []. rewrite app_nil_r. split; [reflexivity|].
    intros e' H; now apply elem_of_nil in H.
  - exists [e]. split; [reflexivity|]. intros e' H.
    apply list_elem_of_singleton in H. now subst.
Qed.

Lemma touchesOnly_set W value deps s :
  touchesOnly W s (setAtomValue W value deps s).2.
Proof.
  split; [intros b Hb; now apply setAtomValue_other|].
  split; [apply setAtomValue_mountedMap|]. split.
  - destruct (setAtomValue_pending W value deps s) as [[-> _]|(_ & _ & ->)].
    + exists []. rewrite app_nil_r. split; [reflexivity|].
      intros e H; now apply elem_of_nil in H.
    + eexists. split; [reflexivity|]. intros e H.
      apply list_elem_of_singleton in H. now subst.
  - exists []. rewrite app_nil_r, setAtomValue_trace. split; [reflexivity|].
    intros e H; now apply elem_of_nil in H.
Qed.

Lemma setSelf_unmounted atoms fuel W x s :
  mountedMap s !! W = None ->
  exists s1, setSelf atoms (S fuel) W [x] s = Ok tt s1 /\
    (v <$> getAtomState W s1) = Some x /\ touchesOnly W s s1.
Proof.
  intros Hun. unfold setSelf. change (arg0 [x]) with x.
  pose proof (setAtomValue_installed W x None s) as [Hinst Hv].
  pose proof (touchesOnly_set W x None s) as Hto.
  pose proof (setAtomValue_mountedMap W x None s) as Hmm.
  destruct (setAtomValue W x None s) as [next s1]. cbn [fst snd] in *.
  assert (Hrec : exists s2, recomputeDependents atoms (S fuel) W s1 = Ok tt s2 /\
            (v <$> getAtomState W s2) = Some x /\ touchesOnly W s s2).
  { rewrite recomputeDependents_unmounted by congruence.
    eexists. split; [reflexivity|]. split.
    - change (getAtomState W (log (EvRecompute W) s1)) with (getAtomState W s1).
      rewrite Hinst. simpl. now rewrite Hv.
    - eapply touchesOnly_trans; [exact Hto|]. apply touchesOnly_log. now right. }
  destruct (getAtomState W s) as [prev|]; [|exact Hrec].
  destruct (isEqualAtomValue prev next); [|exact Hrec].
  exists s1. split; [reflexivity|]. split; [|exact Hto].
  rewrite Hinst. simpl. now rewrite Hv.
Qed.

(** X9: [set] on an atom built by [atom(initialValue)] that has no mount
    record, in a store with nothing pending, returns; it changes the state
    of that atom only, runs no read function of another atom and no
    listener, and every other cached atom (a derived atom that read the
    written one included) still answers [get] with the value it had. *)
Theorem X9_set_on_unmounted_atom atoms listeners fns fuel W i arg s :
  atoms W = atom fns W (inl i) None ->
  mountedMap s !! W = None ->
  pendingMap s = [] ->
  let current := from_option v i (getAtomState W s) in
  let next := match arg with VFun f => fns f current | _ => arg end in
  exists s',
    writeAtom atoms listeners (S (S fuel)) W [arg] s = Ok VUndefined s' /\
    (v <$> getAtomState W s') = Some next /\
    (forall b, b <> W -> getAtomState b s' = getAtomState b s) /\
    mountedMap s' = mountedMap s /\
    pendingMap s' = [] /\
    (exists evs, trace s' = trace s ++ evs /\
       forall e, e ∈ evs -> e = EvRead W \/ e = EvRecompute W) /\
    (forall D st fuel', D <> W -> getAtomState D s = Some st ->
       readAtom atoms (S fuel') D s' = Ok (v st) s').
Proof.
  intros Hatom Hun Hp current next.
  assert (W_read : read (atoms W) = RGet W RRet) by now rewrite Hatom.
  assert (W_init : init (atoms W) = Some i) by now rewrite Hatom.
  assert (Hwrite : exists s1,
    writeAtomState atoms (S (S fuel)) W [arg] s = Ok VUndefined s1 /\
    (v <$> getAtomState W s1) = Some next /\ touchesOnly W s s1).
  { cbn [writeAtomState].
    replace (write (atoms W)) with (Some (defaultWrite fns W)) by now rewrite Hatom.
    assert (Hdirect : forall x s0, mountedMap s0 !! W = None -> exists s1,
      evalWrite atoms (S fuel) (writeAtomState atoms (S fuel)) W
        (WSet W [x] WRet) s0 = Ok VUndefined s1 /\
      (v <$> getAtomState W s1) = Some x /\ touchesOnly W s0 s1).
    { intros x s0 Hun0. cbn [evalWrite]. rewrite decide_True by reflexivity.
      destruct (setSelf_unmounted atoms fuel W x s0 Hun0) as (s1 & -> & Hval & Hto).
      exists s1. now split. }
    subst current next.
    destruct arg as [|n|o|f]; try (now apply Hdirect).
    unfold defaultWrite. cbn [arg0 hd evalWrite].
    rewrite (readAtomState_primitive atoms W i W_read W_init).
    destruct (getAtomState W s) as [st|] eqn:Hst; cbn [bind from_option];
      unfold returnAtomValue; cbn [v].
    - now apply Hdirect.
    - destruct (Hdirect (fns f i)
                  (setAtomState W (mkAtomState [(W, None)] i) (log (EvRead W) s)))
        as (s1 & Hrun & Hval & Hto); [exact Hun|].
      exists s1. split; [exact Hrun|]. split; [exact Hval|].
      eapply touchesOnly_trans; [|exact Hto].
      eapply touchesOnly_trans; [apply (touchesOnly_log W (EvRead W)); now left|].
      pose proof (touchesOnly_set W i (Some [(W, None)]) (log (EvRead W) s)) as H.
      unfold setAtomValue in H.
      change (getAtomState W (log (EvRead W) s)) with (getAtomState W s) in H.
      now rewrite Hst in H. }
  destruct Hwrite as (s1 & Hrun & Hval & Hother & Hmm & (extra & Hpend & Hextra) & Hev).
  rewrite Hp in Hpend. simpl in Hpend.
  exists (clearPending s1). split.
  { unfold writeAtom, writeThenFlush. rewrite Hrun. cbn [bind].
    rewrite flushPending_unmounted; [reflexivity|].
    intros e He. rewrite Hpend in He. rewrite (Hextra e He), Hmm. exact Hun. }
  split; [exact Hval|]. split; [exact Hother|]. split; [exact Hmm|].
  split; [reflexivity|]. split; [exact Hev|].
  intros D st fuel' HD Hst. apply readAtom_cached.
  change (getAtomState D (clearPending s1)) with (getAtomState D s1).
  now rewrite Hother.
Qed.

(** [set(count, 5)] with [double] cached and nothing mounted: [double]
    keeps its value. *)
Lemma X9_witness :
  exists s',
    writeAtom App.atoms App.listeners 2 App.count [VNum 5] Cases.doubleSettled
      = Ok VUndefined s' /\
    (v <$> getAtomState App.count s') = Some (VNum 5) /\
    (forall b, b <> App.count ->
               getAtomState b s' = getAtomState b Cases.doubleSettled) /\
    mountedMap s' = mountedMap Cases.doubleSettled /\
    pendingMap s' = [] /\
    (exists evs, trace s' = trace Cases.doubleSettled ++ evs /\
       forall e, e ∈ evs -> e = EvRead App.count \/ e = EvRecompute App.count) /\
    (forall D st fuel', D <> App.count ->
       getAtomState D Cases.doubleSettled = Some st ->
       readAtom App.atoms (S fuel') D s' = Ok (v st) s').
Proof.
  apply (X9_set_on_unmounted_atom App.atoms App.listeners App.fns 0 App.count
           (VNum 0) (VNum 5) Cases.doubleSettled).
  - reflexivity.
  - vm_compute. reflexivity.
  - vm_compute. reflexivity.
Defined.

Lemma setAtomValue_pending_keys a value deps s b :
  b ∈ map_keys (pendingMap s) -> b ∈ map_keys (pendingMap (setAtomValue a value deps s).2).
Proof.
  intros Hb.
  destruct (setAtomValue_pending a value deps s) as [[-> _]|(_ & _ & ->)];
    [exact Hb|].
  unfold map_keys. rewrite fmap_app. apply elem_of_app. now left.
Qed.

Lemma setSelf_primitive_Throw atoms W i fuel x s e s' :
  read (atoms W) = RGet W RRet -> init (atoms W) = Some i ->
  setSelf atoms fuel W [x] s = Throw e s' ->
  (v <$> getAtomState W s') = Some x /\
  W ∈ map_keys (pendingMap s') /\
  e = NoAtomInit.
Proof.
  intros W_read W_init Hrun.
  pose proof (setSelf_Throw atoms fuel W [x] s e s' Hrun) as [-> _].
  revert Hrun. unfold setSelf. change (arg0 [x]) with x.
  pose proof (setAtomValue_installed W x None s) as [Hinst Hv].
  pose proof (setAtomValue_pending W x None s) as Hpend.
  destruct (setAtomValue W x None s) as [next s1] eqn:Hset. cbn [fst snd] in *.
  assert (Hrec : recomputeDependents atoms fuel W s1 = Throw NoAtomInit s' ->
                 getAtomState W s1 <> getAtomState W s ->
                 (v <$> getAtomState W s') = Some x /\
                 W ∈ map_keys (pendingMap s') /\ NoAtomInit = NoAtomInit).
  { intros Hrec Hchanged. split; [|split; [|reflexivity]].
    - assert (keepsState W (mountedMap s1) next s') as [_ ->].
      { eapply (recomputeDependents_keepsState atoms W i W_read W_init);
          [now split|now rewrite Hrec]. }
      simpl. now rewrite Hv.
    - apply (recomputeDependents_inv atoms
               (fun s0 => W ∈ map_keys (pendingMap s0))) with fuel W s1.
      + now intros ev s0.
      + intros b value deps s0. apply setAtomValue_pending_keys.
      + destruct Hpend as [[Hp [Hsame|Hin]]|(_ & _ & ->)].
        * contradiction.
        * now rewrite Hp.
        * unfold map_keys. rewrite fmap_app. apply elem_of_app. right.
          simpl. left.
      + now rewrite Hrec. }
  destruct (getAtomState W s) as [prev|] eqn:Hprev.
  - unfold isEqualAtomValue, Object_is. rewrite Hv. case_bool_decide as Heq;
      [discriminate|].
    intros Hrun. apply Hrec; [exact Hrun|]. rewrite Hinst. intros [= ->].
    now apply Heq.
  - intros Hrun. apply Hrec; [exact Hrun|]. rewrite Hinst. discriminate.
Qed.

(** X10: when the write phase of [set] on an atom built by
    [atom(initialValue)] throws (a read function run by the recomputation of
    a dependent throws), [set] throws the same error, the error is the one
    of a read, and nothing is rolled back or flushed: the new value is
    installed and [get] returns it, the atom stays in [pendingMap], and no
    listener has run. *)
Theorem X10_failed_set_keeps_the_write atoms listeners fns fuel W i arg s e s' :
  atoms W = atom fns W (inl i) None ->
  writeAtomState atoms fuel W [arg] s = Throw e s' ->
  let current := from_option v i (getAtomState W s) in
  let next := match arg with VFun f => fns f current | _ => arg end in
  writeAtom atoms listeners fuel W [arg] s = Throw e s' /\
  e = NoAtomInit /\
  (v <$> getAtomState W s') = Some next /\
  W ∈ map_keys (pendingMap s') /\
  (forall a f, EvListener a f ∈ trace s' -> EvListener a f ∈ trace s) /\
  (forall fuel', readAtom atoms (S fuel') W s' = Ok next s').
Proof.
  intros Hatom Hrun current next.
  assert (W_read : read (atoms W) = RGet W RRet) by now rewrite Hatom.
  assert (W_init : init (atoms W) = Some i) by now rewrite Hatom.
  assert (Hmain : e = NoAtomInit /\ (v <$> getAtomState W s') = Some next /\
                  W ∈ map_keys (pendingMap s')).
  { destruct fuel as [|fuel]; [discriminate|]. cbn [writeAtomState] in Hrun.
    replace (write (atoms W)) with (Some (defaultWrite fns W)) in Hrun
      by now rewrite Hatom.
    assert (Hdirect : forall x s0,
      evalWrite atoms fuel (writeAtomState atoms fuel) W (WSet W [x] WRet) s0
        = Throw e s' ->
      e = NoAtomInit /\ (v <$> getAtomState W s') = Some x /\
      W ∈ map_keys (pendingMap s')).
    { intros x s0 Hx. cbn [evalWrite] in Hx. rewrite decide_True in Hx by reflexivity.
      apply bind_Throw in Hx as [Hx|([] & s1 & _ & Hx)]; [|discriminate].
      apply (setSelf_primitive_Throw atoms W i) in Hx as (? & ? & ?); auto. }
    subst current next.
    destruct arg as [|n|o|f]; try (now apply (Hdirect _ s)).
    unfold defaultWrite in Hrun. cbn [arg0 hd evalWrite] in Hrun.
    destruct fuel as [|fuel]; [discriminate|].
    rewrite (readAtomState_primitive atoms W i W_read W_init) in Hrun.
    destruct (getAtomState W s) as [st|] eqn:Hst; cbn [bind] in Hrun;
      now apply Hdirect in Hrun. }
  destruct Hmain as (He & Hval & Hpend).
  split; [unfold writeAtom, writeThenFlush; now rewrite Hrun|].
  split; [exact He|]. split; [exact Hval|]. split; [exact Hpend|].
  split.
  - destruct (writeAtomState_no_listener atoms fuel W [arg] s s') as (evs & Ht & Hevs);
      [now rewrite Hrun|].
    intros a f Hin. rewrite Ht in Hin. apply elem_of_app in Hin as [Hin|Hin];
      [exact Hin|now apply Hevs in Hin].
  - intros fuel'. destruct (getAtomState W s') as [st|] eqn:Hst; [|discriminate].
    injection Hval as <-. now apply readAtom_cached.
Qed.

(** [set(source, 1)] makes the recomputation of [fragile] read [broken]. *)
Lemma X10_witness :
  writeAtom Cases.atoms App.listeners 8 Cases.source [VNum 1] Cases.fragileWatched
    = Throw NoAtomInit
        (App.after (writeAtomState Cases.atoms 8 Cases.source [VNum 1]
                      Cases.fragileWatched)) /\
  NoAtomInit = NoAtomInit /\
  (v <$> getAtomState Cases.source
           (App.after (writeAtomState Cases.atoms 8 Cases.source [VNum 1]
                         Cases.fragileWatched))) = Some (VNum 1) /\
  Cases.source ∈ map_keys (pendingMap
           (App.after (writeAtomState Cases.atoms 8 Cases.source [VNum 1]
                         Cases.fragileWatched))) /\
  (forall a f,
     EvListener a f ∈ trace
           (App.after (writeAtomState Cases.atoms 8 Cases.source [VNum 1]
                         Cases.fragileWatched)) ->
     EvListener a f ∈ trace Cases.fragileWatched) /\
  (forall fuel',
     readAtom Cases.atoms (S fuel') Cases.source
           (App.after (writeAtomState Cases.atoms 8 Cases.source [VNum 1]
                         Cases.fragileWatched))
     = Ok (VNum 1)
           (App.after (writeAtomState Cases.atoms 8 Cases.source [VNum 1]
                         Cases.fragileWatched))).
Proof.
  apply (X10_failed_set_keeps_the_write Cases.atoms App.listeners App.fns 8
           Cases.source (VNum 0) (VNum 1) Cases.fragileWatched NoAtomInit).
  - reflexivity.
  - vm_compute. reflexivity.
Defined.

(** ** Listeners *)

(** X11: with listeners that call [store.get] and [store.set] only (a
    listener that calls [store.sub] or an unsubscribe function changes the
    mount table itself), a [set], whether it returns or throws, leaves the
    mount table as it was and calls only listeners that the mount table
    registers for the atom they are called for. *)
Theorem X11_only_registered_listeners_run atoms listeners fuel atom args s s' :
  final (writeAtom atoms listeners fuel atom args s) = Some s' ->
  mountedMap s' = mountedMap s /\
  exists evs, trace s' = trace s ++ evs /\
    forall a f, EvListener a f ∈ evs ->
      exists m, mountedMap s !! a = Some m /\ f ∈ l m.
Proof. apply writeAtom_callsRegistered. Qed.

(** [set(count, 5)] after [get(double)] and [sub(double, 7)]. *)
Lemma X11_witness :
  mountedMap (App.after (App.set App.count (VNum 5) Cases.doubleWatched))
    = mountedMap Cases.doubleWatched /\
  exists evs,
    trace (App.after (App.set App.count (VNum 5) Cases.doubleWatched))
      = trace Cases.doubleWatched ++ evs /\
    forall a f, EvListener a f ∈ evs ->
      exists m, mountedMap Cases.doubleWatched !! a = Some m /\ f ∈ l m.
Proof.
  apply (X11_only_registered_listeners_run App.atoms App.listeners 8 App.count
           [VNum 5] Cases.doubleWatched).
  vm_compute. reflexivity.
Defined.

Lemma unmountAtom_unmounted atom s : mountedMap (unmountAtom atom s) !! atom = None.
Proof.
  rewrite unmountAtom_lookup. now rewrite decide_True.
Qed.

(** X12: the unsubscribe function returned by [sub(atom, listener)] deletes
    the whole mount record of [atom], not that listener alone: with
    listeners that call [store.get] and [store.set] only (none subscribes
    [atom] again while it runs), the next [set], whether it returns or
    throws, leaves [atom] unmounted and calls no listener of [atom], whoever
    subscribed it. *)
Theorem X12_unsubscribe_silences_atom atoms listeners fuel atom W args s s' :
  final (writeAtom atoms listeners fuel W args (unsubscribe atom s)) = Some s' ->
  mountedMap s' !! atom = None /\
  forall f, EvListener atom f ∈ trace s' -> EvListener atom f ∈ trace s.
Proof.
  intros Hfin. apply writeAtom_callsRegistered in Hfin as (HM & evs & Ht & Hreg).
  pose proof (unmountAtom_unmounted atom s) as Hnone.
  split; [rewrite HM; exact Hnone|].
  intros f Hin. rewrite Ht in Hin. apply elem_of_app in Hin as [Hin|Hin].
  - unfold unsubscribe in Hin.
    now rewrite (proj2 (proj2 (unmountAtom_frame atom s))) in Hin.
  - apply Hreg in Hin as (m & Hm & _). unfold unsubscribe in Hm. congruence.
Qed.

(** [count] subscribed by listeners 7 and 8; after one of them
    unsubscribes, [set(count, 5)] calls neither. *)
Lemma X12_witness :
  mountedMap (App.after (App.set App.count (VNum 5)
                (unsubscribe App.count Cases.countShared))) !! App.count = None /\
  forall f,
    EvListener App.count f
      ∈ trace (App.after (App.set App.count (VNum 5)
                 (unsubscribe App.count Cases.countShared))) ->
    EvListener App.count f ∈ trace Cases.countShared.
Proof.
  apply (X12_unsubscribe_silences_atom App.atoms App.listeners 8 App.count App.count
           [VNum 5] Cases.countShared).
  vm_compute. reflexivity.
Defined.

(** *** Listeners that only read the store

    The listener [useAtomValue] registers calls [store.get] and nothing
    else.  With such listeners a flush changes no cached state object. *)

Lemma quiet_refl s : quiet s s.
Proof. split; [reflexivity|]. split; [apply cachedStable_refl|auto]. Qed.

Lemma quiet_trans s1 s2 s3 : quiet s1 s2 -> quiet s2 s3 -> quiet s1 s3.
Proof.
  intros (Hm & Hc & Hr) (Hm' & Hc' & Hr'). split; [congruence|].
  split; [now apply cachedStable_trans with s2|auto].
Qed.

Lemma quiet_log e s : quiet s (log e s).
Proof. split; [reflexivity|]. split; [now intros b st|auto]. Qed.

Section GetOnly.

Variable atoms : AtomRef -> AtomConfig.
Variable listeners : ListenerRef -> list Call.
Hypothesis listeners_getOnly : getOnly listeners.

(** A plain read: quiet, and its events are runs of read functions. *)
Lemma readAtomState_quiet fuel a s st s' :
  readAtomState atoms fuel a false s = Ok st s' ->
  quiet s s' /\
  exists evs, trace s' = trace s ++ evs /\ forall b f, EvListener b f ∉ evs.
Proof.
  intros Hrun.
  assert (Hfin : final (readAtomState atoms fuel a false s) = Some s')
    by now rewrite Hrun.
  pose proof (readAtomState_readFrame atoms s fuel a s s' (readFrame_refl s) Hfin)
    as Hfr.
  split; [split; [|split]|].
  - apply Hfr.
  - now apply readFrame_cachedStable.
  - intros s0 Hs0. revert Hfin.
    apply (readAtomState_inv' atoms (recordsFrom s0)); [| |exact Hs0].
    + intros e s1. apply recordsFrom_log.
    + intros b value deps s1. apply recordsFrom_set.
  - destruct Hfr as (_ & _ & (evs & Ht & Hevs) & _). exists evs.
    split; [exact Ht|]. intros b f Hin.
    rewrite Forall_forall in Hevs. destruct (Hevs _ Hin) as (x & [=] & _).
Qed.

Lemma runListener_getOnly fuel set a f s s' :
  runListener atoms listeners fuel set a f s = Ok tt s' ->
  quiet s s' /\
  exists evs, trace s' = trace s ++ EvListener a f :: evs /\
    forall b g, EvListener b g ∉ evs.
Proof.
  unfold runListener.
  apply (forEach_Ok_inv
           (fun s1 => quiet s s1 /\
              exists evs, trace s1 = trace s ++ EvListener a f :: evs /\
                forall b g, EvListener b g ∉ evs)).
  - intros c s1 s2 Hc (Hq & evs & Ht & Hevs) Hrun.
    destruct (listeners_getOnly f c Hc) as [b ->].
    apply bind_Ok in Hrun as (st & s3 & Hr & Hok). injection Hok as <-.
    apply readAtomState_quiet in Hr as (Hq' & evs' & Ht' & Hevs').
    split; [now apply quiet_trans with s1|].
    exists (evs ++ evs'). rewrite Ht', Ht, <- app_assoc. split; [reflexivity|].
    intros x g Hin. apply elem_of_app in Hin as [Hin|Hin];
      [now apply (Hevs x g)|now apply (Hevs' x g)].
  - split; [apply quiet_log|]. exists []. split; [reflexivity|].
    intros b g H. now apply elem_of_nil in H.
Qed.

Lemma notifyAll_getOnly fuel set a ls : forall s s',
  forEach (runListener atoms listeners fuel set a) ls s = Ok tt s' ->
  quiet s s' /\
  exists evs, trace s' = trace s ++ evs /\
    forall b g, EvListener b g ∈ evs <-> b = a /\ g ∈ ls.
Proof.
  induction ls as [|f ls IH]; intros s s' Hrun.
  - injection Hrun as <-. split; [apply quiet_refl|]. exists [].
    rewrite app_nil_r. split; [reflexivity|]. intros b g.
    split; [intros H; now apply elem_of_nil in H|intros [_ H]; now apply elem_of_nil in H].
  - cbn [forEach] in Hrun. apply bind_Ok in Hrun as ([] & s1 & Hf & Hrest).
    apply runListener_getOnly in Hf as (Hq & evs & Ht & Hevs).
    apply IH in Hrest as (Hq' & evs' & Ht' & Hevs').
    split; [now apply quiet_trans with s1|].
    exists ((EvListener a f :: evs) ++ evs'). rewrite Ht', Ht, <- app_assoc.
    split; [reflexivity|]. intros b g. rewrite elem_of_app, elem_of_cons, Hevs'.
    rewrite elem_of_cons. split.
    + intros [[[= -> ->]|Hin]|[-> Hin]]; auto. now apply Hevs in Hin.
    + intros [-> [->|Hin]]; auto.
Qed.

(** One round of the flush. *)
Lemma flushRound_getOnly fuel flush pending : forall s s',
  flushRound atoms listeners fuel flush pending s = Ok tt s' ->
  quiet s s' /\
  exists evs, trace s' = trace s ++ evs /\
    (forall a f, EvListener a f ∈ evs ->
       exists m prev cur,
         mountedMap s !! a = Some m /\ f ∈ l m /\ (a, prev) ∈ pending /\
         getAtomState a s' = Some cur /\ changedFrom prev cur) /\
    (forall a prev m cur f,
       (a, prev) ∈ pending -> mountedMap s !! a = Some m -> f ∈ l m ->
       getAtomState a s = Some cur -> changedFrom prev cur ->
       EvListener a f ∈ evs).
Proof.
  unfold flushRound. induction pending as [|[a0 prev0] pending IH]; intros s s' Hrun.
  - injection Hrun as <-. split; [apply quiet_refl|]. exists [].
    rewrite app_nil_r. split; [reflexivity|]. split.
    + intros a f H. now apply elem_of_nil in H.
    + intros a prev m cur f H. now apply elem_of_nil in H.
  - cbn [forEach] in Hrun. apply bind_Ok in Hrun as ([] & s1 & He & Hrest).
    apply IH in Hrest as (Hq' & evs' & Ht' & Hsound' & Hcomplete').
    assert (Hentry : quiet s s1 /\
      exists evs, trace s1 = trace s ++ evs /\
        forall a f, EvListener a f ∈ evs <->
          a = a0 /\ exists m cur, mountedMap s !! a0 = Some m /\ f ∈ l m /\
            getAtomState a0 s = Some cur /\ changedFrom prev0 cur).
    { unfold flushEntry in He. cbn [fst snd] in He.
      destruct (shouldNotify prev0 (mountedMap s !! a0) (getAtomState a0 s)) eqn:Hn.
      - apply shouldNotify_spec in Hn as ([m Hm] & cur & Hcur & Hch).
        rewrite Hm in He. cbn [from_option] in He.
        apply notifyAll_getOnly in He as (Hq & evs & Ht & Hevs).
        split; [exact Hq|]. exists evs. split; [exact Ht|]. intros a f.
        rewrite Hevs. split.
        + intros [-> Hf]. split; [reflexivity|]. exists m, cur. auto.
        + intros (-> & m' & cur' & Hm' & Hf & _). split; [reflexivity|]. congruence.
      - injection He as <-. split; [apply quiet_refl|]. exists [].
        rewrite app_nil_r. split; [reflexivity|]. intros a f. split.
        + intros H. now apply elem_of_nil in H.
        + intros (-> & m & cur & Hm & _ & Hcur & Hch). exfalso.
          assert (shouldNotify prev0 (mountedMap s !! a0) (getAtomState a0 s) = true)
            as Hyes; [|congruence].
          apply shouldNotify_spec. rewrite Hm, Hcur. split; [eauto|]. eauto. }
    destruct Hentry as (Hq & evs & Ht & Hevs).
    split; [now apply quiet_trans with s1|].
    exists (evs ++ evs'). rewrite Ht', Ht, <- app_assoc. split; [reflexivity|].
    split.
    + intros a f Hin. apply elem_of_app in Hin as [Hin|Hin].
      * apply Hevs in Hin as (-> & m & cur & Hm & Hf & Hcur & Hch).
        exists m, prev0, cur. split; [exact Hm|]. split; [exact Hf|].
        split; [left|]. split; [|exact Hch].
        apply (proj1 (proj2 Hq')). now apply (proj1 (proj2 Hq)).
      * apply Hsound' in Hin as (m & prev & cur & Hm & Hf & Hp & Hcur & Hch).
        exists m, prev, cur. rewrite <- (proj1 Hq). split; [exact Hm|].
        split; [exact Hf|]. split; [now right|]. now split.
    + intros a prev m cur f Hp Hm Hf Hcur Hch. apply elem_of_app.
      apply elem_of_cons in Hp as [[= -> ->]|Hp].
      * left. apply Hevs. split; [reflexivity|]. exists m, cur. auto.
      * right. apply (Hcomplete' a prev m cur f Hp); auto.
        -- now rewrite (proj1 Hq).
        -- now apply (proj1 (proj2 Hq)).
Qed.

Lemma pending_entry {V} (m : list (AtomRef * V)) a :
  a ∈ map_keys m -> exists x, (a, x) ∈ m.
Proof.
  unfold map_keys. intros Hin. apply list_elem_of_fmap in Hin as ([a' x] & -> & Hin).
  eauto.
Qed.

(** The whole flush: a listener runs exactly for the mounted atoms that end
    with a state that differs from a recorded one, or that had no state. *)
Lemma flushPending_getOnly fuel : forall s s',
  flushPending atoms listeners fuel s = Ok tt s' ->
  mountedMap s' = mountedMap s /\
  cachedStable s s' /\
  exists evs, trace s' = trace s ++ evs /\
    forall a f, EvListener a f ∈ evs <->
      exists m cur,
        mountedMap s !! a = Some m /\ f ∈ l m /\ getAtomState a s' = Some cur /\
        (getAtomState a s = None \/
         exists prev, (a, prev) ∈ pendingMap s /\ changedFrom prev cur).
Proof.
  induction fuel as [|fuel IH]; intros s s' Hrun; [discriminate|].
  rewrite flushPending_S in Hrun.
  destruct (pendingMap s) as [|e pending] eqn:Hp.
  - injection Hrun as <-. split; [reflexivity|]. split; [apply cachedStable_refl|].
    exists []. rewrite app_nil_r. split; [reflexivity|]. intros a f. split.
    + intros H. now apply elem_of_nil in H.
    + intros (m & cur & _ & _ & Hcur & [Hnone|(prev & Hin & _)]);
        [congruence|now apply elem_of_nil in Hin].
  - rewrite <- Hp in *. clear Hp.
    apply bind_Ok in Hrun as ([] & s2 & Hround & Hrest).
    apply flushRound_getOnly in Hround
      as ((Hm & Hst & Hrec) & evs1 & Ht1 & Hsound & Hcomplete).
    apply IH in Hrest as (Hm' & Hst' & evs2 & Ht2 & Hiff).
    change (mountedMap (clearPending s)) with (mountedMap s) in *.
    change (trace (clearPending s)) with (trace s) in *.
    assert (Hst1 : cachedStable s s2) by exact Hst.
    specialize (Hrec (clearPending s) (recordsFrom_refl _))
      as [(extra & Hextra & Hnew) Hsame].
    change (pendingMap (clearPending s)) with (@nil (AtomRef * option AtomState))
      in Hextra, Hnew. simpl in Hextra.
    assert (Hfresh : forall a prev, (a, prev) ∈ pendingMap s2 ->
              prev = getAtomState a s).
    { intros a prev Hin. rewrite Hextra in Hin. rewrite Forall_forall in Hnew.
      now destruct (Hnew _ Hin) as [_ H]. }
    split; [congruence|]. split; [now apply cachedStable_trans with s2|].
    exists (evs1 ++ evs2). rewrite Ht2, Ht1, <- app_assoc. split; [reflexivity|].
    intros a f. rewrite elem_of_app. split.
    + intros [Hin|Hin].
      * apply Hsound in Hin as (m & prev & cur & Hma & Hf & Hin & Hcur & Hch).
        exists m, cur. split; [exact Hma|]. split; [exact Hf|].
        split; [now apply Hst'|]. right. exists prev. now split.
      * apply Hiff in Hin as (m & cur & Hma & Hf & Hcur & Hwhy).
        exists m, cur. rewrite <- Hm. split; [exact Hma|]. split; [exact Hf|].
        split; [exact Hcur|]. left.
        destruct (getAtomState a s) as [p|] eqn:Hs; [exfalso|reflexivity].
        pose proof (Hst1 a p Hs) as Hs2.
        destruct Hwhy as [Hnone|(prev & Hin & Hch)]; [congruence|].
        apply Hfresh in Hin. rewrite Hs in Hin. subst prev.
        apply (Hch p eq_refl). apply Hst' in Hs2. congruence.
    + intros (m & cur & Hma & Hf & Hcur & Hwhy).
      destruct (getAtomState a s) as [p|] eqn:Hs.
      * left. destruct Hwhy as [[=]|(prev & Hin & Hch)].
        apply (Hcomplete a prev m p f); auto.
        assert (cur = p) as <-; [|exact Hch].
        apply Hst1, Hst' in Hs. congruence.
      * right. apply Hiff. exists m, cur. rewrite Hm. split; [exact Hma|].
        split; [exact Hf|]. split; [exact Hcur|].
        destruct (getAtomState a s2) as [c2|] eqn:Hs2; [right|now left].
        assert (Hkey : a ∈ map_keys (pendingMap s2)).
        { destruct (decide (a ∈ map_keys (pendingMap s2))) as [H|H]; [exact H|].
          apply Hsame in H.
          change (getAtomState a (clearPending s)) with (getAtomState a s) in H.
          congruence. }
        apply pending_entry in Hkey as [prev Hin]. exists prev. split; [exact Hin|].
        apply Hfresh in Hin. rewrite Hs in Hin. subst prev. intros p0 [=].
Qed.

End GetOnly.

Lemma writeAtomState_cached atoms fuel atom args s s' b :
  final (writeAtomState atoms fuel atom args s) = Some s' ->
  is_Some (getAtomState b s) -> is_Some (getAtomState b s').
Proof.
  intros Hfin Hb. revert Hfin.
  apply (writeAtomState_inv atoms (fun s0 => is_Some (getAtomState b s0)));
    [|  |exact Hb].
  - now intros e s0.
  - intros a value deps s0. apply setAtomValue_cached.
Qed.

Lemma App_listeners_getOnly : getOnly App.listeners.
Proof.
  intros f c Hc. unfold App.listeners in Hc.
  do 20 (destruct f as [|f]; [now apply elem_of_nil in Hc|]).
  destruct f as [|f]; [|now apply elem_of_nil in Hc].
  apply list_elem_of_singleton in Hc. eauto.
Qed.

Lemma pendingCached_Forall s :
  Forall (fun a => is_Some (getAtomState a s)) (map_keys (pendingMap s)) ->
  pendingCached s.
Proof. intros H a Ha. rewrite Forall_forall in H. now apply H. Qed.

(** X13: with listeners that only call [store.get], in a store whose pending
    atoms all have a state, a [set] that returns has called listener [f] of
    atom [a] exactly when the mount table registers [f] for [a] and the
    state [a] ends with differs in value from the state recorded for [a]:
    the one of its pending entry if it had one when [set] was called, else
    the state it had then (no state counts as a difference). *)
Theorem X13_listeners_run_iff_value_changed atoms listeners fuel W args s r s' :
  getOnly listeners ->
  (forall a, a ∈ map_keys (pendingMap s) -> is_Some (getAtomState a s)) ->
  writeAtom atoms listeners fuel W args s = Ok r s' ->
  exists evs, trace s' = trace s ++ evs /\
    forall a f, EvListener a f ∈ evs <->
      exists m cur,
        mountedMap s !! a = Some m /\ f ∈ l m /\ getAtomState a s' = Some cur /\
        ((exists prev, (a, prev) ∈ pendingMap s /\ changedFrom prev cur) \/
         ((a ∉ map_keys (pendingMap s)) /\ changedFrom (getAtomState a s) cur)).
Proof.
  intros HG Hpc Hrun. unfold writeAtom, writeThenFlush in Hrun.
  apply bind_Ok in Hrun as (r1 & s1 & Hwrite & Hrest).
  apply bind_Ok in Hrest as ([] & s2 & Hflush & Hok). injection Hok as _ <-.
  assert (Hfin : final (writeAtomState atoms fuel W args s) = Some s1)
    by now rewrite Hwrite.
  pose proof (writeAtomState_no_listener atoms fuel W args s s1 Hfin)
    as (evs0 & Ht0 & Hevs0).
  pose proof (writeAtomState_recordsFrom atoms fuel W args s s1 Hfin)
    as [(extra & Hextra & Hnew) Hsame].
  assert (HM : mountedMap s1 = mountedMap s).
  { now apply (writeAtomState_mountedMap atoms (mountedMap s) fuel W args s s1). }
  apply (flushPending_getOnly atoms listeners HG) in Hflush
    as (HM' & Hst & evs & Ht & Hiff).
  exists (evs0 ++ evs). rewrite Ht, Ht0, <- app_assoc. split; [reflexivity|].
  intros a f. rewrite elem_of_app, Hiff, HM. split.
  - intros [Hin|(m & cur & Hm & Hf & Hcur & Hwhy)]; [now apply Hevs0 in Hin|].
    exists m, cur. split; [exact Hm|]. split; [exact Hf|]. split; [exact Hcur|].
    destruct Hwhy as [Hnone|(prev & Hin & Hch)].
    + right. assert (Hs : getAtomState a s = None).
      { destruct (getAtomState a s) eqn:E; [|reflexivity].
        destruct (writeAtomState_cached atoms fuel W args s s1 a Hfin) as [x Hx];
          [now rewrite E|congruence]. }
      split; [|rewrite Hs; intros p [=]].
      intros Hkey. destruct (Hpc a Hkey) as [x Hx]. congruence.
    + rewrite Hextra in Hin. apply elem_of_app in Hin as [Hin|Hin].
      * left. exists prev. now split.
      * right. rewrite Forall_forall in Hnew. destruct (Hnew _ Hin) as [Hk Hp].
        simpl in Hk, Hp. split; [exact Hk|]. now rewrite <- Hp.
  - intros (m & cur & Hm & Hf & Hcur & Hwhy). right.
    exists m, cur. split; [exact Hm|]. split; [exact Hf|]. split; [exact Hcur|].
    destruct (getAtomState a s1) as [c1|] eqn:Hs1; [right|now left].
    assert (c1 = cur) as -> by (apply Hst in Hs1; congruence).
    destruct Hwhy as [(prev & Hin & Hch)|(Hk & Hch)].
    + exists prev. split; [|exact Hch]. rewrite Hextra. apply elem_of_app. now left.
    + destruct (decide (a ∈ map_keys (pendingMap s1))) as [Hk1|Hk1].
      * apply pending_entry in Hk1 as [prev Hin]. exists prev. split; [exact Hin|].
        rewrite Hextra in Hin. apply elem_of_app in Hin as [Hin|Hin].
        -- exfalso. apply Hk. unfold map_keys.
           apply list_elem_of_fmap. exists (a, prev). now split.
        -- rewrite Forall_forall in Hnew. destruct (Hnew _ Hin) as [_ Hp].
           simpl in Hp. now rewrite Hp.
      * exfalso. apply Hsame in Hk1. rewrite Hs1 in Hk1.
        now apply (Hch cur).
Qed.


(** [set(count, 5)] after [get(double)] and [sub(double, 7)], with the
    entries of [count] and [double] still pending from the [get]. *)
Lemma X13_witness :
  exists evs,
    trace (App.after (App.set App.count (VNum 5) Cases.doubleWatched))
      = trace Cases.doubleWatched ++ evs /\
    forall a f, EvListener a f ∈ evs <->
      exists m cur,
        mountedMap Cases.doubleWatched !! a = Some m /\ f ∈ l m /\
        getAtomState a (App.after (App.set App.count (VNum 5) Cases.doubleWatched))
          = Some cur /\
        ((exists prev, (a, prev) ∈ pendingMap Cases.doubleWatched /\
                       changedFrom prev cur) \/
         ((a ∉ map_keys (pendingMap Cases.doubleWatched)) /\
          changedFrom (getAtomState a Cases.doubleWatched) cur)).
Proof.
  apply (X13_listeners_run_iff_value_changed App.atoms App.listeners 8 App.count
           [VNum 5] Cases.doubleWatched VUndefined).
  - exact App_listeners_getOnly.
  - apply pendingCached_Forall. vm_compute. repeat constructor; eauto.
  - vm_compute. reflexivity.
Defined.

Lemma flat_map_agree {A B} (f g : A -> list B) xs :
  (forall x, x ∈ xs -> f x = g x) -> flat_map f xs = flat_map g xs.
Proof.
  induction xs as [|x xs IH]; intros H; [reflexivity|]. simpl.
  rewrite (H x) by left. f_equal. apply IH. intros y Hy. apply H. now right.
Qed.

Lemma listenerCalls_app evs1 evs2 :
  listenerCalls (evs1 ++ evs2) = listenerCalls evs1 ++ listenerCalls evs2.
Proof. unfold listenerCalls. now rewrite flat_map_app. Qed.

Lemma listenerCalls_elem evs a f :
  (a, f) ∈ listenerCalls evs <-> EvListener a f ∈ evs.
Proof.
  unfold listenerCalls. rewrite list_elem_of_In, in_flat_map. split.
  - intros (e & He & Hin). apply list_elem_of_In.
    destruct e as [b|b|b g]; simpl in Hin; try contradiction.
    destruct Hin as [[= -> ->]|[]]. exact He.
  - intros Hin. exists (EvListener a f). split; [now apply list_elem_of_In|].
    simpl. now left.
Qed.

Lemma listenerCalls_none evs :
  (forall a f, EvListener a f ∉ evs) -> listenerCalls evs = [].
Proof.
  intros Hno. destruct (listenerCalls evs) as [|[a f] calls] eqn:E; [reflexivity|].
  exfalso. apply (Hno a f), listenerCalls_elem. rewrite E. left.
Qed.

Lemma pendingCached_set a value deps s :
  pendingCached s -> pendingCached (setAtomValue a value deps s).2.
Proof.
  intros Hs b Hb.
  destruct (setAtomValue_pending a value deps s) as [[Hp _]|(_ & _ & Hp)];
    rewrite Hp in Hb.
  - apply setAtomValue_cached. now apply Hs.
  - unfold map_keys in Hb. rewrite fmap_app in Hb.
    apply elem_of_app in Hb as [Hb|Hb].
    + apply setAtomValue_cached. now apply Hs.
    + apply list_elem_of_singleton in Hb. simpl in Hb. subst b.
      rewrite (proj1 (setAtomValue_installed a value deps s)). eauto.
Qed.

Lemma pendingNoDup_set a value deps s :
  NoDup (map_keys (pendingMap s)) ->
  NoDup (map_keys (pendingMap (setAtomValue a value deps s).2)).
Proof.
  intros Hs.
  destruct (setAtomValue_pending a value deps s) as [[-> _]|(Hn & _ & ->)];
    [exact Hs|].
  unfold map_keys. rewrite fmap_app. apply NoDup_app. split; [exact Hs|].
  split; [|apply NoDup_singleton].
  intros x Hx Hx'. simpl in Hx'. apply list_elem_of_singleton in Hx'. now subst.
Qed.

Lemma wellFormed_set a value deps s :
  wellFormed s -> wellFormed (setAtomValue a value deps s).2.
Proof.
  intros (H1 & H2 & H3). split; [now apply pendingCached_set|].
  split; [now apply pendingNoDup_set|].
  now rewrite setAtomValue_mountedMap.
Qed.

Lemma wellFormed_clear s : wellFormed s -> wellFormed (clearPending s).
Proof.
  intros (_ & _ & H3). split; [intros a H; now apply elem_of_nil in H|].
  split; [apply NoDup_nil_2|exact H3].
Qed.

Section AtMostOnce.

Variable atoms : AtomRef -> AtomConfig.
Variable listeners : ListenerRef -> list Call.
Hypothesis listeners_getOnly : getOnly listeners.

Lemma notifyAll_calls fuel set a ls : forall s s',
  forEach (runListener atoms listeners fuel set a) ls s = Ok tt s' ->
  exists evs, trace s' = trace s ++ evs /\ listenerCalls evs = (fun f => (a, f)) <$> ls.
Proof.
  induction ls as [|f ls IH]; intros s s' Hrun.
  - injection Hrun as <-. exists []. now rewrite app_nil_r.
  - cbn [forEach] in Hrun. apply bind_Ok in Hrun as ([] & s1 & Hf & Hrest).
    apply (runListener_getOnly atoms listeners listeners_getOnly) in Hf
      as (_ & evs & Ht & Hevs).
    apply IH in Hrest as (evs' & Ht' & Hcalls).
    exists ((EvListener a f :: evs) ++ evs'). rewrite Ht', Ht, <- app_assoc.
    split; [reflexivity|]. rewrite listenerCalls_app, Hcalls.
    change (listenerCalls (EvListener a f :: evs)) with ((a, f) :: listenerCalls evs).
    now rewrite (listenerCalls_none evs Hevs).
Qed.

(** One round over entries of atoms that all have a state: the calls are
    those of the entries that pass the test in the store the round starts in. *)
Lemma flushRound_calls fuel flush pending : forall s s',
  (forall e, e ∈ pending -> is_Some (getAtomState e.1 s)) ->
  flushRound atoms listeners fuel flush pending s = Ok tt s' ->
  exists evs, trace s' = trace s ++ evs /\
    listenerCalls evs =
      flat_map (fun e =>
                  if shouldNotify e.2 (mountedMap s !! e.1) (getAtomState e.1 s)
                  then (fun f => (e.1, f)) <$> from_option l [] (mountedMap s !! e.1)
                  else [])
        pending.
Proof.
  unfold flushRound. induction pending as [|e pending IH]; intros s s' Hc Hrun.
  - injection Hrun as <-. exists []. now rewrite app_nil_r.
  - cbn [forEach] in Hrun. apply bind_Ok in Hrun as ([] & s1 & He & Hrest).
    assert (Hentry : quiet s s1 /\ exists evs, trace s1 = trace s ++ evs /\
      listenerCalls evs =
        if shouldNotify e.2 (mountedMap s !! e.1) (getAtomState e.1 s)
        then (fun f => (e.1, f)) <$> from_option l [] (mountedMap s !! e.1)
        else []).
    { unfold flushEntry in He.
      destruct (shouldNotify e.2 (mountedMap s !! e.1) (getAtomState e.1 s)).
      - pose proof He as He'.
        apply (notifyAll_getOnly atoms listeners listeners_getOnly) in He' as [Hq _].
        split; [exact Hq|]. now apply notifyAll_calls in He.
      - injection He as <-. split; [apply quiet_refl|]. exists [].
        now rewrite app_nil_r. }
    destruct Hentry as ((HM & Hst & _) & evs & Ht & Hcalls).
    apply IH in Hrest as (evs' & Ht' & Hcalls').
    2:{ intros e' He'. destruct (Hc e') as [st Hst']; [now right|].
        apply Hst in Hst'. eauto. }
    exists (evs ++ evs'). rewrite Ht', Ht, <- app_assoc. split; [reflexivity|].
    rewrite listenerCalls_app, Hcalls, Hcalls'. cbn [flat_map]. f_equal.
    apply flat_map_agree. intros e' He'. rewrite HM.
    destruct (Hc e') as [st Hst']; [now right|].
    now rewrite (Hst _ _ Hst'), Hst'.
Qed.

Lemma round_calls_keys (M : gmap AtomRef Mounted) (s : Store) pending a f :
  (a, f) ∈ flat_map (fun e : AtomRef * option AtomState =>
                      if shouldNotify e.2 (M !! e.1) (getAtomState e.1 s)
                      then (fun f => (e.1, f)) <$> from_option l [] (M !! e.1)
                      else [])
            pending ->
  a ∈ map_keys pending.
Proof.
  rewrite list_elem_of_In, in_flat_map. intros (e & He & Hin).
  apply list_elem_of_In in He, Hin.
  destruct (shouldNotify _ _ _); [|now apply elem_of_nil in Hin].
  apply list_elem_of_fmap in Hin as (g & [= -> ->] & _).
  unfold map_keys. apply list_elem_of_fmap. now exists e.
Qed.

Lemma round_calls_NoDup (M : gmap AtomRef Mounted) (s : Store) pending :
  NoDup (map_keys pending) ->
  (forall a m, M !! a = Some m -> NoDup (l m)) ->
  NoDup (flat_map (fun e : AtomRef * option AtomState =>
                     if shouldNotify e.2 (M !! e.1) (getAtomState e.1 s)
                     then (fun f => (e.1, f)) <$> from_option l [] (M !! e.1)
                     else [])
           pending).
Proof.
  intros Hk Hl. induction pending as [|e pending IH]; [apply NoDup_nil_2|].
  simpl in Hk. apply NoDup_cons in Hk as [He Hk]. cbn [flat_map].
  apply NoDup_app. split; [|split; [|now apply IH]].
  - destruct (shouldNotify _ _ _); [|apply NoDup_nil_2].
    destruct (M !! e.1) as [m|] eqn:Hm; [|apply NoDup_nil_2].
    apply NoDup_fmap_2; [|now apply (Hl e.1)]. now intros f g [=].
  - intros [a f] Hin Hin'. apply round_calls_keys in Hin'.
    destruct (shouldNotify _ _ _); [|now apply elem_of_nil in Hin].
    apply list_elem_of_fmap in Hin as (g & [= -> ->] & _). contradiction.
Qed.

Lemma wellFormed_kept_by_flush fuel s s' :
  wellFormed s -> final (flushPending atoms listeners fuel s) = Some s' ->
  wellFormed s'.
Proof.
  apply (flushPending_inv atoms listeners wellFormed).
  - now intros e s0.
  - intros a value deps s0. apply wellFormed_set.
  - apply wellFormed_clear.
Qed.

(** The whole flush calls no listener of an atom twice. *)
Lemma flushPending_calls_NoDup fuel : forall s s',
  wellFormed s ->
  flushPending atoms listeners fuel s = Ok tt s' ->
  exists evs, trace s' = trace s ++ evs /\ NoDup (listenerCalls evs).
Proof.
  induction fuel as [|fuel IH]; intros s s' Hwf Hrun; [discriminate|].
  rewrite flushPending_S in Hrun.
  destruct (pendingMap s) as [|e pending] eqn:Hp.
  - injection Hrun as <-. exists []. rewrite app_nil_r. split; [reflexivity|].
    apply NoDup_nil_2.
  - rewrite <- Hp in *. clear Hp.
    apply bind_Ok in Hrun as ([] & s2 & Hround & Hrest).
    destruct Hwf as (Hpc & Hnd & Hl).
    assert (Hcached : forall e0, e0 ∈ pendingMap s ->
              is_Some (getAtomState e0.1 (clearPending s))).
    { intros e0 He0. apply Hpc. unfold map_keys. apply list_elem_of_fmap.
      now exists e0. }
    assert (Hwf2 : wellFormed s2).
    { apply (flushRound_inv atoms listeners wellFormed) with
        fuel (flushPending atoms listeners fuel) (pendingMap s) (clearPending s).
      - now intros e0 s0.
      - intros a value deps s0. apply wellFormed_set.
      - intros s0 s1. apply wellFormed_kept_by_flush.
      - apply wellFormed_clear. now split.
      - now rewrite Hround. }
    pose proof (flushRound_calls fuel _ _ _ _ Hcached Hround) as (evs1 & Ht1 & Hc1).
    apply (flushRound_getOnly atoms listeners listeners_getOnly) in Hround
      as ((Hm & Hst & Hrec) & _).
    pose proof (flushPending_getOnly atoms listeners listeners_getOnly fuel s2 s' Hrest)
      as (_ & Hst' & evs2' & Ht2' & Hiff).
    apply IH in Hrest as (evs2 & Ht2 & Hnd2); [|exact Hwf2].
    assert (evs2' = evs2) as -> by (rewrite Ht2 in Ht2'; now apply app_inv_head in Ht2').
    change (mountedMap (clearPending s)) with (mountedMap s) in *.
    change (trace (clearPending s)) with (trace s) in *.
    specialize (Hrec (clearPending s) (recordsFrom_refl _))
      as [(extra & Hextra & Hnew) _].
    change (pendingMap (clearPending s)) with (@nil (AtomRef * option AtomState))
      in Hextra, Hnew. simpl in Hextra.
    exists (evs1 ++ evs2). rewrite Ht2, Ht1, <- app_assoc. split; [reflexivity|].
    rewrite listenerCalls_app. apply NoDup_app. split; [|split; [|exact Hnd2]].
    + rewrite Hc1. now apply round_calls_NoDup.
    + intros [a f] Hin1 Hin2. rewrite Hc1 in Hin1. apply round_calls_keys in Hin1.
      destruct (Hpc a Hin1) as [p Hs].
      apply listenerCalls_elem, Hiff in Hin2 as (m & cur & _ & _ & Hcur & Hwhy).
      pose proof (Hst a p Hs) as Hs2.
      destruct Hwhy as [Hnone|(prev & Hin & Hch)]; [congruence|].
      rewrite Hextra in Hin. rewrite Forall_forall in Hnew.
      destruct (Hnew _ Hin) as [_ Hprev]. simpl in Hprev.
      change (getAtomState a (clearPending s)) with (getAtomState a s) in Hprev.
      rewrite Hs in Hprev. apply (Hch p Hprev). apply Hst' in Hs2. congruence.
Qed.

End AtMostOnce.

Lemma set_add_NoDup xs x : NoDup xs -> NoDup (set_add xs x).
Proof.
  intros Hnd. unfold set_add. destruct (decide (x ∈ xs)) as [Hin|Hin]; [exact Hnd|].
  apply NoDup_app. split; [exact Hnd|]. split; [|apply NoDup_singleton].
  intros y Hy Hy'. apply list_elem_of_singleton in Hy'. now subst.
Qed.

Lemma listenersOnce_alter a f s :
  (forall m, NoDup (l m) -> NoDup (l (f m))) ->
  listenersOnce s -> listenersOnce (updMounted a f s).
Proof.
  intros Hf Hs b m. simpl. destruct (decide (b = a)) as [->|Hne].
  - rewrite lookup_alter_eq. destruct (mountedMap s !! a) as [m0|] eqn:Hm0; [|discriminate].
    intros [= <-]. apply Hf. now apply (Hs a).
  - rewrite lookup_alter_ne by congruence. apply Hs.
Qed.

Lemma mountAtom_listenersOnce fuel : forall atom initialDependent s s',
  listenersOnce s -> final (mountAtom fuel atom initialDependent s) = Some s' ->
  listenersOnce s'.
Proof.
  induction fuel as [|fuel IH]; intros atom initialDependent s s' Hs Hfin;
    [discriminate|].
  cbn [mountAtom] in Hfin.
  assert (Hloop : forall deps s0 s1, listenersOnce s0 ->
            final (forEach (mountDep (mountAtom fuel) atom) deps s0) = Some s1 ->
            listenersOnce s1).
  { intros deps s0 s1. apply forEach_final. intros a s2 s3 _ Hs2 Hstep.
    unfold mountDep in Hstep. destruct (mountedMap s2 !! a) as [m|].
    - injection Hstep as <-. now apply listenersOnce_alter.
    - destruct (decide (a = atom)); [injection Hstep as <-; exact Hs2|].
      now apply (IH a (Some atom) s2 s3). }
  apply final_bind in Hfin as [([] & s1 & Hrun & Hset)|(e & Hrun)].
  - injection Hset as <-. intros b m. simpl.
    destruct (decide (b = atom)) as [->|Hne].
    + rewrite lookup_insert_eq. intros [= <-]. apply NoDup_nil_2.
    + rewrite lookup_insert_ne by congruence.
      eapply (Hloop _ s s1 Hs). now rewrite Hrun.
  - eapply (Hloop _ s s' Hs). now rewrite Hrun.
Qed.

Lemma wellFormed_frame s s' :
  sameButMount s s' -> listenersOnce s' -> wellFormed s -> wellFormed s'.
Proof.
  intros (Ha & Hp & _) Hl (Hpc & Hnd & _). split; [|split].
  - intros a. unfold getAtomState. rewrite Ha, Hp. apply Hpc.
  - now rewrite Hp.
  - exact Hl.
Qed.

Lemma wellFormed_createStore : wellFormed createStore.
Proof.
  split; [intros a H; now apply elem_of_nil in H|]. split; [apply NoDup_nil_2|].
  intros a m Hm. simpl in Hm. now rewrite lookup_empty in Hm.
Qed.

Lemma wellFormed_readAtom atoms fuel atom s s' :
  wellFormed s -> final (readAtom atoms fuel atom s) = Some s' -> wellFormed s'.
Proof.
  intros Hs. apply (readAtom_inv atoms wellFormed (fun _ => True)); auto.
  intros a value deps s0 _. apply wellFormed_set.
Qed.

Lemma wellFormed_writeAtom atoms listeners fuel atom args s s' :
  wellFormed s -> final (writeAtom atoms listeners fuel atom args s) = Some s' ->
  wellFormed s'.
Proof.
  intros Hs. apply (writeAtom_inv atoms listeners wellFormed); auto.
  - intros a value deps s0. apply wellFormed_set.
  - apply wellFormed_clear.
Qed.

Lemma wellFormed_subscribeAtom fuel atom listener s s' :
  wellFormed s -> final (subscribeAtom fuel atom listener s) = Some s' ->
  wellFormed s'.
Proof.
  intros Hs Hfin. apply (wellFormed_frame s s'); [| |exact Hs].
  - now apply (subscribeAtom_frame fuel atom listener).
  - destruct Hs as (_ & _ & Hl). unfold subscribeAtom in Hfin.
    assert (Hadd : forall s1, final (addAtom fuel atom s) = Some s1 ->
              listenersOnce s1).
    { intros s1. unfold addAtom. destruct (mountedMap s !! atom).
      - now intros [= <-].
      - now apply mountAtom_listenersOnce. }
    apply final_bind in Hfin as [([] & s1 & Hrun & Hset)|(e & Hrun)].
    + injection Hset as <-. apply listenersOnce_alter.
      * intros m. apply set_add_NoDup.
      * apply Hadd. now rewrite Hrun.
    + apply Hadd. now rewrite Hrun.
Qed.

Lemma wellFormed_unsubscribe atom s :
  wellFormed s -> wellFormed (unsubscribe atom s).
Proof.
  intros Hs. apply (wellFormed_frame s _ (unmountAtom_frame atom s)); [|exact Hs].
  destruct Hs as (_ & _ & Hl). intros b m Hm. unfold unsubscribe in Hm.
  rewrite unmountAtom_lookup in Hm.
  destruct (decide (b = atom)); [discriminate|].
  destruct (decide (b ∈ recordedDeps atom s)); [|now apply (Hl b)].
  destruct (mountedMap s !! b) as [m0|] eqn:Hm0; [|discriminate].
  injection Hm as <-. simpl. now apply (Hl b).
Qed.

(** X14: a new store is well formed ([pendingMap] holds each atom once and
    only atoms that have a state; every listener set holds each listener
    once), and [get], [set], [sub] and the unsubscribe function keep it so,
    whether they return or throw. *)
Theorem X14_store_stays_well_formed
    (atoms : AtomRef -> AtomConfig) (listeners : ListenerRef -> list Call) :
  wellFormed createStore /\
  (forall fuel atom s s',
     wellFormed s -> final (readAtom atoms fuel atom s) = Some s' ->
     wellFormed s') /\
  (forall fuel atom args s s',
     wellFormed s -> final (writeAtom atoms listeners fuel atom args s) = Some s' ->
     wellFormed s') /\
  (forall fuel atom listener s s',
     wellFormed s -> final (subscribeAtom fuel atom listener s) = Some s' ->
     wellFormed s') /\
  (forall atom s, wellFormed s -> wellFormed (unsubscribe atom s)).
Proof.
  split; [exact wellFormed_createStore|].
  split; [intros fuel atom s s'; apply wellFormed_readAtom|].
  split; [intros fuel atom args s s'; apply wellFormed_writeAtom|].
  split; [intros fuel atom listener s s'; apply wellFormed_subscribeAtom|].
  exact wellFormed_unsubscribe.
Qed.

Lemma doubleWatched_wellFormed : wellFormed Cases.doubleWatched.
Proof.
  apply (wellFormed_subscribeAtom 8 App.double 7
           (App.after (App.get App.double createStore))); [|vm_compute; reflexivity].
  apply (wellFormed_readAtom App.atoms 8 App.double createStore);
    [exact wellFormed_createStore|vm_compute; reflexivity].
Qed.

(** X15: with listeners that only call [store.get], a [set] on a well-formed
    store that returns has called no listener twice for the same atom. *)
Theorem X15_no_listener_runs_twice atoms listeners fuel W args s r s' :
  getOnly listeners ->
  wellFormed s ->
  writeAtom atoms listeners fuel W args s = Ok r s' ->
  exists evs, trace s' = trace s ++ evs /\ NoDup (listenerCalls evs).
Proof.
  intros HG Hwf Hrun. unfold writeAtom, writeThenFlush in Hrun.
  apply bind_Ok in Hrun as (r1 & s1 & Hwrite & Hrest).
  apply bind_Ok in Hrest as ([] & s2 & Hflush & Hok). injection Hok as _ <-.
  assert (Hfin : final (writeAtomState atoms fuel W args s) = Some s1)
    by now rewrite Hwrite.
  pose proof (writeAtomState_no_listener atoms fuel W args s s1 Hfin)
    as (evs0 & Ht0 & Hevs0).
  assert (Hwf1 : wellFormed s1).
  { revert Hfin. apply (writeAtomState_inv atoms wellFormed); [| |exact Hwf].
    - now intros e s0.
    - intros a value deps s0. apply wellFormed_set. }
  apply (flushPending_calls_NoDup atoms listeners HG) in Hflush
    as (evs & Ht & Hnd); [|exact Hwf1].
  exists (evs0 ++ evs). rewrite Ht, Ht0, <- app_assoc. split; [reflexivity|].
  now rewrite listenerCalls_app, (listenerCalls_none evs0 Hevs0).
Qed.

(** [set(count, 5)] after [get(double)] and [sub(double, 7)]. *)
Lemma X15_witness :
  exists evs,
    trace (App.after (App.set App.count (VNum 5) Cases.doubleWatched))
      = trace Cases.doubleWatched ++ evs /\
    NoDup (listenerCalls evs).
Proof.
  apply (X15_no_listener_runs_twice App.atoms App.listeners 8 App.count [VNum 5]
           Cases.doubleWatched VUndefined).
  - exact App_listeners_getOnly.
  - exact doubleWatched_wellFormed.
  - vm_compute. reflexivity.
Defined.


(** ** Mounting *)

Lemma store_eq s s' :
  sameButMount s s' -> mountedMap s' = mountedMap s -> s' = s.
Proof.
  destruct s, s'. unfold sameButMount. simpl. intros (-> & -> & ->) ->. reflexivity.
Qed.

Lemma updMounted_id atom f s :
  (forall m, mountedMap s !! atom = Some m -> f m = m) -> updMounted atom f s = s.
Proof.
  intros Hf. apply store_eq; [now split|]. apply map_eq. intros b. simpl.
  destruct (decide (b = atom)) as [->|Hne].
  - rewrite lookup_alter_eq. destruct (mountedMap s !! atom) as [m|] eqn:Hm;
      [simpl; now rewrite Hf|reflexivity].
  - now rewrite lookup_alter_ne.
Qed.

(** X16: subscribing a listener that is already registered for the atom
    changes nothing: the listener set holds it once. *)
Theorem X16_subscribe_same_listener_twice fuel fuel' atom listener s s' :
  subscribeAtom fuel atom listener s = Ok tt s' ->
  subscribeAtom fuel' atom listener s' = Ok tt s'.
Proof.
  intros Hsub. apply subscribeAtom_spec in Hsub as ((m & Hm & Hin) & _).
  unfold subscribeAtom, addAtom. rewrite Hm. cbn [bind]. f_equal.
  apply updMounted_id. intros m' Hm'. assert (m' = m) as -> by congruence.
  unfold set_add. rewrite decide_True by exact Hin. now destruct m.
Qed.

(** [sub(double, 7)] twice. *)
Lemma X16_witness :
  subscribeAtom 0 App.double 7 Cases.doubleWatched = Ok tt Cases.doubleWatched.
Proof.
  apply (X16_subscribe_same_listener_twice 8 0 App.double 7
           (App.after (App.get App.double createStore))).
  vm_compute. reflexivity.
Defined.

(** X17: calling the unsubscribe function a second time changes nothing. *)
Theorem X17_unsubscribe_twice atom s :
  unsubscribe atom (unsubscribe atom s) = unsubscribe atom s.
Proof.
  unfold unsubscribe. apply store_eq.
  - destruct (unmountAtom_frame atom (unmountAtom atom s)) as (H1 & H2 & H3).
    now split.
  - apply map_eq. intros b. rewrite (unmountAtom_lookup atom (unmountAtom atom s)).
    assert (Hdeps : recordedDeps atom (unmountAtom atom s) = recordedDeps atom s).
    { unfold recordedDeps, getAtomState.
      now rewrite (proj1 (unmountAtom_frame atom s)). }
    rewrite Hdeps, (unmountAtom_lookup atom s).
    destruct (decide (b = atom)); [reflexivity|].
    destruct (decide (b ∈ recordedDeps atom s)); [|reflexivity].
    destruct (mountedMap s !! b) as [m|]; [|reflexivity].
    simpl. now rewrite set_delete_idemp.
Qed.

Lemma set_add_idemp xs x : set_add (set_add xs x) x = set_add xs x.
Proof.
  unfold set_add at 1. rewrite decide_True; [reflexivity|].
  apply set_add_elem. now right.
Qed.

Lemma set_delete_add xs x : x ∉ xs -> set_delete (set_add xs x) x = xs.
Proof.
  intros Hx. unfold set_add. rewrite decide_False by exact Hx.
  unfold set_delete. rewrite filter_app.
  rewrite (filter_cons_False (fun y => y <> x)) by (intros H; now apply H).
  rewrite filter_nil, app_nil_r.
  induction xs as [|y xs IH]; [reflexivity|].
  rewrite filter_cons_True by (intros ->; apply Hx; left).
  f_equal. apply IH. intros Hin. apply Hx. now right.
Qed.

(** The loop of [mountAtom(atom)] over dependencies that are all mounted
    already: [atom] joins the dependents of each of them, nothing else. *)
Lemma mountDeps_mounted rec atom deps : forall s,
  mountedMap s !! atom = None ->
  (forall b, b ∈ deps -> b <> atom -> is_Some (mountedMap s !! b)) ->
  exists s1,
    forEach (mountDep rec atom) deps s = Ok tt s1 /\
    sameButMount s s1 /\
    forall b, mountedMap s1 !! b =
      if decide (b ∈ deps /\ b <> atom)
      then (fun m => mkMounted (l m) (set_add (t m) atom)) <$> mountedMap s !! b
      else mountedMap s !! b.
Proof.
  set (add := fun m => mkMounted (l m) (set_add (t m) atom)).
  induction deps as [|a deps IH]; intros s Hatom Hdeps.
  - exists s. split; [reflexivity|]. split; [apply sameButMount_refl|].
    intros b. rewrite decide_False; [reflexivity|].
    intros [H _]. now apply elem_of_nil in H.
  - cbn [forEach]. unfold mountDep at 1.
    destruct (decide (a = atom)) as [->|Hne].
    + rewrite Hatom. cbn [bind].
      destruct (IH s Hatom) as (s1 & Hrun & Hfr & Hlook).
      { intros b Hb. apply Hdeps. now right. }
      exists s1. split; [exact Hrun|]. split; [exact Hfr|].
      intros b. rewrite Hlook.
      destruct (decide (b ∈ deps /\ b <> atom)) as [[H1 H2]|Hn].
      * rewrite decide_True; [reflexivity|]. split; [now right|exact H2].
      * rewrite decide_False; [reflexivity|]. intros [H1 H2]. apply Hn.
        split; [|exact H2]. apply elem_of_cons in H1 as [->|H1]; [contradiction|exact H1].
    + destruct (Hdeps a) as [m Hm]; [left|exact Hne|]. rewrite Hm. cbv iota.
      cbn [bind].
      fold add.
      destruct (IH (updMounted a add s)) as (s1 & Hrun & Hfr & Hlook).
      { simpl. rewrite lookup_alter_ne by congruence. exact Hatom. }
      { intros b Hb Hba. simpl. destruct (decide (b = a)) as [->|Hbne].
        - rewrite lookup_alter_eq, Hm. simpl. eauto.
        - rewrite lookup_alter_ne by congruence. apply Hdeps; [now right|exact Hba]. }
      exists s1. split; [exact Hrun|]. split.
      { eapply sameButMount_trans; [|exact Hfr]. now split. }
      intros b. rewrite Hlook. simpl.
      destruct (decide (b = a)) as [->|Hbne].
      * rewrite lookup_alter_eq, Hm. simpl.
        rewrite (decide_True (P := a ∈ a :: deps /\ a <> atom))
          by (split; [left|exact Hne]).
        destruct (decide (a ∈ deps /\ a <> atom)); [|reflexivity].
        unfold add. simpl. now rewrite set_add_idemp.
      * rewrite lookup_alter_ne by congruence.
        destruct (decide (b ∈ deps /\ b <> atom)) as [[H1 H2]|Hn].
        -- rewrite decide_True; [reflexivity|]. split; [now right|exact H2].
        -- rewrite decide_False; [reflexivity|]. intros [H1 H2]. apply Hn.
           split; [|exact H2].
           apply elem_of_cons in H1 as [->|H1]; [contradiction|exact H1].
Qed.

(** X18: subscribing an atom that has no mount record, when the other
    dependencies recorded in its cached state are mounted and do not list
    it, mounts the atom with that one listener, appends the atom to the
    dependents of each of those dependencies, and touches no other record;
    unsubscribing gives back the store as it was. *)
Theorem X18_subscribe_then_unsubscribe fuel atom listener s s' :
  mountedMap s !! atom = None ->
  (forall b, b ∈ recordedDeps atom s -> b <> atom ->
     exists m, mountedMap s !! b = Some m /\ atom ∉ t m) ->
  subscribeAtom fuel atom listener s = Ok tt s' ->
  mountedMap s' !! atom = Some (mkMounted [listener] []) /\
  (forall b, b ∈ recordedDeps atom s -> b <> atom ->
     mountedMap s' !! b =
       (fun m => mkMounted (l m) (t m ++ [atom])) <$> mountedMap s !! b) /\
  (forall b, b ∉ recordedDeps atom s -> b <> atom ->
     mountedMap s' !! b = mountedMap s !! b) /\
  unsubscribe atom s' = s.
Proof.
  intros Hatom Hdeps Hsub.
  destruct fuel as [|fuel].
  { unfold subscribeAtom, addAtom in Hsub. rewrite Hatom in Hsub. discriminate. }
  unfold subscribeAtom, addAtom in Hsub. rewrite Hatom in Hsub.
  cbn [mountAtom] in Hsub.
  destruct (mountDeps_mounted (mountAtom fuel) atom (recordedDeps atom s) s Hatom)
    as (s1 & Hrun & Hfr & Hlook).
  { intros b Hb Hne. destruct (Hdeps b Hb Hne) as (m & -> & _). eauto. }
  unfold recordedDeps in Hrun. rewrite Hrun in Hsub. cbn [bind] in Hsub.
  injection Hsub as <-.
  assert (Hself : mountedMap
            (updMounted atom (fun m => mkMounted (set_add (l m) listener) (t m))
               (setMounted atom (mkMounted [] []) s1)) !! atom
          = Some (mkMounted [listener] [])).
  { simpl. rewrite lookup_alter_eq, lookup_insert_eq. reflexivity. }
  assert (Hothers : forall b, b <> atom ->
            mountedMap
              (updMounted atom (fun m => mkMounted (set_add (l m) listener) (t m))
                 (setMounted atom (mkMounted [] []) s1)) !! b
            = if decide (b ∈ recordedDeps atom s /\ b <> atom)
              then (fun m => mkMounted (l m) (set_add (t m) atom)) <$> mountedMap s !! b
              else mountedMap s !! b).
  { intros b Hne. simpl.
    rewrite lookup_alter_ne, lookup_insert_ne by congruence. apply Hlook. }
  split; [exact Hself|]. split; [|split].
  - intros b Hb Hne. rewrite Hothers by exact Hne.
    rewrite decide_True by now split.
    destruct (Hdeps b Hb Hne) as (m & -> & Hm). simpl.
    unfold set_add. now rewrite decide_False by exact Hm.
  - intros b Hb Hne. rewrite Hothers by exact Hne.
    rewrite decide_False; [reflexivity|]. now intros [H _].
  - unfold unsubscribe. apply store_eq.
    + destruct (unmountAtom_frame atom
                  (updMounted atom (fun m => mkMounted (set_add (l m) listener) (t m))
                     (setMounted atom (mkMounted [] []) s1))) as (H1 & H2 & H3).
      destruct Hfr as (F1 & F2 & F3).
      split; [|split]; [rewrite <- F1|rewrite <- F2|rewrite <- F3]; assumption.
    + apply map_eq. intros b. rewrite unmountAtom_lookup.
      assert (Hd : recordedDeps atom
                (updMounted atom (fun m => mkMounted (set_add (l m) listener) (t m))
                   (setMounted atom (mkMounted [] []) s1)) = recordedDeps atom s).
      { unfold recordedDeps, getAtomState. simpl. now rewrite (proj1 Hfr). }
      rewrite Hd.
      destruct (decide (b = atom)) as [->|Hne]; [now rewrite Hatom|].
      rewrite Hothers by exact Hne.
      destruct (decide (b ∈ recordedDeps atom s)) as [Hb|Hb].
      * rewrite decide_True by now split.
        destruct (Hdeps b Hb Hne) as (m & -> & Hm). simpl.
        rewrite set_delete_add by exact Hm. now destruct m.
      * rewrite decide_False; [reflexivity|]. now intros [H _].
Qed.

(** [sub(double, 9)] and its unsubscribe function, with [count] mounted. *)
Lemma X18_witness :
  unsubscribe App.double
    (App.after (App.sub App.double 9 Cases.countShared)) = Cases.countShared.
Proof.
  apply (X18_subscribe_then_unsubscribe 8 App.double 9 Cases.countShared).
  - vm_compute. reflexivity.
  - intros b Hb Hne. vm_compute in Hb.
    apply list_elem_of_singleton in Hb. subst b.
    eexists. split; [vm_compute; reflexivity|]. vm_compute.
    intros H. now apply elem_of_nil in H.
  - vm_compute. reflexivity.
Defined.

(** *** The dependents graph has no cycle *)

Lemma mounted_bound (M : gmap AtomRef Mounted) (time : AtomRef -> nat) :
  exists B, forall x, is_Some (M !! x) -> time x < B.
Proof.
  induction M as [|i x M Hi _ [B HB]] using map_first_key_ind.
  - exists 0. intros x [m Hm]. now rewrite lookup_empty in Hm.
  - exists (Nat.max B (S (time i))). intros y Hy.
    destruct (decide (y = i)) as [->|Hne]; [lia|].
    rewrite lookup_insert_ne in Hy by congruence. specialize (HB y Hy). lia.
Qed.

Lemma reach_source M a b : reach M a b -> is_Some (M !! a).
Proof. intros [a' m b' Hm _|a' m c b' Hm _ _]; eauto. Qed.

Lemma reach_ordered M time a b :
  ordered M time -> reach M a b -> is_Some (M !! b) -> time a < time b.
Proof.
  intros Hord Hreach. induction Hreach as [a m b Hm Hb|a m c b Hm Hc Hcb IH];
    intros Hmb.
  - now apply (Hord a m b).
  - specialize (IH Hmb). apply reach_source in Hcb.
    specialize (Hord a m c Hm Hc Hcb). lia.
Qed.

Lemma ordered_add M time a atom :
  M !! atom = None -> ordered M time ->
  ordered (alter (fun m => mkMounted (l m) (set_add (t m) atom)) a M) time.
Proof.
  intros Hatom Hord x m b Hm Hb Hmb.
  assert (Hsame : forall y, is_Some (alter (fun m => mkMounted (l m) (set_add (t m) atom)) a M !! y)
                            -> is_Some (M !! y)).
  { intros y. destruct (decide (y = a)) as [->|Hne].
    - rewrite lookup_alter_eq. destruct (M !! a); simpl; [eauto|intros [? [=]]].
    - now rewrite lookup_alter_ne. }
  apply Hsame in Hmb.
  destruct (decide (x = a)) as [->|Hne].
  - rewrite lookup_alter_eq in Hm. destruct (M !! a) as [m0|] eqn:Hm0; [|discriminate].
    injection Hm as <-. simpl in Hb. apply set_add_elem in Hb as [Hb| ->].
    + now apply (Hord a m0 b).
    + destruct Hmb as [x Hx]. exfalso.
      assert (Some x = None) as [=]. rewrite <- Hx. exact Hatom.
  - rewrite lookup_alter_ne in Hm by congruence. now apply (Hord x m b).
Qed.

Section MountOrder.

Variable rank : AtomRef -> nat.

(** [mountAtom(atom, initialDependent)] on an atom without a mount record,
    whose [initialDependent] has none either. *)
Lemma mountAtom_ordered fuel : forall atom initialDependent s s' time B,
  rankedDeps rank s ->
  mountedMap s !! atom = None ->
  (forall i, initialDependent = Some i -> mountedMap s !! i = None /\ rank atom < rank i) ->
  ordered (mountedMap s) time ->
  (forall x, is_Some (mountedMap s !! x) -> time x < B) ->
  mountAtom fuel atom initialDependent s = Ok tt s' ->
  exists time' B',
    ordered (mountedMap s') time' /\
    (forall x, is_Some (mountedMap s' !! x) -> time' x < B') /\
    (forall x, mountedMap s !! x = None -> rank atom < rank x ->
               mountedMap s' !! x = None).
Proof.
  induction fuel as [|fuel IH];
    intros atom initialDependent s s' time B Hranked Hatom Hinit Hord Hbound Hrun;
    [discriminate|].
  cbn [mountAtom] in Hrun. apply bind_Ok in Hrun as ([] & s1 & Hloop & Hset).
  injection Hset as <-.
  set (deps := from_option (fun atomState => map_keys (d atomState)) []
                 (getAtomState atom s)) in Hloop.
  assert (Hdeps : forall a, a ∈ deps -> a <> atom -> rank a < rank atom).
  { intros a Ha. now apply Hranked. }
  assert (Hl : exists time1 B1,
    ordered (mountedMap s1) time1 /\
    (forall x, is_Some (mountedMap s1 !! x) -> time1 x < B1) /\
    (forall x, mountedMap s !! x = None -> rank atom <= rank x ->
               mountedMap s1 !! x = None)).
  { clear Hinit. clearbody deps. revert s time B Hranked Hatom Hord Hbound Hloop.
    induction deps as [|a deps IHd]; intros s time B Hranked Hatom Hord Hbound Hloop.
    - injection Hloop as <-. exists time, B. auto.
    - cbn [forEach] in Hloop. apply bind_Ok in Hloop as ([] & s2 & Ha & Hrest).
      assert (Hdeps' : forall a0, a0 ∈ deps -> a0 <> atom -> rank a0 < rank atom).
      { intros a0 Ha0. apply Hdeps. now right. }
      assert (Hstep : exists time2 B2,
        rankedDeps rank s2 /\
        ordered (mountedMap s2) time2 /\
        (forall x, is_Some (mountedMap s2 !! x) -> time2 x < B2) /\
        (forall x, mountedMap s !! x = None -> rank atom <= rank x ->
                   mountedMap s2 !! x = None)).
      { unfold mountDep in Ha.
        destruct (mountedMap s !! a) as [m|] eqn:Hm.
        - injection Ha as <-. exists time, B. split; [exact Hranked|].
          split; [now apply ordered_add|]. split.
          + intros x Hx. apply Hbound. simpl in Hx.
            destruct (decide (x = a)) as [->|Hne]; [eauto|].
            now rewrite lookup_alter_ne in Hx.
          + intros x Hx _. simpl.
            destruct (decide (x = a)) as [->|Hne]; [congruence|].
            now rewrite lookup_alter_ne.
        - destruct (decide (a = atom)) as [->|Hne].
          + injection Ha as <-. exists time, B. auto.
          + assert (Hlt : rank a < rank atom) by (apply Hdeps; [left|exact Hne]).
            destruct (IH a (Some atom) s s2 time B Hranked Hm) as (time2 & B2 & H1 & H2 & H3);
              [|exact Hord|exact Hbound|exact Ha|].
            { intros i [= <-]. now split. }
            exists time2, B2. split.
            { intros x y Hy. apply Hranked. unfold recordedDeps, getAtomState in *.
              assert (sameButMount s s2) as (Hsame & _).
              { apply (mountAtom_frame fuel a (Some atom)). now rewrite Ha. }
              now rewrite <- Hsame. }
            split; [exact H1|]. split; [exact H2|].
            intros x Hx Hx'. apply H3; [exact Hx|lia]. }
      destruct Hstep as (time2 & B2 & Hranked2 & Hord2 & Hbound2 & Hun2).
      destruct (IHd Hdeps' s2 time2 B2 Hranked2) as (time1 & B1 & H1 & H2 & H3);
        [now apply Hun2|exact Hord2|exact Hbound2|exact Hrest|].
      exists time1, B1. split; [exact H1|]. split; [exact H2|].
      intros x Hx Hx'. apply H3; [now apply Hun2|exact Hx']. }
  destruct Hl as (time1 & B1 & Hord1 & Hbound1 & Hun1).
  assert (Hatom1 : mountedMap s1 !! atom = None) by now apply Hun1.
  exists (fun x => if decide (x = atom) then B1 else time1 x), (S B1).
  cbn [setMounted mountedMap]. split; [|split].
  - intros a m b Hm Hb Hmb.
    destruct (decide (a = atom)) as [->|Hne].
    + rewrite lookup_insert_eq in Hm. injection Hm as <-. cbn [t] in Hb.
      destruct initialDependent as [i|]; [|now apply elem_of_nil in Hb].
      apply list_elem_of_singleton in Hb. subst b.
      destruct (Hinit i eq_refl) as [Hi Hlt].
      rewrite lookup_insert_ne in Hmb by (intros ->; lia).
      rewrite Hun1 in Hmb; [now destruct Hmb|exact Hi|lia].
    + rewrite lookup_insert_ne in Hm by congruence.
      destruct (decide (b = atom)) as [->|Hneb].
      * apply Hbound1. eauto.
      * rewrite lookup_insert_ne in Hmb by congruence. now apply (Hord1 a m b).
  - intros x Hx. destruct (decide (x = atom)) as [->|Hne]; [lia|].
    rewrite lookup_insert_ne in Hx by congruence. specialize (Hbound1 x Hx). lia.
  - intros x Hx Hlt. rewrite lookup_insert_ne by (intros ->; lia).
    apply Hun1; [exact Hx|lia].
Qed.

End MountOrder.

Lemma ordered_listener M time atom listener :
  ordered M time ->
  ordered (alter (fun m => mkMounted (set_add (l m) listener) (t m)) atom M) time.
Proof.
  intros Hord x m b Hm Hb Hmb.
  assert (Hmb' : is_Some (M !! b)).
  { destruct (decide (b = atom)) as [->|Hne].
    - rewrite lookup_alter_eq in Hmb. destruct (M !! atom); [eauto|].
      destruct Hmb as [? [=]].
    - now rewrite lookup_alter_ne in Hmb. }
  destruct (decide (x = atom)) as [->|Hne].
  - rewrite lookup_alter_eq in Hm. destruct (M !! atom) as [m0|] eqn:Hm0; [|discriminate].
    injection Hm as <-. now apply (Hord atom m0 b).
  - rewrite lookup_alter_ne in Hm by congruence. now apply (Hord x m b).
Qed.

(** X19: the dependents sets of the mounted atoms never form a cycle: a new
    store has none, [get], [set] and the unsubscribe function add none, and
    [sub] adds none when the dependencies recorded in the cached states
    have no cycle; so no mounted atom is reachable from itself through the
    dependents sets that [recomputeDependents] follows. *)
Theorem X19_dependents_graph_has_no_cycle
    (atoms : AtomRef -> AtomConfig) (listeners : ListenerRef -> list Call) :
  acyclicMount createStore /\
  (forall fuel atom s s',
     acyclicMount s -> final (readAtom atoms fuel atom s) = Some s' ->
     acyclicMount s') /\
  (forall fuel atom args s s',
     acyclicMount s -> final (writeAtom atoms listeners fuel atom args s) = Some s' ->
     acyclicMount s') /\
  (forall rank fuel atom listener s s',
     acyclicMount s -> rankedDeps rank s ->
     subscribeAtom fuel atom listener s = Ok tt s' ->
     acyclicMount s') /\
  (forall atom s, acyclicMount s -> acyclicMount (unsubscribe atom s)) /\
  (forall s a, acyclicMount s -> ~ reach (mountedMap s) a a).
Proof.
  split.
  { exists (fun _ => 0). intros a m b Hm. simpl in Hm. now rewrite lookup_empty in Hm. }
  split.
  { intros fuel atom s s' [time Hord] Hfin. exists time.
    assert (readFrame s s') as [-> _]; [|exact Hord].
    now apply (readAtom_readFrame atoms fuel atom). }
  split.
  { intros fuel atom args s s' [time Hord] Hfin. exists time.
    now rewrite (writeAtom_mountedMap atoms listeners (mountedMap s) fuel atom args s s'). }
  split.
  { intros rank fuel atom listener s s' [time Hord] Hranked Hsub.
    unfold subscribeAtom in Hsub. apply bind_Ok in Hsub as ([] & s1 & Hadd & Hok).
    injection Hok as <-. cbn [updMounted mountedMap].
    unfold addAtom in Hadd. destruct (mountedMap s !! atom) as [m|] eqn:Hm.
    - injection Hadd as <-. exists time. now apply ordered_listener.
    - destruct (mounted_bound (mountedMap s) time) as [B HB].
      destruct (mountAtom_ordered rank fuel atom None s s1 time B)
        as (time' & B' & Hord' & _); auto; [discriminate|].
      exists time'. now apply ordered_listener. }
  split.
  { intros atom s [time Hord]. exists time. unfold unsubscribe.
    intros a m b Hm Hb Hmb. rewrite unmountAtom_lookup in Hm, Hmb.
    destruct (decide (a = atom)); [discriminate|].
    assert (Hmb' : is_Some (mountedMap s !! b)).
    { destruct (decide (b = atom)); [now destruct Hmb|].
      destruct (decide (b ∈ recordedDeps atom s)); [|exact Hmb].
      destruct (mountedMap s !! b); [eauto|now destruct Hmb]. }
    destruct (decide (a ∈ recordedDeps atom s)).
    - destruct (mountedMap s !! a) as [m0|] eqn:Hm0; [|discriminate].
      injection Hm as <-. simpl in Hb. apply set_delete_elem in Hb as [Hb _].
      now apply (Hord a m0 b).
    - now apply (Hord a m b). }
  intros s a [time Hord] Hcycle.
  pose proof (reach_ordered _ time a a Hord Hcycle (reach_source _ _ _ Hcycle)). lia.
Qed.


(** ** Hooks and devtools *)

(** X20: the reducer of [useAtomValue] returns the previous value when
    [store.get(atom)] is [Object.is]-equal to it and [undefined] otherwise,
    never the new value; applied again it returns the same result, and from
    [undefined] it only ever returns [undefined]. *)
Theorem X20_useAtomValue_reducer_forgets_new_values atoms :
  (forall fuel atom prev s r s',
     useAtomValue_reducer atoms fuel atom prev s = Ok r s' ->
     exists nextValue,
       readAtom atoms fuel atom s = Ok nextValue s' /\
       ((nextValue = prev /\ r = prev) \/ (nextValue <> prev /\ r = VUndefined)) /\
       (forall fuel', useAtomValue_reducer atoms (S fuel') atom r s' = Ok r s')) /\
  (forall fuel atom s r s',
     useAtomValue_reducer atoms fuel atom VUndefined s = Ok r s' -> r = VUndefined).
Proof.
  split.
  - intros fuel atom prev s r s' Hrun. unfold useAtomValue_reducer in Hrun.
    apply bind_Ok in Hrun as (nextValue & s1 & Hget & Hret).
    injection Hret as <- <-. exists nextValue. split; [exact Hget|].
    assert (Hcached : forall fuel', readAtom atoms (S fuel') atom s1 = Ok nextValue s1).
    { intros fuel'. unfold readAtom in Hget.
      apply bind_Ok in Hget as (st & s2 & Hr & Hok). injection Hok as <- <-.
      apply readAtom_cached. now apply readAtomState_Ok_cached in Hr. }
    unfold Object_is. case_bool_decide as Heq.
    + split; [left; now split|]. intros fuel'. unfold useAtomValue_reducer.
      rewrite Hcached. cbn [bind]. unfold Object_is.
      now rewrite bool_decide_eq_true_2 by exact Heq.
    + split; [right; split; [congruence|reflexivity]|]. intros fuel'.
      unfold useAtomValue_reducer. rewrite Hcached. cbn [bind].
      now destruct (Object_is VUndefined nextValue).
  - intros fuel atom s r s' Hrun. unfold useAtomValue_reducer in Hrun.
    apply bind_Ok in Hrun as (nextValue & s1 & _ & Hret).
    injection Hret as <- _. now destruct (Object_is VUndefined nextValue).
Qed.

Lemma forEach_app {A} (f : A -> Store -> Res unit) xs ys s :
  forEach f (xs ++ ys) s = let! _ := forEach f xs s in forEach f ys.
Proof.
  revert s. induction xs as [|x xs IH]; intros s; [reflexivity|].
  simpl. destruct (f x s) as [[] s1|e s1|]; simpl; [apply IH|reflexivity..].
Qed.

Lemma traceFrom_trans T evs s :
  traceFrom (T ++ evs) s -> traceFrom T s.
Proof. intros [evs' H]. exists (evs ++ evs'). now rewrite H, <- app_assoc. Qed.

Section Recompute.

Variable atoms : AtomRef -> AtomConfig.

Lemma recomputeOne_traceFrom T fuel A X s s' :
  traceFrom T s ->
  final (recomputeOne atoms fuel (recomputeDependents atoms fuel) A X s) = Some s' ->
  traceFrom T s'.
Proof.
  intros Hs Hone. unfold recomputeOne in Hone.
  assert (Hread : forall s3 s4, traceFrom T s3 ->
            final (readAtomState atoms fuel X true s3) = Some s4 -> traceFrom T s4).
  { intros s3 s4. apply (readAtomState_inv' atoms (traceFrom T)).
    - intros e s5. apply traceFrom_log.
    - intros b value deps s5. apply traceFrom_set. }
  assert (Hrec : forall s3 s4, traceFrom T s3 ->
            final (recomputeDependents atoms fuel X s3) = Some s4 -> traceFrom T s4).
  { intros s3 s4. apply (recomputeDependents_inv atoms (traceFrom T)).
    - intros e s5. apply traceFrom_log.
    - intros b value deps s5. apply traceFrom_set. }
  apply final_bind in Hone as [([] & s3 & Hrd & Hr)|(e & Hrd)].
  - eapply Hrec; [|exact Hr].
    destruct (decide (X = A)); [congruence|].
    apply bind_Ok in Hrd as (st & s4 & Hrd & Hok).
    assert (s4 = s3) as -> by congruence.
    eapply Hread; [exact Hs|now rewrite Hrd].
  - destruct (decide (X = A)); [discriminate|].
    apply bind_Throw in Hrd as [Hrd|(st & s4 & _ & Hok)]; [|discriminate].
    eapply Hread; [exact Hs|now rewrite Hrd].
Qed.

(** A dependent recorded in the mount record of [A] is read anew. *)
Lemma recomputeDependents_child fuel A s s' m X :
  mountedMap s !! A = Some m -> X ∈ t m -> X <> A ->
  recomputeDependents atoms fuel A s = Ok tt s' ->
  exists evs, trace s' = trace s ++ evs /\ EvRead X ∈ evs.
Proof.
  intros Hm HX Hne Hrun. destruct fuel as [|fuel]; [discriminate|].
  cbn [recomputeDependents] in Hrun.
  change (mountedMap (log (EvRecompute A) s)) with (mountedMap s) in Hrun.
  rewrite Hm in Hrun.
  apply list_elem_of_split in HX as (xs1 & xs2 & Hsplit). rewrite Hsplit in Hrun.
  rewrite forEach_app in Hrun. apply bind_Ok in Hrun as ([] & sa & H1 & Hrun).
  cbn [forEach] in Hrun. apply bind_Ok in Hrun as ([] & sb & HX & H2).
  assert (Ha : traceFrom (trace s) sa).
  { apply (forEach_final (traceFrom (trace s))
             (recomputeOne atoms fuel (recomputeDependents atoms fuel) A) xs1)
        with (s := log (EvRecompute A) s);
      [|exists [EvRecompute A]; reflexivity|now rewrite H1].
    intros x s1 s2 _. apply recomputeOne_traceFrom. }
  destruct Ha as [evsa Ha].
  unfold recomputeOne in HX. rewrite decide_False in HX by exact Hne.
  apply bind_Ok in HX as ([] & sx & Hread & Hrec).
  apply bind_Ok in Hread as (st & sy & Hread & Hok). injection Hok as <-.
  apply readAtomState_forced_logs in Hread as [evsx Hx].
  assert (Hb : traceFrom (trace sy) s').
  { assert (traceFrom (trace sy) sb) as Hsb.
    { apply (recomputeDependents_inv atoms (traceFrom (trace sy))) with fuel X sy.
      - intros e s5. apply traceFrom_log.
      - intros b value deps s5. apply traceFrom_set.
      - exists []. now rewrite app_nil_r.
      - now rewrite Hrec. }
    apply (forEach_final (traceFrom (trace sy))
             (recomputeOne atoms fuel (recomputeDependents atoms fuel) A) xs2)
        with (s := sb); [|exact Hsb|now rewrite H2].
    intros x s1 s2 _. apply recomputeOne_traceFrom. }
  destruct Hb as [evsb Hb].
  exists (evsa ++ EvRead X :: evsx ++ evsb). split.
  - rewrite Hb, Hx, Ha. now rewrite <- !app_assoc.
  - apply elem_of_app. right. left.
Qed.

End Recompute.

Lemma setSelf_changed atoms fuel a x s s' :
  setSelf atoms fuel a [x] s = Ok tt s' ->
  (v <$> getAtomState a s) <> Some x ->
  recomputeDependents atoms fuel a (setAtomValue a x None s).2 = Ok tt s'.
Proof.
  unfold setSelf. change (arg0 [x]) with x.
  pose proof (setAtomValue_installed a x None s) as [_ Hv].
  destruct (setAtomValue a x None s) as [next s1]. cbn [fst snd] in *.
  destruct (getAtomState a s) as [prev|]; [|auto].
  unfold isEqualAtomValue, Object_is. rewrite Hv. case_bool_decide as Heq; [|auto].
  intros _ H. destruct H. simpl. now rewrite Heq.
Qed.

(** A [set] on a cell built by [atom(i)] that changes the value enters
    [recomputeDependents] with the mount table it started with. *)
Lemma writeAtomState_primitive_recomputes
    (atoms : AtomRef -> AtomConfig) (fns : nat -> Value -> Value)
    (fuel : nat) (W : AtomRef) (i arg r : Value) (s s' : Store) :
  atoms W = atom fns W (inl i) None ->
  writeAtomState atoms fuel W [arg] s = Ok r s' ->
  let current := from_option v i (getAtomState W s) in
  let next := match arg with VFun f => fns f current | _ => arg end in
  let previous :=
    match arg with VFun _ => Some current | _ => v <$> getAtomState W s end in
  previous <> Some next ->
  exists fuel' s1,
    mountedMap s1 = mountedMap s /\ traceFrom (trace s) s1 /\
    recomputeDependents atoms fuel' W s1 = Ok tt s'.
Proof.
  intros Hatom Hrun current next previous Hchanged.
  assert (W_read : read (atoms W) = RGet W RRet) by now rewrite Hatom.
  assert (W_init : init (atoms W) = Some i) by now rewrite Hatom.
  destruct fuel as [|fuel]; [discriminate|]. cbn [writeAtomState] in Hrun.
  replace (write (atoms W)) with (Some (defaultWrite fns W)) in Hrun
    by now rewrite Hatom.
  assert (Hdirect : forall x s0,
    evalWrite atoms fuel (writeAtomState atoms fuel) W (WSet W [x] WRet) s0 = Ok r s' ->
    (v <$> getAtomState W s0) <> Some x ->
    exists fuel' s1,
      mountedMap s1 = mountedMap s0 /\ traceFrom (trace s0) s1 /\
      recomputeDependents atoms fuel' W s1 = Ok tt s').
  { intros x s0 Hx Hne. cbn [evalWrite] in Hx. rewrite decide_True in Hx by reflexivity.
    apply bind_Ok in Hx as ([] & s1 & Hself & Hret). injection Hret as _ <-.
    apply setSelf_changed in Hself; [|exact Hne].
    exists fuel, (setAtomValue W x None s0).2.
    split; [apply setAtomValue_mountedMap|]. split; [|exact Hself].
    apply traceFrom_set. exists []. now rewrite app_nil_r. }
  subst current next previous.
  destruct arg as [|n|o|f];
    [exact (Hdirect VUndefined s Hrun Hchanged)
    |exact (Hdirect (VNum n) s Hrun Hchanged)
    |exact (Hdirect (VObj o) s Hrun Hchanged)|].
  unfold defaultWrite in Hrun. cbn [arg0 hd evalWrite] in Hrun.
  apply bind_Ok in Hrun as (aState & s1 & Hget & Hrun).
  destruct fuel as [|fuel]; [discriminate|].
  rewrite (readAtomState_primitive atoms W i W_read W_init) in Hget.
  unfold returnAtomValue in Hrun.
  destruct (getAtomState W s) as [st|] eqn:Hst; injection Hget as <- <-;
    cbn [from_option v] in *.
  - apply Hdirect in Hrun; [exact Hrun|]. rewrite Hst. exact Hchanged.
  - apply Hdirect in Hrun as (fuel' & s1 & HM & Htr & Hrec).
    + exists fuel', s1. split; [exact HM|]. split; [|exact Hrec].
      apply (traceFrom_trans (trace s) [EvRead W]). exact Htr.
    + unfold getAtomState. simpl. rewrite lookup_insert_eq. exact Hchanged.
Qed.

Lemma flushPending_traceFrom atoms listeners T fuel s s' :
  traceFrom T s -> final (flushPending atoms listeners fuel s) = Some s' ->
  traceFrom T s'.
Proof.
  apply (flushPending_inv atoms listeners (traceFrom T)).
  - intros e s0. apply traceFrom_log.
  - intros a value deps s0. apply traceFrom_set.
  - intros s0. apply traceFrom_clear.
Qed.

(** X21: [useAtomValue(atom)] on an atom without a mount record ([get], then
    [sub] with the re-render dispatch) leaves the atom cached with the value
    returned and mounted with the dispatch registered, and every other
    dependency recorded for it mounted with the atom among its dependents;
    a later [set] on such a dependency built by [atom(initialValue)] that
    changes its value and returns has run the read function of the atom
    again. *)
Theorem X21_useAtomValue_subscribes_to_dependencies
    atoms fuel D rerender s value s' :
  mountedMap s !! D = None ->
  useAtomValue atoms fuel D rerender s = Ok value s' ->
  (v <$> getAtomState D s') = Some value /\
  (exists m, mountedMap s' !! D = Some m /\ rerender ∈ l m) /\
  (forall b, b ∈ recordedDeps D s' -> b <> D ->
     exists m, mountedMap s' !! b = Some m /\ D ∈ t m) /\
  (forall fns listeners W i fuel' arg r s'',
     W ∈ recordedDeps D s' -> W <> D ->
     atoms W = atom fns W (inl i) None ->
     let current := from_option v i (getAtomState W s') in
     let next := match arg with VFun f => fns f current | _ => arg end in
     let previous :=
       match arg with VFun _ => Some current | _ => v <$> getAtomState W s' end in
     previous <> Some next ->
     writeAtom atoms listeners fuel' W [arg] s' = Ok r s'' ->
     exists evs, trace s'' = trace s' ++ evs /\ EvRead D ∈ evs).
Proof.
  intros Hun Hrun. unfold useAtomValue in Hrun.
  apply bind_Ok in Hrun as (value' & s1 & Hget & Hrun).
  apply bind_Ok in Hrun as ([] & s2 & Hsub & Hok). injection Hok as <- <-.
  assert (Hfr : sameButMount s1 s2).
  { apply (subscribeAtom_frame fuel D rerender s1 s2). now rewrite Hsub. }
  assert (Hun1 : mountedMap s1 !! D = None).
  { assert (readFrame s s1) as [HM _]; [|now rewrite HM].
    apply (readAtom_readFrame atoms fuel D s s1). now rewrite Hget. }
  assert (Hstate : getAtomState D s2 = getAtomState D s1).
  { unfold getAtomState. now rewrite (proj1 Hfr). }
  assert (Hdeps : recordedDeps D s2 = recordedDeps D s1).
  { unfold recordedDeps. now rewrite Hstate. }
  apply subscribeAtom_spec in Hsub as (Hmounted & _ & _ & Hedges).
  assert (Hall : forall b, b ∈ recordedDeps D s2 -> b <> D ->
            exists m, mountedMap s2 !! b = Some m /\ D ∈ t m).
  { intros b Hb Hne. rewrite Hdeps in Hb. unfold recordedDeps in Hb.
    destruct (getAtomState D s1) as [st|] eqn:Hst; [|now apply elem_of_nil in Hb].
    now apply (Hedges Hun1 st b). }
  split.
  { rewrite Hstate. apply readAtom_Ok_cached in Hget as (st & -> & <-). reflexivity. }
  split; [exact Hmounted|]. split; [exact Hall|].
  intros fns listeners W i fuel' arg r s'' HW Hne Hatom current next previous
    Hchanged Hset.
  destruct (Hall W HW Hne) as (m & Hm & HD).
  unfold writeAtom, writeThenFlush in Hset.
  apply bind_Ok in Hset as (r1 & s3 & Hwrite & Hrest).
  apply bind_Ok in Hrest as ([] & s4 & Hflush & Hok). injection Hok as _ <-.
  apply (writeAtomState_primitive_recomputes atoms fns fuel' W i arg) in Hwrite
    as (fuel'' & sx & HM & [evs0 Ht0] & Hrec); [|exact Hatom|exact Hchanged].
  apply (recomputeDependents_child atoms fuel'' W sx s3 m D) in Hrec
    as (evs1 & Ht1 & Hin); [|now rewrite HM|exact HD|congruence].
  assert (traceFrom (trace s3) s4) as [evs2 Ht2].
  { apply (flushPending_traceFrom atoms listeners (trace s3) fuel' s3 s4).
    - exists []. now rewrite app_nil_r.
    - now rewrite Hflush. }
  exists (evs0 ++ evs1 ++ evs2). split.
  - rewrite Ht2, Ht1, Ht0. now rewrite <- !app_assoc.
  - apply elem_of_app. right. apply elem_of_app. now left.
Qed.


(** [useAtomValue(double)] on a new store. *)
Lemma X21_witness :
  (v <$> getAtomState App.double Cases.doubleWatched) = Some (VNum 0) /\
  (exists m, mountedMap Cases.doubleWatched !! App.double = Some m /\ 7 ∈ l m) /\
  (forall b, b ∈ recordedDeps App.double Cases.doubleWatched -> b <> App.double ->
     exists m, mountedMap Cases.doubleWatched !! b = Some m /\ App.double ∈ t m) /\
  (forall fns listeners W i fuel' arg r s'',
     W ∈ recordedDeps App.double Cases.doubleWatched -> W <> App.double ->
     App.atoms W = atom fns W (inl i) None ->
     let current := from_option v i (getAtomState W Cases.doubleWatched) in
     let next := match arg with VFun f => fns f current | _ => arg end in
     let previous :=
       match arg with
       | VFun _ => Some current
       | _ => v <$> getAtomState W Cases.doubleWatched
       end in
     previous <> Some next ->
     writeAtom App.atoms listeners fuel' W [arg] Cases.doubleWatched = Ok r s'' ->
     exists evs, trace s'' = trace Cases.doubleWatched ++ evs /\
                 EvRead App.double ∈ evs).
Proof.
  apply (X21_useAtomValue_subscribes_to_dependencies App.atoms 8 App.double 7
           createStore (VNum 0) Cases.doubleWatched).
  - reflexivity.
  - vm_compute. reflexivity.
Defined.

Lemma reduce_final {A B} (I : Store -> Prop) (f : B -> A -> Store -> Res B) xs :
  (forall acc x s s', x ∈ xs -> I s -> final (f acc x s) = Some s' -> I s') ->
  forall acc s s', I s -> final (reduce f xs acc s) = Some s' -> I s'.
Proof.
  induction xs as [|x xs IH]; simpl; intros Hf acc s s' Hs Hfin.
  - congruence.
  - apply final_bind in Hfin as [(acc' & s1 & Hx & Hrest)|(e & Hx)].
    + apply (IH (fun a y s0 s2 Hy => Hf a y s0 s2 (list_elem_of_further _ _ _ Hy))
               acc' s1 s'); [|exact Hrest].
      apply (Hf acc x s s1); [left|exact Hs|now rewrite Hx].
    + apply (Hf acc x s s'); [left|exact Hs|now rewrite Hx].
Qed.

Lemma readAtom_readFrame_from atoms s0 fuel atom s s' :
  readFrame s0 s -> final (readAtom atoms fuel atom s) = Some s' -> readFrame s0 s'.
Proof.
  intros Hs Hfin. unfold readAtom in Hfin.
  apply final_bind in Hfin as [(st & s1 & Hr & Hrest)|(e & Hr)].
  - assert (s1 = s') as -> by (cbv in Hrest; congruence).
    apply (readAtomState_readFrame atoms s0 fuel atom s s' Hs). now rewrite Hr.
  - apply (readAtomState_readFrame atoms s0 fuel atom s s' Hs). now rewrite Hr.
Qed.

(** X22: [stateToPrintable([store, atoms])] returns [undefined] whatever
    the atoms; what it does is [store.get] on each atom in turn, so that
    every listed atom ends up cached; it throws what such a [get] throws,
    and touches the store as plain reads do. *)
Theorem X22_stateToPrintable_returns_nothing atoms fuel atoms_ s :
  (forall r s', stateToPrintable atoms fuel atoms_ s = Ok r s' ->
     r = VUndefined /\
     (forall a, a ∈ atoms_ -> is_Some (getAtomState a s'))) /\
  (forall e s', stateToPrintable atoms fuel atoms_ s = Throw e s' ->
     e = NoAtomInit /\ selfReadWithoutValue atoms s') /\
  (forall s', final (stateToPrintable atoms fuel atoms_ s) = Some s' -> readFrame s s').
Proof.
  unfold stateToPrintable.
  set (step := fun (res : string -> option Value) atom s0 =>
                 let! atomState := readAtom atoms fuel atom s0 in
                 Ok (fun label =>
                       if String.eqb label (debugLabel (atoms atom))
                       then Some atomState else res label)).
  assert (Hstep : forall res a s0 s1,
            final (step res a s0) = Some s1 -> final (readAtom atoms fuel a s0) = Some s1).
  { intros res a s0 s1. unfold step.
    destruct (readAtom atoms fuel a s0); simpl; congruence. }
  assert (Hkeep : forall s0 s1 b, readFrame s0 s1 ->
            is_Some (getAtomState b s0) -> is_Some (getAtomState b s1)).
  { intros s0 s1 b (_ & Hc & _) Hb. now rewrite Hc. }
  split; [|split].
  - intros r s' Hrun. apply bind_Ok in Hrun as (res & s1 & Hred & Hret).
    injection Hret as <- <-. split; [reflexivity|].
    clear Hstep. revert Hred. generalize (fun _ : string => @None Value) as acc.
    revert s. induction atoms_ as [|x xs IH]; intros s acc Hred a Ha.
    + now apply elem_of_nil in Ha.
    + simpl in Hred. apply bind_Ok in Hred as (acc' & s2 & Hx & Hrest).
      apply elem_of_cons in Ha as [->|Ha]; [|now apply (IH s2 acc')].
      unfold step in Hx. apply bind_Ok in Hx as (value & s3 & Hget & Hok).
      injection Hok as _ <-.
      apply (Hkeep s3 s1).
      * refine (reduce_final (readFrame s3) step xs _ acc' s3 s1 (readFrame_refl s3) _).
        -- intros acc0 y s4 s5 _ Hs4 Hfin.
           apply (readAtom_readFrame_from atoms s3 fuel y s4 s5 Hs4).
           unfold step in Hfin.
           destruct (readAtom atoms fuel y s4); simpl in *; congruence.
        -- now rewrite Hrest.
      * apply readAtom_Ok_cached in Hget as (st & Hst & _). eauto.
  - intros e s' Hrun. apply bind_Throw in Hrun as [Hred|(res & s1 & _ & Hok)];
      [|discriminate].
    clear Hkeep. revert Hred. generalize (fun _ : string => @None Value) as acc.
    revert s. induction atoms_ as [|x xs IH]; intros s acc Hred; [discriminate|].
    simpl in Hred. apply bind_Throw in Hred as [Hx|(acc' & s2 & _ & Hrest)];
      [|now apply (IH s2 acc')].
    unfold step in Hx. apply bind_Throw in Hx as [Hget|(value & s3 & _ & Hok)];
      [|discriminate].
    apply readAtom_Throw in Hget. now apply readAtomState_Throw in Hget.
  - intros s' Hfin. apply final_bind in Hfin as [(res & s1 & Hred & Hret)|(e & Hred)].
    + injection Hret as <-.
      refine (reduce_final (readFrame s) step atoms_ _ _ s s1 (readFrame_refl s) _).
      * intros acc0 y s4 s5 _ Hs4 Hfin.
        apply (readAtom_readFrame_from atoms s fuel y s4 s5 Hs4). eauto.
      * now rewrite Hred.
    + refine (reduce_final (readFrame s) step atoms_ _ _ s s' (readFrame_refl s) _).
      * intros acc0 y s4 s5 _ Hs4 Hfin.
        apply (readAtom_readFrame_from atoms s fuel y s4 s5 Hs4). eauto.
      * now rewrite Hred.
Qed.
